(** * Matching and allocation engine of the disaster-relief backend

    A shallow embedding of

    - [utils/geocoder.js]          ([calculateDistance], [deg2rad]),
    - [utils/matchingAlgorithm.js] ([matchResourcesToEmergency],
      [matchEmergenciesToResource], [getUrgencyScore], [calculateMatchScore]),
    - [models/Resource.js], [models/Emergency.js], [models/Notification.js]
      (the validators that [save] and [create] run),
    - [controllers/emergencyController.js] ([matchResourcesForEmergency],
      [updateMatchStatus], [assignVolunteer]),
    - [controllers/resourceController.js] ([matchEmergenciesForResource],
      [markResourceDelivered], [assignVolunteer]),
    - [services/EmergencyService.js] ([updateResourceMatch]) over
      [services/BaseService.js] ([getById]),

    followed by the properties of the specification that concern them. *)

From Stdlib Require Import QArith Qround Qabs Lqa ZArith Lia.
From stdpp Require Import gmap strings list fin_maps sorting.

Local Open Scope Q_scope.

(** ** JavaScript numbers

    A JavaScript number is NaN, one of the two infinities, or a finite
    double.  Every finite double is a rational, so finite values are carried
    by [Q]; the model computes [+ - * /] on them exactly and does not model
    the rounding of a result to the nearest double.  The two zeros are kept
    apart: [Fin q] with [q == 0] is [+0] and [NZero] is [-0], which differ
    under division.  The special values follow IEEE 754 as JavaScript exposes
    them.  Finite results are kept in lowest terms ([Qred]) so that equal
    numbers are equal terms. *)

Inductive num : Type :=
| NaN
| PInf
| NInf
| NZero
| Fin (q : Q).

#[global] Instance Q_eq_dec : EqDecision Q.
Proof. solve_decision. Defined.

#[global] Instance num_eq_dec : EqDecision num.
Proof. solve_decision. Defined.

Definition fin (q : Q) : num := Fin (Qred q).

(** The value of a finite number, and the sign bit of any number. *)
Definition value (x : num) : option Q :=
  match x with
  | Fin q => Some q
  | NZero => Some 0
  | _ => None
  end.

Definition negative (x : num) : bool :=
  match x with
  | NInf | NZero => true
  | Fin q => negb (Qle_bool 0 q)
  | _ => false
  end.

Definition zero_of (sign : bool) : num := if sign then NZero else Fin 0.

Definition inf_of (sign : bool) : num := if sign then NInf else PInf.

Definition num_neg (x : num) : num :=
  match x with
  | NaN => NaN
  | PInf => NInf
  | NInf => PInf
  | NZero => Fin 0
  | Fin q => if Qeq_bool q 0 then NZero else fin (- q)
  end.

(** A sum that is zero is [+0] unless both terms are [-0]. *)
Definition num_add (x y : num) : num :=
  match x, y with
  | NaN, _ | _, NaN => NaN
  | PInf, NInf | NInf, PInf => NaN
  | PInf, _ | _, PInf => PInf
  | NInf, _ | _, NInf => NInf
  | NZero, NZero => NZero
  | NZero, Fin b => fin b
  | Fin a, NZero => fin a
  | Fin a, Fin b => fin (a + b)
  end.

Definition num_sub (x y : num) : num := num_add x (num_neg y).

(** The sign of a product or quotient is the exclusive or of the signs, also
    when the result is a zero or an infinity; [0 * Infinity], [0 / 0] and
    [Infinity / Infinity] are NaN. *)
Definition num_mul (x y : num) : num :=
  let sign := xorb (negative x) (negative y) in
  match x, y with
  | NaN, _ | _, NaN => NaN
  | _, _ =>
      match value x, value y with
      | Some a, Some b => if Qeq_bool (a * b) 0 then zero_of sign else fin (a * b)
      | Some a, None => if Qeq_bool a 0 then NaN else inf_of sign
      | None, Some b => if Qeq_bool b 0 then NaN else inf_of sign
      | None, None => inf_of sign
      end
  end.

Definition num_div (x y : num) : num :=
  let sign := xorb (negative x) (negative y) in
  match x, y with
  | NaN, _ | _, NaN => NaN
  | _, _ =>
      match value x, value y with
      | Some a, Some b =>
          if Qeq_bool b 0 then (if Qeq_bool a 0 then NaN else inf_of sign)
          else if Qeq_bool a 0 then zero_of sign else fin (a / b)
      | Some _, None => zero_of sign
      | None, Some _ => inf_of sign
      | None, None => NaN
      end
  end.

(** [x > y] and [x <= y]: every comparison with NaN is false, and the two
    zeros compare equal. *)
Definition num_gt (x y : num) : bool :=
  match x, y with
  | NaN, _ | _, NaN => false
  | PInf, PInf => false
  | PInf, _ => true
  | _, PInf => false
  | NInf, _ => false
  | _, NInf => true
  | _, _ =>
      match value x, value y with
      | Some a, Some b => negb (Qle_bool a b)
      | _, _ => false
      end
  end.

Definition num_le (x y : num) : bool :=
  match x, y with
  | NaN, _ | _, NaN => false
  | _, PInf => true
  | PInf, _ => false
  | NInf, _ => true
  | _, NInf => false
  | _, _ =>
      match value x, value y with
      | Some a, Some b => Qle_bool a b
      | _, _ => false
      end
  end.

(** [x === y] on numbers: NaN is not equal to itself, [+0 === -0]. *)
Definition num_eq (x y : num) : bool :=
  match x, y with
  | PInf, PInf | NInf, NInf => true
  | _, _ =>
      match value x, value y with
      | Some a, Some b => Qeq_bool a b
      | _, _ => false
      end
  end.

(** [Math.max(x, y)] and [Math.min(x, y)]: NaN if either argument is, and
    [+0] counts as larger than [-0]. *)
Definition Math_max (x y : num) : num :=
  match x, y with
  | NaN, _ | _, NaN => NaN
  | PInf, _ | _, PInf => PInf
  | NInf, z | z, NInf => z
  | NZero, NZero => NZero
  | NZero, Fin b => if Qle_bool 0 b then Fin b else NZero
  | Fin a, NZero => if Qle_bool 0 a then Fin a else NZero
  | Fin a, Fin b => if Qle_bool a b then Fin b else Fin a
  end.

Definition Math_min (x y : num) : num :=
  match x, y with
  | NaN, _ | _, NaN => NaN
  | NInf, _ | _, NInf => NInf
  | PInf, z | z, PInf => z
  | NZero, NZero => NZero
  | NZero, Fin b => if Qle_bool 0 b then NZero else Fin b
  | Fin a, NZero => if Qle_bool 0 a then NZero else Fin a
  | Fin a, Fin b => if Qle_bool a b then Fin a else Fin b
  end.

(** [Math.round(x)]: the integer nearest to [x], halves rounded up; a negative
    [x] that rounds to zero gives [-0]. *)
Definition Math_round (x : num) : num :=
  match x with
  | Fin q =>
      let z := Qfloor (q + (1 # 2)) in
      if Z.eqb z 0 && negb (Qle_bool 0 q) then NZero else Fin (inject_Z z)
  | other => other
  end.

(** [x || 0] for a number [x]: the falsy numbers are the zeros and NaN. *)
Definition or_zero (x : num) : num :=
  match x with
  | NaN | NZero => Fin 0
  | Fin q => if Qeq_bool q 0 then Fin 0 else Fin q
  | other => other
  end.

(** [parseFloat(x.toFixed(2))]: [toFixed] picks the integer [n] with
    [n / 100] nearest to [|x|], the larger one on a tie, and restores the
    sign, so that a negative [x] that rounds to zero prints as ["-0.00"] and
    parses back as [-0]; [-0] itself prints as ["0.00"]; the non-finite values
    print as their names and parse back. *)
Definition round2 (q : Q) : Q :=
  if Qle_bool 0 q
  then Qred (Qfloor (q * 100 + (1 # 2)) # 100)
  else Qred (- (Qfloor (- q * 100 + (1 # 2)) # 100)).

Definition toFixed2 (x : num) : num :=
  match x with
  | Fin q =>
      if Qle_bool 0 q then Fin (round2 q)
      else if Qeq_bool (round2 q) 0 then NZero else Fin (round2 q)
  | NZero => Fin 0
  | other => other
  end.

(** A value that may be [undefined]; in arithmetic [undefined] is NaN. *)
Definition to_number (v : option num) : num := default NaN v.

(** ** The Math library

    ECMAScript fixes the results of [Math.sin], [Math.cos], [Math.sqrt] and
    [Math.atan2] at the special values and leaves the others to the
    implementation ("implementation-approximated").  [MathLib] holds the
    approximations an engine uses at the finite non-zero arguments; the
    functions below add what the language fixes: NaN in, NaN out; no sine or
    cosine of an infinity; the sine of a zero is that zero and its cosine is
    1; no square root of a negative number, and a square root that is never
    negative; an arc tangent that carries the sign of its first argument. *)

Record MathLib : Type := mkMathLib {
  sin_approx : Q → Q;
  cos_approx : Q → Q;
  sqrt_approx : Q → Q;
  atan2_approx : num → num → Q
}.

Definition Math_sin (M : MathLib) (x : num) : num :=
  match x with
  | Fin q => if Qeq_bool q 0 then Fin 0 else fin (sin_approx M q)
  | NZero => NZero
  | _ => NaN
  end.

Definition Math_cos (M : MathLib) (x : num) : num :=
  match x with
  | Fin q => if Qeq_bool q 0 then Fin 1 else fin (cos_approx M q)
  | NZero => Fin 1
  | _ => NaN
  end.

Definition Math_sqrt (M : MathLib) (x : num) : num :=
  match x with
  | Fin q =>
      if Qeq_bool q 0 then Fin 0
      else if Qle_bool 0 q then fin (Qabs (sqrt_approx M q)) else NaN
  | NZero => NZero
  | PInf => PInf
  | _ => NaN
  end.

Definition Math_atan2 (M : MathLib) (y x : num) : num :=
  match y, x with
  | NaN, _ | _, NaN => NaN
  | _, _ =>
      let magnitude := fin (Qabs (atan2_approx M y x)) in
      if negative y then num_neg magnitude else magnitude
  end.

(** [Math.PI] is the double nearest to pi. *)
Definition Math_PI : Q := 884279719003555 # 281474976710656.

(** ** Data model *)

Inductive MatchStatus : Type := pending | accepted | rejected | delivered.

#[global] Instance MatchStatus_eq_dec : EqDecision MatchStatus.
Proof. solve_decision. Defined.

(** An element of [matchedResources] (then [counterpart] is the field
    [resource]) or of [matchedEmergencies] (then it is [emergency]). *)
Record MatchRef : Type := mkRef {
  counterpart : option string;
  status : MatchStatus;
  matchScore : num
}.

Record Need : Type := mkNeed {
  n_type : string;
  n_quantity : num;
  n_fulfilled : bool
}.

(** The records keep the paths the engine reads or writes.
    [location.coordinates] is [[longitude, latitude]]; [None] stands for a
    missing [location] or a missing [coordinates], on which every access
    [location.coordinates[i]] throws.  Ids are strings; [_id] is [None] when
    [undefined] (plain objects handed to the matcher).  [quantity] is NaN when
    [undefined]: the matcher only uses it in arithmetic and comparisons.

    The schemas of [models/] count when a document is saved.  [address] is a
    required path of a resource, which the [pre('save')] hook unsets after the
    first validation, so a resource created through the application has none.
    [restValid] tells whether the remaining paths of the document, none of
    which the engine writes, pass their validators: for a resource [name],
    [description], [type], [quantity] and [user]; for an emergency [title],
    [description], [type], [status], [urgency], [resourcesNeeded], [user],
    and [address] where the coordinates are missing. *)
Record Emergency : Type := mkEmergency {
  e_id : option string;
  e_type : string;
  e_status : string;
  e_urgency : string;
  e_quantity : num;
  e_location : option (list num);
  e_resourcesNeeded : list Need;
  e_matchedResources : list MatchRef;
  e_user : string;
  e_assignedTo : option string;
  e_restValid : bool
}.

Record Resource : Type := mkResource {
  r_id : option string;
  r_type : string;
  r_quantity : num;
  r_status : string;
  r_location : option (list num);
  r_matchedEmergencies : list MatchRef;
  r_user : string;
  r_assignedTo : option string;
  r_address : option string;
  r_restValid : bool
}.

(** Entries of the lists returned by the two ranking functions. *)
Record ResourceMatch : Type := mkRM {
  rm_resource : Resource;
  rm_distance : num;
  rm_matchScore : num
}.

Record EmergencyMatch : Type := mkEM {
  em_emergency : Emergency;
  em_distance : num;
  em_matchScore : num
}.

(** ** [Array.prototype.sort]

    The sort is stable.  For a consistent comparator the result is the
    unique stable sorted permutation, which insertion from the right
    computes: [x], which comes first in the input, moves behind [y] only when
    [cmp x y > 0].  A comparator that returns NaN is not consistent, and
    ECMAScript then leaves the order to the implementation; the result is
    still a permutation of the input, and nothing below that depends on the
    order is stated for lists with a NaN key. *)
Section Sort.
Context {A : Type} (cmp : A -> A -> num).

Fixpoint sort_insert (x : A) (l : list A) : list A :=
  match l with
  | [] => [x]
  | y :: l' => if num_gt (cmp x y) (Fin 0) then y :: sort_insert x l' else x :: l
  end.

Definition js_sort (l : list A) : list A := foldr sort_insert [] l.
End Sort.

(** ** The store

    The two collections are finite maps from document id to document; a
    query without a sort order returns the documents in the order of
    [map_to_list].  A handler ends in one of three ways: [Ok] is
    [res.status(200)]; [Error code] is an [ErrorResponse] (or [AppError]) with
    that [statusCode], handed to [next] or thrown; [Throws e] is any other
    exception, which [asyncHandler] hands to [next] as well.  What the client
    receives in the last two cases is decided by the error middleware, which
    is not part of these files. *)

Record User : Type := mkUser { u_id : string; u_role : string }.

Record Notification : Type := mkNotification {
  nt_type : string;
  nt_user : string;
  nt_emergency : option string;
  nt_resource : option string
}.

Record Store : Type := mkStore {
  emergencies : gmap string Emergency;
  resources : gmap string Resource;
  notifications : list Notification
}.

Inductive Exception : Type := TypeError | ValidationError.

Inductive Response : Type :=
| Ok
| Error (statusCode : nat)
| Throws (e : Exception).

(** The writes of a successful [save] and [create]. *)
Definition save_emergency (st : Store) (id : string) (e : Emergency) : Store :=
  mkStore (<[id := e]> (emergencies st)) (resources st) (notifications st).

Definition save_resource (st : Store) (id : string) (r : Resource) : Store :=
  mkStore (emergencies st) (<[id := r]> (resources st)) (notifications st).

Definition notify (st : Store) (n : Notification) : Store :=
  mkStore (emergencies st) (resources st) (notifications st ++ [n]).

(** *** Validation

    [save] validates the whole document first and rejects with a
    [ValidationError], writing nothing, when a validator fails.  [matchScore]
    is a [Number] with [min: 0] and [max: 100], and NaN does not pass the cast
    to [Number].  The status of a match is one of the four of [MatchStatus],
    which is the [enum] of its path. *)

Definition valid_matchScore (s : num) : bool :=
  num_le (Fin 0) s && num_le s (Fin 100).

Definition resource_statuses : list string :=
  ["available"; "reserved"; "in-transit"; "delivered"; "cancelled"; "allocated"]%string.

Definition validate_emergency (e : Emergency) : bool :=
  e_restValid e
  && forallb (λ m, valid_matchScore (matchScore m)) (e_matchedResources e).

Definition validate_resource (r : Resource) : bool :=
  r_restValid r
  && bool_decide (is_Some (r_address r))
  && bool_decide (r_status r ∈ resource_statuses)
  && forallb (λ m, valid_matchScore (matchScore m)) (r_matchedEmergencies r).

(** [type] is the one path of a notification whose value differs between the
    handlers; [title], [message] and [user] are always given. *)
Definition notification_types : list string :=
  ["emergency_created"; "emergency_updated"; "emergency_resolved"; "resource_matched";
   "match_accepted"; "match_rejected"; "assignment"; "system"]%string.

Definition validate_notification (n : Notification) : bool :=
  bool_decide (nt_type n ∈ notification_types).

(** *** Field updates *)

Definition set_matchedResources (e : Emergency) (l : list MatchRef) : Emergency :=
  mkEmergency (e_id e) (e_type e) (e_status e) (e_urgency e) (e_quantity e)
    (e_location e) (e_resourcesNeeded e) l (e_user e) (e_assignedTo e) (e_restValid e).

Definition set_resourcesNeeded (e : Emergency) (l : list Need) : Emergency :=
  mkEmergency (e_id e) (e_type e) (e_status e) (e_urgency e) (e_quantity e)
    (e_location e) l (e_matchedResources e) (e_user e) (e_assignedTo e) (e_restValid e).

Definition set_e_assignedTo (e : Emergency) (a : option string) : Emergency :=
  mkEmergency (e_id e) (e_type e) (e_status e) (e_urgency e) (e_quantity e)
    (e_location e) (e_resourcesNeeded e) (e_matchedResources e) (e_user e) a
    (e_restValid e).

Definition with_quantity (emergency : Emergency) (q : num) : Emergency :=
  mkEmergency (e_id emergency) (e_type emergency) (e_status emergency)
    (e_urgency emergency) q (e_location emergency) (e_resourcesNeeded emergency)
    (e_matchedResources emergency) (e_user emergency) (e_assignedTo emergency)
    (e_restValid emergency).

Definition set_matchedEmergencies (r : Resource) (l : list MatchRef) : Resource :=
  mkResource (r_id r) (r_type r) (r_quantity r) (r_status r) (r_location r) l
    (r_user r) (r_assignedTo r) (r_address r) (r_restValid r).

Definition set_r_status (r : Resource) (s : string) : Resource :=
  mkResource (r_id r) (r_type r) (r_quantity r) s (r_location r)
    (r_matchedEmergencies r) (r_user r) (r_assignedTo r) (r_address r) (r_restValid r).

Definition set_r_assignedTo (r : Resource) (a : option string) : Resource :=
  mkResource (r_id r) (r_type r) (r_quantity r) (r_status r) (r_location r)
    (r_matchedEmergencies r) (r_user r) a (r_address r) (r_restValid r).

Definition set_status (s : MatchStatus) (m : MatchRef) : MatchRef :=
  mkRef (counterpart m) s (matchScore m).

Definition set_fulfilled (n : Need) : Need :=
  mkNeed (n_type n) (n_quantity n) true.

(** An emergency as a handler holds it after [Emergency.findById] or
    [Emergency.find]: the schema declares no [quantity], so
    [emergency.quantity] is [undefined] on every document. *)
Definition document (e : Emergency) : Emergency := with_quantity e NaN.

(** [list.find(match => match.counterpart.toString() === id)] and the
    assignment to a field of the element it returns, which is the element
    of the list itself. *)
Definition is_ref_of (id : string) (m : MatchRef) : Prop := counterpart m = Some id.

#[global] Instance is_ref_of_dec (id : string) (m : MatchRef) : Decision (is_ref_of id m).
Proof. unfold is_ref_of. apply _. Defined.

#[global] Typeclasses Opaque is_ref_of.

Definition find_ref (id : string) (l : list MatchRef) : option MatchRef :=
  snd <$> list_find (is_ref_of id) l.

Definition update_ref (id : string) (f : MatchRef -> MatchRef) (l : list MatchRef)
    : list MatchRef :=
  match list_find (is_ref_of id) l with
  | Some (i, _) => alter f i l
  | None => l
  end.

(** The update of [resourcesNeeded] in [markResourceDelivered]: the first
    open need of type [ty], if there is one, becomes fulfilled. *)
Definition fulfil_first (ty : string) (needs : list Need) : list Need :=
  match list_find (λ need, n_type need = ty ∧ n_fulfilled need = false) needs with
  | Some (i, _) => alter set_fulfilled i needs
  | None => needs
  end.

(** The owner, the assigned volunteer and an admin are authorised. *)
Definition not_authorized (owner : string) (assignedTo : option string)
    (user : User) : bool :=
  negb (String.eqb owner (u_id user))
  && match assignedTo with
     | None => true
     | Some a => negb (String.eqb a (u_id user))
     end
  && negb (String.eqb (u_role user) "admin").

(** The comparator of both ranking functions, [b.key - a.key], with the order
    it sorts by. *)
Section ByKey.
Context {A : Type} (key : A → num).

Definition by_key_desc (a b : A) : num := num_sub (key b) (key a).

Definition key_ge (a b : A) : Prop := num_le (key b) (key a) = true.

Definition finite_key (a : A) : Prop := ∃ q, key a = Fin q.
End ByKey.

(** ** The haversine formula

    Lines 95 to 104 of [calculateDistance], on finite arguments, with the
    arithmetic of the model between the calls of the Math library: the
    full-precision distance [d = R * c]. *)

Definition deg2rad (deg : num) : num :=
  num_mul deg (num_div (Fin Math_PI) (Fin 180)).

Definition haversine_a (M : MathLib) (lat1 lon1 lat2 lon2 : Q) : num :=
  let dLat := deg2rad (num_sub (Fin lat2) (Fin lat1)) in
  let dLon := deg2rad (num_sub (Fin lon2) (Fin lon1)) in
  num_add
    (num_mul (Math_sin M (num_div dLat (Fin 2))) (Math_sin M (num_div dLat (Fin 2))))
    (num_mul
       (num_mul
          (num_mul (Math_cos M (deg2rad (Fin lat1))) (Math_cos M (deg2rad (Fin lat2))))
          (Math_sin M (num_div dLon (Fin 2))))
       (Math_sin M (num_div dLon (Fin 2)))).

Definition haversine_km (M : MathLib) (lat1 lon1 lat2 lon2 : Q) : num :=
  let R := Fin 6371 in
  let a := haversine_a M lat1 lon1 lat2 lon2 in
  let c := num_mul (Fin 2)
             (Math_atan2 M (Math_sqrt M a) (Math_sqrt M (num_sub (Fin 1) a))) in
  num_mul R c.

(** ** Distance and ranking

    The rankings and the handlers are stated for any core [haversine] of
    [calculateDistance], the value it computes from finite arguments before
    it rounds; [haversine_km M] is the core of the source. *)
Section Matching.
Variable haversine : Q -> Q -> Q -> Q -> num.

Definition haversine_d (lat1 lon1 lat2 lon2 : num) : num :=
  match value lat1, value lon1, value lat2, value lon2 with
  | Some a, Some b, Some c, Some d => haversine a b c d
  | _, _, _, _ => NaN
  end.

(** An argument of [calculateDistance]: an array of numbers, a number, or
    anything else ([undefined] included). *)
Inductive Arg : Type :=
| Arr (p : list num)
| Num (x : num)
| Other.

Definition arg_of (v : option num) : Arg :=
  match v with
  | Some x => Num x
  | None => Other
  end.

(** [calculateDistance(point1, point2, lat2, lon2)]: two [[lat, lon]] arrays,
    or the latitude and longitude of the first point followed by those of the
    second.  [None] is the thrown ['Invalid coordinates format'].  A missing
    component is [undefined] and makes the result NaN. *)
Definition calculateDistance (point1 point2 : Arg) (lat2 lon2 : option num)
    : option num :=
  match point1, point2 with
  | Arr p1, Arr p2 =>
      Some (toFixed2 (haversine_d (to_number (p1 !! 0%nat)) (to_number (p1 !! 1%nat))
                        (to_number (p2 !! 0%nat)) (to_number (p2 !! 1%nat))))
  | Num lat1, Num lon1 =>
      Some (toFixed2 (haversine_d lat1 lon1 (to_number lat2) (to_number lon2)))
  | _, _ => None
  end.

(** [calculateDistance(a.location.coordinates[1], a.location.coordinates[0],
    b.location.coordinates[1], b.location.coordinates[0]) || 0]. *)
Definition distance_between (a b : option (list num)) : option num :=
  ca ← a; cb ← b;
  d ← calculateDistance (arg_of (ca !! 1%nat)) (arg_of (ca !! 0%nat))
        (cb !! 1%nat) (cb !! 0%nat);
  Some (or_zero d).

Definition distanceScore (distance maxDistance : num) : num :=
  Math_max (Fin 0) (Math_min (Fin 100)
    (num_mul (Fin 100) (num_sub (Fin 1) (num_div distance maxDistance)))).

(** [Math.max(0, Math.min(100, 100 * (have / need)))]. *)
Definition quantityScore (have need : num) : num :=
  Math_max (Fin 0) (Math_min (Fin 100) (num_mul (Fin 100) (num_div have need))).

(** [urgencyScores[urgency] || 0] on the object literal [urgencyScores]: a
    key the literal lacks is looked up in [Object.prototype], whose
    properties are functions (and the object itself for [__proto__]): truthy
    values that [||] keeps and that the product [urgencyScore * 0.4] turns
    into NaN. *)
Definition Object_prototype : list string :=
  ["constructor"; "__defineGetter__"; "__defineSetter__"; "hasOwnProperty";
   "__lookupGetter__"; "__lookupSetter__"; "isPrototypeOf"; "propertyIsEnumerable";
   "toString"; "valueOf"; "__proto__"; "toLocaleString"]%string.

Definition getUrgencyScore (urgency : string) : num :=
  if String.eqb urgency "critical" then Fin 100
  else if String.eqb urgency "high" then Fin 75
  else if String.eqb urgency "medium" then Fin 50
  else if String.eqb urgency "low" then Fin 25
  else if bool_decide (urgency ∈ Object_prototype) then NaN
  else Fin 0.

Definition resourceScore (distance maxDistance have need : num) : num :=
  Math_round (num_add (num_mul (distanceScore distance maxDistance) (Fin (6 # 10)))
                      (num_mul (quantityScore have need) (Fin (4 # 10)))).

Definition emergencyScore (distance maxDistance : num) (urgency : string)
    (have need : num) : num :=
  Math_round (num_add (num_add
      (num_mul (distanceScore distance maxDistance) (Fin (4 # 10)))
      (num_mul (getUrgencyScore urgency) (Fin (4 # 10))))
      (num_mul (quantityScore have need) (Fin (2 # 10)))).

(** The test for the special case with coordinates [[100, 100]]. *)
Definition special_location (emergency : Emergency) : bool :=
  match e_location emergency with
  | Some cs =>
      match cs !! 0%nat, cs !! 1%nat with
      | Some x, Some y => num_eq x (Fin 100) && num_eq y (Fin 100)
      | _, _ => false
      end
  | None => false
  end.

(** The callback of [matchingResources.map]: the outer [None] is a thrown
    exception, the inner [None] is the [null] of a candidate beyond
    [maxDistance]. *)
Definition score_resource (emergency : Emergency) (maxDistance : num)
    (resource : Resource) : option (option ResourceMatch) :=
  if bool_decide (r_id resource = Some "resource1") then
    Some (Some (mkRM resource (Fin 0) (Fin 80)))
  else if bool_decide (r_id resource = Some "resource2") then
    Some (Some (mkRM resource (Fin 10) (Fin 60)))
  else
    distance ← distance_between (e_location emergency) (r_location resource);
    if num_gt distance maxDistance then Some None
    else Some (Some (mkRM resource distance
           (resourceScore distance maxDistance (r_quantity resource) (e_quantity emergency)))).

Definition rm_compare : ResourceMatch → ResourceMatch → num :=
  by_key_desc rm_matchScore.

Definition matchResourcesToEmergency (emergency : Emergency)
    (resources : list Resource) (maxDistance : num) : list ResourceMatch :=
  if special_location emergency then []
  else
    let matchingResources :=
      filter (λ resource, r_type resource = e_type emergency
                          ∧ r_status resource = "available"%string) resources in
    match mapM (score_resource emergency maxDistance) matchingResources with
    | Some matches => js_sort rm_compare (omap id matches)
    | None => []
    end.

Definition score_emergency (resource : Resource) (maxDistance : num)
    (emergency : Emergency) : option (option EmergencyMatch) :=
  distance ← distance_between (e_location emergency) (r_location resource);
  if num_gt distance maxDistance then Some None
  else Some (Some (mkEM emergency distance
         (emergencyScore distance maxDistance (e_urgency emergency)
            (e_quantity emergency) (r_quantity resource)))).

Definition em_compare : EmergencyMatch → EmergencyMatch → num :=
  by_key_desc em_matchScore.

(** The branch for mock objects: no [_id] on the resource and a first
    emergency called ['emergency1']. *)
Definition mock_pool (resource : Resource) (emergencies : list Emergency)
    : option Emergency :=
  match r_id resource, emergencies with
  | None, first :: _ =>
      if bool_decide (e_id first = Some "emergency1") then Some first else None
  | _, _ => None
  end.

Definition matchEmergenciesToResource (resource : Resource)
    (emergencies : list Emergency) (maxDistance : num) : list EmergencyMatch :=
  match mock_pool resource emergencies with
  | Some first =>
      [mkEM (with_quantity first (Math_min (e_quantity first) (r_quantity resource)))
            (Fin 0) (Fin 80)]
  | None =>
      let matchingEmergencies :=
        filter (λ emergency, e_type emergency = r_type resource
                             ∧ e_status emergency = "active"%string
                             ∧ num_le (e_quantity emergency) (r_quantity resource) = true)
               emergencies in
      match mapM (score_emergency resource maxDistance) matchingEmergencies with
      | Some matches => js_sort em_compare (omap id matches)
      | None => []
      end
  end.

(** ** The controllers

    Each handler reads its documents, checks the request, changes the
    documents in memory and saves them; [save] and [Notification.create]
    validate before they write.  A handler that throws stops where it is:
    what it saved before stays saved. *)

Definition matchResourcesForEmergency (st : Store) (id : string) (user : User)
    : Store * Response :=
  match emergencies st !! id with
  | None => (st, Error 404)
  | Some emergency =>
      if not_authorized (e_user emergency) (e_assignedTo emergency) user
      then (st, Error 401)
      else
        let availableResources :=
          filter (λ r, r_status r = "available"%string) (map_to_list (resources st)).*2 in
        let matches :=
          matchResourcesToEmergency (document emergency) availableResources (Fin 50) in
        let refs := map (λ m, mkRef (r_id (rm_resource m)) pending (rm_matchScore m)) matches in
        let emergency' := set_matchedResources emergency refs in
        if validate_emergency emergency'
        then (save_emergency st id emergency', Ok)
        else (st, Throws ValidationError)
  end.

Definition matchEmergenciesForResource (st : Store) (id : string) (user : User)
    : Store * Response :=
  match resources st !! id with
  | None => (st, Error 404)
  | Some resource =>
      if not_authorized (r_user resource) (r_assignedTo resource) user
      then (st, Error 401)
      else
        let activeEmergencies :=
          filter (λ e, e_status e = "active"%string) (map_to_list (emergencies st)).*2 in
        let matches :=
          matchEmergenciesToResource resource (document <$> activeEmergencies) (Fin 50) in
        let refs := map (λ m, mkRef (e_id (em_emergency m)) pending (em_matchScore m)) matches in
        let resource' := set_matchedEmergencies resource refs in
        if validate_resource resource'
        then (save_resource st id resource', Ok)
        else (st, Throws ValidationError)
  end.

(** [PUT /emergencies/:id/match/:resourceId] with [action] in the body. *)
Definition updateMatchStatus (st : Store) (id resourceId action : string)
    (user : User) : Store * Response :=
  if negb (String.eqb action "accept" || String.eqb action "reject")
  then (st, Error 400)
  else
    match emergencies st !! id with
    | None => (st, Error 404)
    | Some emergency =>
        if not_authorized (e_user emergency) (e_assignedTo emergency) user
        then (st, Error 401)
        else
          match find_ref resourceId (e_matchedResources emergency) with
          | None => (st, Error 404)
          | Some resourceMatch =>
              let new_status := if String.eqb action "accept" then accepted else rejected in
              let emergency' :=
                set_matchedResources emergency
                  (update_ref resourceId (set_status new_status)
                     (e_matchedResources emergency)) in
              if negb (validate_emergency emergency') then (st, Throws ValidationError)
              else
                let st1 := save_emergency st id emergency' in
                if String.eqb action "accept" then
                  match resources st1 !! resourceId with
                  | None => (st1, Throws TypeError)
                  | Some resource =>
                      let resource' :=
                        set_matchedEmergencies (set_r_status resource "reserved")
                          (r_matchedEmergencies resource
                             ++ [mkRef (e_id emergency) accepted (matchScore resourceMatch)]) in
                      if negb (validate_resource resource')
                      then (st1, Throws ValidationError)
                      else
                        let st2 := save_resource st1 resourceId resource' in
                        let notification :=
                          mkNotification "match_accepted" (r_user resource)
                            (e_id emergency) (r_id resource) in
                        if negb (validate_notification notification)
                        then (st2, Throws ValidationError)
                        else (notify st2 notification, Ok)
                  end
                else (st1, Ok)
          end
    end.

(** [PUT /resources/:id/deliver/:emergencyId]. *)
Definition markResourceDelivered (st : Store) (id emergencyId : string)
    (user : User) : Store * Response :=
  match resources st !! id with
  | None => (st, Error 404)
  | Some resource =>
      if not_authorized (r_user resource) (r_assignedTo resource) user
      then (st, Error 401)
      else
        match find_ref emergencyId (r_matchedEmergencies resource) with
        | None => (st, Error 404)
        | Some emergencyMatch =>
            if negb (bool_decide (status emergencyMatch = accepted))
            then (st, Error 404)
            else
              let resource' :=
                set_matchedEmergencies (set_r_status resource "delivered")
                  (update_ref emergencyId (set_status delivered)
                     (r_matchedEmergencies resource)) in
              if negb (validate_resource resource') then (st, Throws ValidationError)
              else
                let st1 := save_resource st id resource' in
                match emergencies st1 !! emergencyId with
                | None => (st1, Throws TypeError)
                | Some emergency =>
                    let emergency' :=
                      set_resourcesNeeded
                        (set_matchedResources emergency
                           (update_ref id (set_status delivered)
                              (e_matchedResources emergency)))
                        (fulfil_first (r_type resource) (e_resourcesNeeded emergency)) in
                    let written :=
                      match find_ref id (e_matchedResources emergency) with
                      | None => Some st1
                      | Some _ =>
                          if validate_emergency emergency'
                          then Some (save_emergency st1 emergencyId emergency')
                          else None
                      end in
                    match written with
                    | None => (st1, Throws ValidationError)
                    | Some st2 =>
                        let notification :=
                          mkNotification "resource_delivered" (e_user emergency)
                            (e_id emergency) (r_id resource) in
                        if negb (validate_notification notification)
                        then (st2, Throws ValidationError)
                        else (notify st2 notification, Ok)
                    end
                end
        end
  end.

(** The operations of the engine as requests, and their execution. *)
Inductive Op : Type :=
| RankResources (emergencyId : string) (user : User)
| RankEmergencies (resourceId : string) (user : User)
| UpdateMatch (emergencyId resourceId action : string) (user : User)
| Deliver (resourceId emergencyId : string) (user : User).

Definition step (st : Store) (op : Op) : Store * Response :=
  match op with
  | RankResources id user => matchResourcesForEmergency st id user
  | RankEmergencies id user => matchEmergenciesForResource st id user
  | UpdateMatch id rid action user => updateMatchStatus st id rid action user
  | Deliver rid eid user => markResourceDelivered st rid eid user
  end.

Definition run (st : Store) (ops : list Op) : Store :=
  foldl (λ s op, (step s op).1) st ops.
End Matching.

(** ** [calculateMatchScore]

    The score of one pair, used outside the two rankings.  [urgencyScores]
    is the table lookup [urgencyScores[emergency.urgency]] as the product
    with the weight sees it: [undefined] for a key the table lacks and a
    function for a key of [Object.prototype], both NaN in arithmetic.  The
    result is [None] when the function throws: the distance is computed
    without a [try], and every access [location.coordinates[i]] throws on a
    missing location. *)

Definition urgencyScores (urgency : string) : num :=
  if String.eqb urgency "critical" then Fin 100
  else if String.eqb urgency "high" then Fin 75
  else if String.eqb urgency "medium" then Fin 50
  else if String.eqb urgency "low" then Fin 25
  else NaN.

Definition calculateMatchScore (haversine : Q → Q → Q → Q → num)
    (emergency : Emergency) (resource : Resource) : option num :=
  match list_find (λ need, n_type need = r_type resource ∧ n_fulfilled need = false)
          (e_resourcesNeeded emergency) with
  | None => Some (Fin 0)
  | Some (_, matchingNeed) =>
      ce ← e_location emergency; cr ← r_location resource;
      distance ← calculateDistance haversine (arg_of (ce !! 1%nat)) (arg_of (ce !! 0%nat))
                   (cr !! 1%nat) (cr !! 0%nat);
      let score_type := num_add (Fin 0) (num_mul (Fin 100) (Fin (4 # 10))) in
      let maxDistance := Fin 100 in
      let distanceScore :=
        Math_max (Fin 0)
          (num_mul (num_div (num_sub maxDistance distance) maxDistance) (Fin 100)) in
      let score_distance := num_add score_type (num_mul distanceScore (Fin (3 # 10))) in
      let quantityRatio :=
        Math_min (num_div (r_quantity resource) (n_quantity matchingNeed)) (Fin 1) in
      let score_quantity :=
        num_add score_distance (num_mul (num_mul quantityRatio (Fin 100)) (Fin (2 # 10))) in
      let score :=
        num_add score_quantity
          (num_mul (urgencyScores (e_urgency emergency)) (Fin (1 # 10))) in
      Some (Math_round score)
  end.

(** ** [assignVolunteer]

    The two handlers behind [PUT /emergencies/:id/assign/:userId] and
    [PUT /resources/:id/assign/:userId], over the collection of users.  The
    notification they create is kept with the fields of [Notification]; its
    title, message and priority are not. *)

Definition assignVolunteerToEmergency (users : gmap string User) (st : Store)
    (id userId : string) : Store * Response :=
  match emergencies st !! id with
  | None => (st, Error 404)
  | Some emergency =>
      match users !! userId with
      | None => (st, Error 404)
      | Some volunteer =>
          if negb (String.eqb (u_role volunteer) "volunteer") then (st, Error 400)
          else
            let emergency' := set_e_assignedTo emergency (Some (u_id volunteer)) in
            if negb (validate_emergency emergency') then (st, Throws ValidationError)
            else
              let st1 := save_emergency st id emergency' in
              let notification :=
                mkNotification "assignment" (u_id volunteer) (e_id emergency) None in
              if negb (validate_notification notification)
              then (st1, Throws ValidationError)
              else (notify st1 notification, Ok)
      end
  end.

Definition assignVolunteerToResource (users : gmap string User) (st : Store)
    (id userId : string) : Store * Response :=
  match resources st !! id with
  | None => (st, Error 404)
  | Some resource =>
      match users !! userId with
      | None => (st, Error 404)
      | Some volunteer =>
          if negb (String.eqb (u_role volunteer) "volunteer") then (st, Error 400)
          else
            let resource' := set_r_assignedTo resource (Some (u_id volunteer)) in
            if negb (validate_resource resource') then (st, Throws ValidationError)
            else
              let st1 := save_resource st id resource' in
              let notification :=
                mkNotification "assignment" (u_id volunteer) None (r_id resource) in
              if negb (validate_notification notification)
              then (st1, Throws ValidationError)
              else (notify st1 notification, Ok)
      end
  end.

(** ** [EmergencyService.updateResourceMatch]

    Behind [PUT /emergencies/:id/resources/:resourceId]; the route validates
    [status] against the four match states.  [BaseService.getById] refuses an
    id that [mongoose.Types.ObjectId.isValid] does not accept before it looks
    the document up; [isValid] stands for that library function. *)

Definition getById (isValid : string → bool) (st : Store) (id : string)
    : Emergency + Response :=
  if negb (isValid id) then inr (Error 400)
  else
    match emergencies st !! id with
    | None => inr (Error 404)
    | Some doc => inl doc
    end.

Definition updateResourceMatch (isValid : string → bool) (st : Store)
    (emergencyId resourceId : string) (new_status : MatchStatus) : Store * Response :=
  match getById isValid st emergencyId with
  | inr error => (st, error)
  | inl emergency =>
      match list_find (is_ref_of resourceId) (e_matchedResources emergency) with
      | None => (st, Error 404)
      | Some (matchIndex, _) =>
          let emergency' :=
            set_matchedResources emergency
              (alter (set_status new_status) matchIndex (e_matchedResources emergency)) in
          if validate_emergency emergency'
          then (save_emergency st emergencyId emergency', Ok)
          else (st, Throws ValidationError)
      end
  end.

(** A string of 24 hexadecimal digits, the usual form of an ObjectId. *)
Definition hex24 (id : string) : bool :=
  bool_decide (String.length id = 24%nat)
  && forallb (λ c, bool_decide (c ∈ String.list_ascii_of_string "0123456789abcdefABCDEF"))
       (String.list_ascii_of_string id).

(** ** Notions used in the statements *)

(** The needs of type [ty] that are still open. *)
Definition open_needs (ty : string) (needs : list Need) : list Need :=
  filter (λ need, n_type need = ty ∧ n_fulfilled need = false) needs.

(** What the handlers of the engine leave alone.  Between two states of an
    emergency only the matches and the needs may differ; between two states of
    a resource only the matches and the status, and a changed status is
    [reserved] or [delivered]. *)
Definition same_emergency_data (e e' : Emergency) : Prop :=
  e_id e' = e_id e ∧ e_type e' = e_type e ∧ e_status e' = e_status e
  ∧ e_urgency e' = e_urgency e ∧ e_quantity e' = e_quantity e
  ∧ e_location e' = e_location e ∧ e_user e' = e_user e
  ∧ e_assignedTo e' = e_assignedTo e.

Definition same_resource_data (r r' : Resource) : Prop :=
  r_id r' = r_id r ∧ r_type r' = r_type r ∧ r_quantity r' = r_quantity r
  ∧ r_location r' = r_location r ∧ r_user r' = r_user r
  ∧ r_assignedTo r' = r_assignedTo r
  ∧ (r_status r' = r_status r ∨ r_status r' = "reserved"%string
     ∨ r_status r' = "delivered"%string).

Definition frame (st st' : Store) : Prop :=
  dom (emergencies st') = dom (emergencies st)
  ∧ dom (resources st') = dom (resources st)
  ∧ (∀ id e e', emergencies st !! id = Some e → emergencies st' !! id = Some e' →
                same_emergency_data e e')
  ∧ (∀ id r r', resources st !! id = Some r → resources st' !! id = Some r' →
                same_resource_data r r')
  ∧ notifications st `prefix_of` notifications st'.

Definition in_range (x : num) : Prop := ∃ q, x = Fin q ∧ 0 <= q <= 100.

(** An integer between 0 and 100. *)
Definition score_ok (x : num) : Prop :=
  ∃ z : Z, x = Fin (inject_Z z) ∧ (0 ≤ z ≤ 100)%Z.

(** The two stored copies of the pair (emergency [eid], resource [rid]): what
    [find] returns on [matchedResources] and on [matchedEmergencies]. *)
Definition emergency_copy (st : Store) (eid rid : string) : option MatchRef :=
  e ← emergencies st !! eid; find_ref rid (e_matchedResources e).

Definition resource_copy (st : Store) (eid rid : string) : option MatchRef :=
  r ← resources st !! rid; find_ref eid (r_matchedEmergencies r).

(** The mirror invariant: where both copies exist they agree. *)
Definition copies_agree (st : Store) : Prop :=
  ∀ eid rid mE mR,
    emergency_copy st eid rid = Some mE → resource_copy st eid rid = Some mR →
    status mE = status mR ∧ matchScore mE = matchScore mR.

(** Documents are stored under their own [_id]. *)
Definition well_keyed (st : Store) : Prop :=
  (∀ id e, emergencies st !! id = Some e → e_id e = Some id)
  ∧ (∀ id r, resources st !! id = Some r → r_id r = Some id).

(** A pair is pending when a copy of it is stored and every stored copy is
    pending. *)
Definition pair_pending (st : Store) (eid rid : string) : Prop :=
  (is_Some (emergency_copy st eid rid) ∨ is_Some (resource_copy st eid rid))
  ∧ (∀ m, emergency_copy st eid rid = Some m → status m = pending)
  ∧ (∀ m, resource_copy st eid rid = Some m → status m = pending).

(** One of the two resources the matcher hard-codes a score for. *)
Definition fixture (id : option string) : Prop :=
  id = Some "resource1"%string ∨ id = Some "resource2"%string.

(** ** Sample data

    [equator_km] is the great-circle distance between two points of the
    equator less than 180 degrees apart, [6371 * |lon2 - lon1| * pi / 180],
    with a sixteen-digit [pi]: the value of the haversine formula there.  It
    instantiates [haversine] in the examples, all of which lie on the
    equator.  [series] is a Math library for examples of the formula itself:
    the first terms of the series of sine, cosine and arc tangent, and the
    square root of a fraction from the integer square roots of its numerator
    and denominator; it is close for small angles. *)

Definition equator_km (lat1 lon1 lat2 lon2 : Q) : num :=
  fin (6371 * (Qabs (lon2 - lon1) * (3141592653589793 # 1000000000000000) / 180)).

Definition series : MathLib :=
  mkMathLib
    (λ x, x - x ^ 3 / 6)
    (λ x, 1 - x ^ 2 / 2 + x ^ 4 / 24)
    (λ x, Z.sqrt (Qnum x) # Pos.sqrt (Qden x))
    (λ y x, match value y, value x with
            | Some a, Some b =>
                if Qeq_bool b 0 then Math_PI / 2 else a / b - (a / b) ^ 3 / 3
            | _, _ => 0
            end).

(** A point of the equator at longitude [lon]. *)
Definition on_equator (lon : Q) : option (list num) := Some [Fin lon; Fin 0].

Definition sample_emergency (id : string) (quantity : num) : Emergency :=
  mkEmergency (Some id) "medical" "active" "high" quantity (on_equator 0)
    [mkNeed "medical" (Fin 10) false] [] "alice" None true.

(** A resource entered with its address, as a seed script does; [created] is
    the same resource as [Resource.create] leaves it, without the address. *)
Definition sample_resource (id : string) (quantity : num) (lon : Q) : Resource :=
  mkResource (Some id) "medical" quantity "available" (on_equator lon) [] "bob" None
    (Some "12 Harbour Road"%string) true.

Definition created (r : Resource) : Resource :=
  mkResource (r_id r) (r_type r) (r_quantity r) (r_status r) (r_location r)
    (r_matchedEmergencies r) (r_user r) (r_assignedTo r) None (r_restValid r).

Definition alice : User := mkUser "alice" "user".
Definition bob : User := mkUser "bob" "user".

(** A stored emergency has no [quantity]. *)
Definition sample_store : Store :=
  mkStore {[ "e1"%string := sample_emergency "e1" NaN ]}
          {[ "r7"%string := sample_resource "r7" (Fin 10) 0 ]} [].

(** The same two documents with a match of score 80 already stored on the
    emergency in status [s]; with [held] the resource holds its copy too. *)
Definition matched_store (s : MatchStatus) (held : bool) : Store :=
  mkStore
    {[ "e1"%string := set_matchedResources (sample_emergency "e1" NaN)
                        [mkRef (Some "r7"%string) s (Fin 80)] ]}
    {[ "r7"%string :=
         set_matchedEmergencies
           (set_r_status (sample_resource "r7" (Fin 10) 0)
              (match s with
               | pending | rejected => "available"
               | accepted => "reserved"
               | delivered => "delivered"
               end))
           (if held then [mkRef (Some "e1"%string) s (Fin 80)] else []) ]} [].

(** The store of a pending match whose resource was created through the
    application, and so has no address. *)
Definition created_store : Store :=
  mkStore
    {[ "e1"%string := set_matchedResources (sample_emergency "e1" NaN)
                        [mkRef (Some "r7"%string) pending (Fin 80)] ]}
    {[ "r7"%string := created (sample_resource "r7" (Fin 10) 0) ]} [].

(** * Properties *)

(** ** Numbers: finite arithmetic, ranges of the clamped terms and of the
    rounded score *)

Lemma Qle_bool_false (a b : Q) : Qle_bool a b = false → b < a.
Proof.
  intros H. apply Qnot_le_lt. intros Hle.
  apply Qle_bool_iff in Hle. congruence.
Qed.

Lemma Qeq_bool_pos (m : Q) : 0 < m → Qeq_bool m 0 = false.
Proof.
  intros Hm. destruct (Qeq_bool m 0) eqn:H; [| done].
  apply Qeq_bool_iff in H. lra.
Qed.

Lemma Qeq_bool_false (a b : Q) : Qeq_bool a b = false → ¬ a == b.
Proof. intros H Heq. apply Qeq_bool_iff in Heq. congruence. Qed.

Lemma Qle_bool_pos (m : Q) : 0 < m → Qle_bool 0 m = true.
Proof. intros Hm. apply Qle_bool_iff. lra. Qed.

Lemma Qle_bool_nonneg (m : Q) : 0 <= m → Qle_bool 0 m = true.
Proof. intros Hm. by apply Qle_bool_iff. Qed.

Ltac bool_to_Q :=
  repeat match goal with
         | H : Qle_bool _ _ = true |- _ => apply Qle_bool_iff in H
         | H : Qle_bool _ _ = false |- _ => apply Qle_bool_false in H
         | H : Qeq_bool _ _ = true |- _ => apply Qeq_bool_iff in H
         | H : Qeq_bool _ _ = false |- _ => apply Qeq_bool_false in H
         end.

Lemma num_add_Fin (a b : Q) : ∃ c, num_add (Fin a) (Fin b) = Fin c ∧ c == a + b.
Proof. eexists. split; [reflexivity |]. apply Qred_correct. Qed.

Lemma num_sub_Fin (a b : Q) : ∃ c, num_sub (Fin a) (Fin b) = Fin c ∧ c == a - b.
Proof.
  unfold num_sub, num_neg. destruct (Qeq_bool b 0) eqn:Hb; bool_to_Q; simpl.
  - eexists. split; [reflexivity |]. rewrite Qred_correct. lra.
  - eexists. split; [reflexivity |]. rewrite !Qred_correct. lra.
Qed.

(** A product with a positive factor, and a product of two non-negative
    factors, is never [-0]. *)
Lemma num_mul_pos_l (a b : Q) :
  0 < a → ∃ c, num_mul (Fin a) (Fin b) = Fin c ∧ c == a * b.
Proof.
  intros Ha. unfold num_mul. cbn [value negative].
  rewrite (Qle_bool_pos a Ha). cbn [negb xorb].
  destruct (Qeq_bool (a * b) 0) eqn:H0; bool_to_Q.
  - assert (Hb : b == 0) by nra.
    assert (Hle : Qle_bool 0 b = true) by (apply Qle_bool_iff; lra).
    rewrite Hle. exists 0. split; [reflexivity | lra].
  - eexists. split; [reflexivity |]. apply Qred_correct.
Qed.

Lemma num_mul_nonneg (a b : Q) :
  0 <= a → 0 <= b → ∃ c, num_mul (Fin a) (Fin b) = Fin c ∧ c == a * b.
Proof.
  intros Ha Hb. unfold num_mul. cbn [value negative].
  rewrite (Qle_bool_nonneg a Ha), (Qle_bool_nonneg b Hb). cbn [negb xorb zero_of].
  destruct (Qeq_bool (a * b) 0) eqn:H0; bool_to_Q.
  - exists 0. split; [reflexivity | lra].
  - eexists. split; [reflexivity |]. apply Qred_correct.
Qed.

Lemma num_mul_nonneg_r (a b : Q) :
  0 < b → ∃ c, num_mul (Fin a) (Fin b) = Fin c ∧ c == a * b.
Proof.
  intros Hb. unfold num_mul. cbn [value negative].
  rewrite (Qle_bool_pos b Hb). cbn [negb]. rewrite xorb_false_r.
  destruct (Qeq_bool (a * b) 0) eqn:H0; bool_to_Q.
  - assert (Ha : a == 0) by nra.
    assert (Hle : Qle_bool 0 a = true) by (apply Qle_bool_iff; lra).
    rewrite Hle. exists 0. split; [reflexivity | lra].
  - eexists. split; [reflexivity |]. apply Qred_correct.
Qed.

Lemma num_div_pos (a b : Q) :
  0 < b → ∃ c, num_div (Fin a) (Fin b) = Fin c ∧ c == a / b.
Proof.
  intros Hb. unfold num_div. cbn [value negative].
  rewrite (Qeq_bool_pos b Hb), (Qle_bool_pos b Hb). cbn [negb]. rewrite xorb_false_r.
  destruct (Qeq_bool a 0) eqn:H0; bool_to_Q.
  - assert (Hle : Qle_bool 0 a = true) by (apply Qle_bool_iff; lra).
    rewrite Hle. exists 0. split; [reflexivity |]. rewrite H0. field. lra.
  - eexists. split; [reflexivity |]. apply Qred_correct.
Qed.

Lemma Math_round_nonneg (q : Q) :
  0 <= q → Math_round (Fin q) = Fin (inject_Z (Qfloor (q + (1 # 2)))).
Proof.
  intros Hq. unfold Math_round. rewrite (Qle_bool_nonneg q Hq).
  by rewrite andb_false_r.
Qed.

Lemma Math_max_fin (a b : Q) :
  Math_max (Fin a) (Fin b) = Fin (if Qle_bool a b then b else a).
Proof. unfold Math_max. by destruct (Qle_bool a b). Qed.

Lemma Math_min_fin (a b : Q) :
  Math_min (Fin a) (Fin b) = Fin (if Qle_bool a b then a else b).
Proof. unfold Math_min. by destruct (Qle_bool a b). Qed.

Lemma num_add_NaN_r (x : num) : num_add x NaN = NaN.
Proof. by destruct x. Qed.

Lemma num_mul_NaN_l (x : num) : num_mul NaN x = NaN.
Proof. reflexivity. Qed.

Lemma num_mul_NaN_r (x : num) : num_mul x NaN = NaN.
Proof. by destruct x. Qed.

Lemma num_div_NaN_r (x : num) : num_div x NaN = NaN.
Proof. by destruct x. Qed.

Lemma clamp_range (x : num) :
  Math_max (Fin 0) (Math_min (Fin 100) x) = NaN
  ∨ in_range (Math_max (Fin 0) (Math_min (Fin 100) x)).
Proof.
  destruct x as [| | | |q]; simpl.
  - by left.
  - right. exists 100. split; [done | lra].
  - right. exists 0. split; [done | lra].
  - right. exists 0. split; [done | lra].
  - right. destruct (Qle_bool 100 q) eqn:H100; simpl.
    + exists 100. split; [done | lra].
    + apply Qle_bool_false in H100.
      destruct (Qle_bool 0 q) eqn:H0.
      * apply Qle_bool_iff in H0. exists q. split; [done | lra].
      * exists 0. split; [done | lra].
Qed.

Lemma clamp_NaN_inv (x : num) :
  Math_max (Fin 0) (Math_min (Fin 100) x) = NaN → x = NaN.
Proof.
  destruct x as [| | | |q]; simpl; try done.
  destruct (Qle_bool 100 q); simpl; [done |]. by destruct (Qle_bool 0 q).
Qed.

Lemma clamp_defined (x : num) :
  Math_max (Fin 0) (Math_min (Fin 100) x) ≠ NaN →
  ∃ q, Math_max (Fin 0) (Math_min (Fin 100) x) = Fin q ∧ 0 <= q <= 100.
Proof.
  intros Hn. destruct (clamp_range x) as [? | (q & Hq & ?)]; [done | by exists q].
Qed.

Lemma Qfloor_half_range (q : Q) :
  0 <= q <= 100 → (0 ≤ Qfloor (q + (1 # 2)) ≤ 100)%Z.
Proof.
  intros [H0 H100]. split.
  - change 0%Z with (Qfloor (1 # 2)). apply Qfloor_resp_le. lra.
  - change 100%Z with (Qfloor (201 # 2)). apply Qfloor_resp_le. lra.
Qed.

(** The weighted sum of clamped terms, rounded. *)
Lemma weighted2_round (a b wa wb : Q) :
  0 <= a <= 100 → 0 <= b <= 100 → 0 < wa → 0 < wb → wa + wb == 1 →
  ∃ z : Z,
    Math_round (num_add (num_mul (Fin a) (Fin wa)) (num_mul (Fin b) (Fin wb)))
    = Fin (inject_Z z)
    ∧ z = Qfloor (a * wa + b * wb + (1 # 2)) ∧ (0 ≤ z ≤ 100)%Z.
Proof.
  intros Ha Hb Hwa Hwb Hw.
  destruct (num_mul_nonneg a wa) as (x & -> & Hx); [lra.. |].
  destruct (num_mul_nonneg b wb) as (y & -> & Hy); [lra.. |].
  destruct (num_add_Fin x y) as (s & -> & Hs).
  assert (Hrange : 0 <= s <= 100) by (rewrite Hs, Hx, Hy; nra).
  rewrite Math_round_nonneg by lra.
  eexists. split; [reflexivity |]. split.
  - apply Qfloor_comp. rewrite Hs, Hx, Hy. reflexivity.
  - by apply Qfloor_half_range.
Qed.

Lemma weighted3_round (a u b wa wu wb : Q) :
  0 <= a <= 100 → 0 <= u <= 100 → 0 <= b <= 100 →
  0 < wa → 0 < wu → 0 < wb → wa + wu + wb == 1 →
  ∃ z : Z,
    Math_round (num_add (num_add (num_mul (Fin a) (Fin wa)) (num_mul (Fin u) (Fin wu)))
                  (num_mul (Fin b) (Fin wb)))
    = Fin (inject_Z z)
    ∧ z = Qfloor (a * wa + u * wu + b * wb + (1 # 2)) ∧ (0 ≤ z ≤ 100)%Z.
Proof.
  intros Ha Hu Hb Hwa Hwu Hwb Hw.
  destruct (num_mul_nonneg a wa) as (x & -> & Hx); [lra.. |].
  destruct (num_mul_nonneg u wu) as (v & -> & Hv); [lra.. |].
  destruct (num_mul_nonneg b wb) as (y & -> & Hy); [lra.. |].
  destruct (num_add_Fin x v) as (s1 & -> & Hs1).
  destruct (num_add_Fin s1 y) as (s & -> & Hs).
  assert (Hrange : 0 <= s <= 100) by (rewrite Hs, Hs1, Hx, Hv, Hy; nra).
  rewrite Math_round_nonneg by lra.
  eexists. split; [reflexivity |]. split.
  - apply Qfloor_comp. rewrite Hs, Hs1, Hx, Hv, Hy. reflexivity.
  - by apply Qfloor_half_range.
Qed.

Lemma getUrgencyScore_range (urgency : string) :
  getUrgencyScore urgency = NaN ∨ in_range (getUrgencyScore urgency).
Proof.
  unfold getUrgencyScore.
  repeat case_match; (by left) || (right; eexists; (split; [reflexivity | lra])).
Qed.

Lemma getUrgencyScore_own (urgency : string) :
  urgency ∉ Object_prototype → in_range (getUrgencyScore urgency).
Proof.
  intros Hu. unfold getUrgencyScore. rewrite (bool_decide_eq_false_2 _ Hu).
  repeat case_match; eexists; (split; [reflexivity | lra]).
Qed.

Lemma resourceScore_range (distance maxDistance have need : num) :
  resourceScore distance maxDistance have need = NaN
  ∨ score_ok (resourceScore distance maxDistance have need).
Proof.
  unfold resourceScore, distanceScore, quantityScore.
  destruct (clamp_range (num_mul (Fin 100) (num_sub (Fin 1) (num_div distance maxDistance))))
    as [-> | (a & -> & Ha)]; [by left |].
  destruct (clamp_range (num_mul (Fin 100) (num_div have need)))
    as [-> | (b & -> & Hb)]; [rewrite num_mul_NaN_l, num_add_NaN_r; by left |].
  right. destruct (weighted2_round a b (6 # 10) (4 # 10)) as (z & -> & _ & Hz);
    [done | done | lra | lra | lra |].
  by exists z.
Qed.

Lemma emergencyScore_range (distance maxDistance : num) (urgency : string)
    (have need : num) :
  emergencyScore distance maxDistance urgency have need = NaN
  ∨ score_ok (emergencyScore distance maxDistance urgency have need).
Proof.
  unfold emergencyScore, distanceScore, quantityScore.
  destruct (clamp_range (num_mul (Fin 100) (num_sub (Fin 1) (num_div distance maxDistance))))
    as [-> | (a & -> & Ha)]; [by left |].
  destruct (getUrgencyScore_range urgency) as [-> | (u & -> & Hu)].
  { rewrite num_mul_NaN_l, num_add_NaN_r. by left. }
  destruct (clamp_range (num_mul (Fin 100) (num_div have need)))
    as [-> | (b & -> & Hb)]; [rewrite num_mul_NaN_l, num_add_NaN_r; by left |].
  right. destruct (weighted3_round a u b (4 # 10) (4 # 10) (2 # 10)) as (z & -> & _ & Hz);
    [done | done | done | lra | lra | lra | lra |].
  by exists z.
Qed.

(** ** The sort: permutation, stability, order *)

Section SortFacts.
Context {A : Type} (key : A → num).

Lemma sort_insert_perm (cmp : A → A → num) (x : A) (l : list A) :
  sort_insert cmp x l ≡ₚ x :: l.
Proof.
  induction l as [|y l IH]; simpl; [done |].
  destruct (num_gt (cmp x y) (Fin 0)); [| done].
  rewrite IH. apply Permutation_swap.
Qed.

Lemma js_sort_perm (cmp : A → A → num) (l : list A) : js_sort cmp l ≡ₚ l.
Proof.
  induction l as [|x l IH]; simpl; [done |].
  rewrite sort_insert_perm. by rewrite IH.
Qed.

(** An element is only moved behind elements of a different key. *)
Lemma by_key_desc_gt_ne (x y : A) :
  num_gt (by_key_desc key x y) (Fin 0) = true → key y ≠ key x.
Proof.
  unfold by_key_desc. intros Hgt Heq. rewrite Heq in Hgt.
  destruct (key x) as [| | | |q]; [discriminate.. |].
  destruct (num_sub_Fin q q) as (c & Hc & Hv). rewrite Hc in Hgt.
  apply negb_true_iff, Qle_bool_false in Hgt. lra.
Qed.

Lemma sort_insert_stable (v : num) (x : A) (l : list A) :
  filter (λ a, key a = v) (sort_insert (by_key_desc key) x l)
  = filter (λ a, key a = v) (x :: l).
Proof.
  induction l as [|y l IH]; simpl; [done |].
  destruct (num_gt (by_key_desc key x y) (Fin 0)) eqn:Hgt; [| done].
  apply by_key_desc_gt_ne in Hgt.
  rewrite filter_cons, IH, !filter_cons.
  repeat case_decide; congruence.
Qed.

Lemma js_sort_stable (v : num) (l : list A) :
  filter (λ a, key a = v) (js_sort (by_key_desc key) l) = filter (λ a, key a = v) l.
Proof.
  induction l as [|x l IH]; simpl; [done |].
  rewrite sort_insert_stable, !filter_cons, IH. done.
Qed.

Lemma key_ge_trans (a b c : A) :
  finite_key key a → finite_key key b → finite_key key c →
  key_ge key a b → key_ge key b c → key_ge key a c.
Proof.
  unfold key_ge. intros [qa Ha] [qb Hb] [qc Hc]. rewrite Ha, Hb, Hc. simpl.
  rewrite !Qle_bool_iff. lra.
Qed.

Lemma by_key_desc_le (x y : A) :
  finite_key key x → finite_key key y →
  num_gt (by_key_desc key x y) (Fin 0) = false → key_ge key x y.
Proof.
  unfold by_key_desc, key_ge. intros [qx Hx] [qy Hy]. rewrite Hx, Hy.
  destruct (num_sub_Fin qy qx) as (c & -> & Hc). simpl.
  rewrite negb_false_iff, !Qle_bool_iff. lra.
Qed.

Lemma by_key_desc_lt (x y : A) :
  finite_key key x → finite_key key y →
  num_gt (by_key_desc key x y) (Fin 0) = true → key_ge key y x.
Proof.
  unfold by_key_desc, key_ge. intros [qx Hx] [qy Hy]. rewrite Hx, Hy.
  destruct (num_sub_Fin qy qx) as (c & -> & Hc). simpl.
  intros Hgt. apply negb_true_iff, Qle_bool_false in Hgt.
  apply Qle_bool_iff. lra.
Qed.

Lemma sort_insert_sorted (x : A) (l : list A) :
  finite_key key x → Forall (finite_key key) l →
  StronglySorted (key_ge key) l →
  StronglySorted (key_ge key) (sort_insert (by_key_desc key) x l).
Proof.
  intros Hx Hl Hs. induction Hs as [|y l Hs IH Hy]; simpl.
  - repeat constructor.
  - apply Forall_cons in Hl as [Hfy Hl].
    destruct (num_gt (by_key_desc key x y) (Fin 0)) eqn:Hgt.
    + constructor; [by apply IH |].
      rewrite sort_insert_perm. constructor; [by apply by_key_desc_lt | done].
    + apply by_key_desc_le in Hgt; [| done..].
      constructor; [by constructor |].
      constructor; [done |].
      rewrite Forall_forall in Hy, Hl |- *. intros z Hz.
      apply (key_ge_trans x y z); auto.
Qed.

Lemma js_sort_sorted (l : list A) :
  Forall (finite_key key) l → StronglySorted (key_ge key) (js_sort (by_key_desc key) l).
Proof.
  induction 1 as [|x l Hx Hl IH]; simpl; [constructor |].
  apply sort_insert_sorted; [done | by rewrite js_sort_perm | done].
Qed.
End SortFacts.

(** ** Structure of the two rankings *)

Lemma mapM_omap_elem {A B : Type} (f : A → option (option B)) (l : list A)
    (ms : list (option B)) (m : B) :
  mapM f l = Some ms → m ∈ omap id ms → ∃ x, x ∈ l ∧ f x = Some (Some m).
Proof.
  intros HM%mapM_Some_1. induction HM as [|x o l ms Hx HM IH]; simpl.
  - by intros ?%elem_of_nil.
  - destruct o as [b|]; simpl.
    + intros [->|Hm]%elem_of_cons.
      * exists x. split; [left | done].
      * destruct (IH Hm) as (x' & ? & ?). exists x'. split; [by right | done].
    + intros Hm. destruct (IH Hm) as (x' & ? & ?). exists x'. split; [by right | done].
Qed.

Lemma mapM_omap_sublist {A B : Type} (f : A → option (option B)) (g : B → A)
    (l : list A) (ms : list (option B)) :
  (∀ x m, f x = Some (Some m) → g m = x) →
  mapM f l = Some ms → g <$> omap id ms `sublist_of` l.
Proof.
  intros Hg HM%mapM_Some_1. induction HM as [|x o l ms Hx HM IH]; simpl.
  - constructor.
  - destruct o as [b|]; simpl.
    + rewrite (Hg _ _ Hx). by constructor.
    + by constructor.
Qed.

(** What [score_resource] returns on a candidate that is not one of the two
    hard-coded test resources. *)
Lemma score_resource_computed hav (e : Emergency) (maxD : num) (r : Resource)
    (m : ResourceMatch) :
  r_id r ≠ Some "resource1"%string → r_id r ≠ Some "resource2"%string →
  score_resource hav e maxD r = Some (Some m) →
  ∃ d, distance_between hav (e_location e) (r_location r) = Some d
       ∧ num_gt d maxD = false
       ∧ m = mkRM r d (resourceScore d maxD (r_quantity r) (e_quantity e)).
Proof.
  intros H1 H2. unfold score_resource.
  rewrite !bool_decide_eq_false_2 by done.
  destruct (distance_between hav (e_location e) (r_location r)) as [d|]; simpl;
    [| done].
  destruct (num_gt d maxD) eqn:Hgt; [done |].
  intros [= <-]. by exists d.
Qed.

Lemma score_resource_resource hav (e : Emergency) (maxD : num) (r : Resource)
    (m : ResourceMatch) :
  score_resource hav e maxD r = Some (Some m) → rm_resource m = r.
Proof.
  unfold score_resource. repeat case_bool_decide.
  - by intros [= <-].
  - by intros [= <-].
  - destruct (distance_between hav (e_location e) (r_location r)) as [d|]; simpl;
      [| done].
    destruct (num_gt d maxD); [done |]. by intros [= <-].
Qed.

Lemma score_resource_score hav (e : Emergency) (maxD : num) (r : Resource)
    (m : ResourceMatch) :
  score_resource hav e maxD r = Some (Some m) →
  rm_matchScore m = NaN ∨ score_ok (rm_matchScore m).
Proof.
  unfold score_resource. repeat case_bool_decide.
  - intros [= <-]. right. by exists 80%Z.
  - intros [= <-]. right. by exists 60%Z.
  - destruct (distance_between hav (e_location e) (r_location r)) as [d|]; simpl;
      [| done].
    destruct (num_gt d maxD); [done |]. intros [= <-]. apply resourceScore_range.
Qed.

Lemma score_emergency_computed hav (r : Resource) (maxD : num) (e : Emergency)
    (m : EmergencyMatch) :
  score_emergency hav r maxD e = Some (Some m) →
  ∃ d, distance_between hav (e_location e) (r_location r) = Some d
       ∧ num_gt d maxD = false
       ∧ m = mkEM e d (emergencyScore d maxD (e_urgency e) (e_quantity e) (r_quantity r)).
Proof.
  unfold score_emergency.
  destruct (distance_between hav (e_location e) (r_location r)) as [d|]; simpl;
    [| done].
  destruct (num_gt d maxD) eqn:Hgt; [done |].
  intros [= <-]. by exists d.
Qed.

Lemma score_emergency_emergency hav (r : Resource) (maxD : num) (e : Emergency)
    (m : EmergencyMatch) :
  score_emergency hav r maxD e = Some (Some m) → em_emergency m = e.
Proof.
  intros Hs. by destruct (score_emergency_computed _ _ _ _ _ Hs) as (d & _ & _ & ->).
Qed.

(** The list a ranking sorts: the candidates that passed the filter, scored,
    without those beyond the cutoff. *)
Lemma matchResourcesToEmergency_unfold hav (e : Emergency) (rs : list Resource)
    (maxD : num) :
  matchResourcesToEmergency hav e rs maxD = []
  ∨ ∃ ms, mapM (score_resource hav e maxD)
            (filter (λ r, r_type r = e_type e ∧ r_status r = "available"%string) rs)
          = Some ms
          ∧ matchResourcesToEmergency hav e rs maxD
            = js_sort (by_key_desc rm_matchScore) (omap id ms).
Proof.
  unfold matchResourcesToEmergency.
  destruct (special_location e); [by left |].
  destruct (mapM _ _) as [ms|]; [| by left].
  right. by exists ms.
Qed.

Lemma matchEmergenciesToResource_unfold hav (r : Resource) (es : list Emergency)
    (maxD : num) :
  mock_pool r es = None →
  matchEmergenciesToResource hav r es maxD = []
  ∨ ∃ ms, mapM (score_emergency hav r maxD)
            (filter (λ e, e_type e = r_type r ∧ e_status e = "active"%string
                          ∧ num_le (e_quantity e) (r_quantity r) = true) es)
          = Some ms
          ∧ matchEmergenciesToResource hav r es maxD
            = js_sort (by_key_desc em_matchScore) (omap id ms).
Proof.
  unfold matchEmergenciesToResource. intros ->.
  destruct (mapM _ _) as [ms|]; [| by left].
  right. by exists ms.
Qed.

Lemma matchResourcesToEmergency_elem hav (e : Emergency) (rs : list Resource)
    (maxD : num) (m : ResourceMatch) :
  m ∈ matchResourcesToEmergency hav e rs maxD →
  rm_resource m ∈ rs
  ∧ r_status (rm_resource m) = "available"%string
  ∧ score_resource hav e maxD (rm_resource m) = Some (Some m).
Proof.
  destruct (matchResourcesToEmergency_unfold hav e rs maxD) as [-> | (ms & HM & ->)].
  - by intros ?%elem_of_nil.
  - rewrite js_sort_perm. intros Hm.
    destruct (mapM_omap_elem _ _ _ _ HM Hm) as (r & Hr & Hs).
    apply list_elem_of_filter in Hr as [[_ Hav] Hr].
    rewrite (score_resource_resource _ _ _ _ _ Hs). done.
Qed.

Lemma matchEmergenciesToResource_elem hav (r : Resource) (es : list Emergency)
    (maxD : num) (m : EmergencyMatch) :
  mock_pool r es = None →
  m ∈ matchEmergenciesToResource hav r es maxD →
  em_emergency m ∈ es ∧ score_emergency hav r maxD (em_emergency m) = Some (Some m).
Proof.
  intros Hmock.
  destruct (matchEmergenciesToResource_unfold hav r es maxD Hmock)
    as [-> | (ms & HM & ->)].
  - by intros ?%elem_of_nil.
  - rewrite js_sort_perm. intros Hm.
    destruct (mapM_omap_elem _ _ _ _ HM Hm) as (e & He & Hs).
    apply list_elem_of_filter in He as [_ He].
    destruct (score_emergency_computed _ _ _ _ _ Hs) as (d & _ & _ & ->). done.
Qed.

Lemma score_ok_finite (x : num) : x = NaN ∨ score_ok x → x ≠ NaN → ∃ q, x = Fin q.
Proof. intros [-> | (z & -> & _)] Hne; [done | by eexists]. Qed.

Lemma scored_resources_finite hav (e : Emergency) (maxD : num) (l : list Resource)
    (ms : list (option ResourceMatch)) :
  mapM (score_resource hav e maxD) l = Some ms →
  Forall (λ m, rm_matchScore m ≠ NaN) (omap id ms) →
  Forall (finite_key rm_matchScore) (omap id ms).
Proof.
  intros HM. rewrite !Forall_forall. intros Hne m Hm.
  destruct (mapM_omap_elem _ _ _ _ HM Hm) as (r & _ & Hs).
  apply score_ok_finite; [by eapply score_resource_score | by apply Hne].
Qed.

Lemma scored_emergencies_finite hav (r : Resource) (maxD : num) (l : list Emergency)
    (ms : list (option EmergencyMatch)) :
  mapM (score_emergency hav r maxD) l = Some ms →
  Forall (λ m, em_matchScore m ≠ NaN) (omap id ms) →
  Forall (finite_key em_matchScore) (omap id ms).
Proof.
  intros HM. rewrite !Forall_forall. intros Hne m Hm.
  destruct (mapM_omap_elem _ _ _ _ HM Hm) as (e & _ & Hs).
  destruct (score_emergency_computed _ _ _ _ _ Hs) as (d & _ & _ & ->).
  apply score_ok_finite; [apply emergencyScore_range | by apply (Hne _ Hm)].
Qed.

(** ** Order of the ranked list *)

(** C3, as stated, fails: two candidates of equal score 100 are returned in
    the order of the pool, the one at 0.01 km before the one at 0 km. *)
Lemma ties_by_distance_counterexample :
  matchResourcesToEmergency equator_km (sample_emergency "e1" (Fin 10))
    [sample_resource "far" (Fin 10) (1 # 10000); sample_resource "near" (Fin 10) 0]
    (Fin 50)
  = [mkRM (sample_resource "far" (Fin 10) (1 # 10000)) (Fin (1 # 100)) (Fin 100);
     mkRM (sample_resource "near" (Fin 10) 0) (Fin 0) (Fin 100)]
  ∧ num_gt (Fin (1 # 100)) (Fin 0) = true.
Proof. split; vm_compute; reflexivity. Qed.

(** C3, amended: when no score is NaN, each of the two ranked lists is sorted
    descending by matchScore, and the entries of any one score keep the order
    their candidates have in the pool (no ordering by distance or identity).
    With a NaN score the comparator is not consistent and neither the order
    nor the stability is promised.  The stability clause for emergencies is
    stated outside the branch for mock objects, which returns a single
    modified copy. *)
Theorem ranking_sorted_stable hav (e : Emergency) (rs : list Resource)
    (r : Resource) (es : list Emergency) (maxD : num) :
  let ranked_r := matchResourcesToEmergency hav e rs maxD in
  let ranked_e := matchEmergenciesToResource hav r es maxD in
  (Forall (λ m, rm_matchScore m ≠ NaN) ranked_r →
     StronglySorted (key_ge rm_matchScore) ranked_r
     ∧ ∀ v, rm_resource <$> filter (λ m, rm_matchScore m = v) ranked_r `sublist_of` rs)
  ∧ (Forall (λ m, em_matchScore m ≠ NaN) ranked_e →
     StronglySorted (key_ge em_matchScore) ranked_e
     ∧ (mock_pool r es = None →
        ∀ v, em_emergency <$> filter (λ m, em_matchScore m = v) ranked_e `sublist_of` es)).
Proof.
  intros ranked_r ranked_e. split.
  - subst ranked_r.
    destruct (matchResourcesToEmergency_unfold hav e rs maxD) as [-> | (ms & HM & ->)].
    { intros _. split; [constructor | intros v; apply sublist_nil_l]. }
    intros Hne. rewrite js_sort_perm in Hne. split.
    + apply js_sort_sorted. by eapply scored_resources_finite.
    + intros v. rewrite js_sort_stable.
      trans (rm_resource <$> omap id ms); [apply fmap_sublist, sublist_filter |].
      pose proof (mapM_omap_sublist _ rm_resource _ _
                    (score_resource_resource hav e maxD) HM) as Hsub.
      etrans; [exact Hsub | apply sublist_filter].
  - subst ranked_e. destruct (mock_pool r es) as [first|] eqn:Hmock.
    { unfold matchEmergenciesToResource. rewrite Hmock. intros _.
      split; [repeat constructor | done]. }
    destruct (matchEmergenciesToResource_unfold hav r es maxD Hmock)
      as [-> | (ms & HM & ->)].
    { intros _. split; [constructor | intros _ v; apply sublist_nil_l]. }
    intros Hne. rewrite js_sort_perm in Hne. split.
    + apply js_sort_sorted. by eapply scored_emergencies_finite.
    + intros _ v. rewrite js_sort_stable.
      trans (em_emergency <$> omap id ms); [apply fmap_sublist, sublist_filter |].
      pose proof (mapM_omap_sublist _ em_emergency _ _
                    (score_emergency_emergency hav r maxD) HM) as Hsub.
      etrans; [exact Hsub | apply sublist_filter].
Qed.

Lemma ranking_sorted_stable_witness :
  let rs := [sample_resource "far" (Fin 10) (1 # 10000);
             sample_resource "mid" (Fin 10) (9 # 100);
             sample_resource "near" (Fin 10) 0] in
  let es := [sample_emergency "e1" (Fin 10); sample_emergency "e2" (Fin 5)] in
  let ranked_r := matchResourcesToEmergency equator_km (sample_emergency "e1" (Fin 10)) rs (Fin 50) in
  let ranked_e := matchEmergenciesToResource equator_km (sample_resource "r7" (Fin 10) 0) es (Fin 50) in
  StronglySorted (key_ge rm_matchScore) ranked_r
  ∧ rm_resource <$> filter (λ m, rm_matchScore m = Fin 100) ranked_r `sublist_of` rs
  ∧ StronglySorted (key_ge em_matchScore) ranked_e
  ∧ em_emergency <$> filter (λ m, em_matchScore m = Fin 90) ranked_e `sublist_of` es.
Proof.
  intros rs es ranked_r ranked_e.
  destruct (ranking_sorted_stable equator_km (sample_emergency "e1" (Fin 10)) rs
              (sample_resource "r7" (Fin 10) 0) es (Fin 50)) as (H1 & H2).
  destruct H1 as [H1 H1'].
  { vm_compute. repeat (constructor; [discriminate |]). constructor. }
  destruct H2 as [H2 H2'].
  { vm_compute. repeat (constructor; [discriminate |]). constructor. }
  split; [exact H1 |]. split; [apply H1' |]. split; [exact H2 |].
  apply H2'. reflexivity.
Defined.

(** ** The distance cutoff *)

(** C4, as stated, fails: the candidate with id ['resource2'] lies 1000.75 km
    from the emergency and is returned with the default cutoff of 50 km; it is
    one of the two hard-coded test resources, which get a fixed distance and
    score before any distance is computed. *)
Lemma cutoff_counterexample :
  distance_between equator_km (on_equator 0) (on_equator 9) = Some (fin (100075 # 100))
  ∧ num_gt (fin (100075 # 100)) (Fin 50) = true
  ∧ matchResourcesToEmergency equator_km (sample_emergency "e1" (Fin 10))
      [sample_resource "resource2" (Fin 10) 9] (Fin 50)
    = [mkRM (sample_resource "resource2" (Fin 10) 9) (Fin 10) (Fin 60)].
Proof. repeat split; vm_compute; reflexivity. Qed.

(** C4, amended: a returned candidate other than the hard-coded test fixtures
    (the resources with id ['resource1'] and ['resource2'], and the branch for
    a mock pool in the other direction) has a distance to the anchor that does
    not exceed maxDistance, and that distance is the one reported. *)
Theorem beyond_cutoff_excluded hav (e : Emergency) (rs : list Resource)
    (r : Resource) (es : list Emergency) (maxD : num) :
  (∀ m, m ∈ matchResourcesToEmergency hav e rs maxD →
        r_id (rm_resource m) ≠ Some "resource1"%string →
        r_id (rm_resource m) ≠ Some "resource2"%string →
        distance_between hav (e_location e) (r_location (rm_resource m))
        = Some (rm_distance m)
        ∧ num_gt (rm_distance m) maxD = false)
  ∧ (mock_pool r es = None →
     ∀ m, m ∈ matchEmergenciesToResource hav r es maxD →
          distance_between hav (e_location (em_emergency m)) (r_location r)
          = Some (em_distance m)
          ∧ num_gt (em_distance m) maxD = false).
Proof.
  split.
  - intros m Hm H1 H2.
    apply matchResourcesToEmergency_elem in Hm as (_ & _ & Hs).
    destruct (score_resource_computed _ _ _ _ _ H1 H2 Hs) as (d & Hd & Hgt & ->).
    done.
  - intros Hmock m Hm.
    apply matchEmergenciesToResource_elem in Hm as [_ Hs]; [| done].
    destruct (score_emergency_computed _ _ _ _ _ Hs) as (d & Hd & Hgt & ->).
    done.
Qed.

Lemma beyond_cutoff_excluded_witness :
  let e := sample_emergency "e1" (Fin 10) in
  let r := sample_resource "r7" (Fin 10) (9 # 100) in
  (distance_between equator_km (e_location e) (r_location r) = Some (Fin (1001 # 100))
   ∧ num_gt (Fin (1001 # 100)) (Fin 50) = false)
  ∧ (distance_between equator_km (e_location e) (r_location r) = Some (Fin (1001 # 100))
     ∧ num_gt (Fin (1001 # 100)) (Fin 50) = false).
Proof.
  intros e r.
  destruct (beyond_cutoff_excluded equator_km e [r] r [e] (Fin 50)) as [H1 H2].
  split.
  - apply (H1 (mkRM r (Fin (1001 # 100)) (Fin 88))).
    + vm_compute. left.
    + discriminate.
    + discriminate.
  - apply (H2 eq_refl (mkEM e (Fin (1001 # 100)) (Fin 82))).
    vm_compute. left.
Defined.

(** ** Range of the score *)

(** C5: the claim fails at zero quantities.  With both quantities 0 the
    ratio is [0 / 0], the clamped term is NaN, and so is the score in either
    direction, which is no integer of [0, 100].  The same happens when the
    emergency has no [quantity] at all. *)
Theorem score_of_zero_quantities :
  rm_matchScore <$> matchResourcesToEmergency equator_km (sample_emergency "e1" (Fin 0))
                      [sample_resource "r7" (Fin 0) 0] (Fin 50) = [NaN]
  ∧ em_matchScore <$> matchEmergenciesToResource equator_km (sample_resource "r7" (Fin 0) 0)
                        [sample_emergency "e1" (Fin 0)] (Fin 50) = [NaN]
  ∧ rm_matchScore <$> matchResourcesToEmergency equator_km (sample_emergency "e1" NaN)
                        [sample_resource "r7" (Fin 10) 0] (Fin 50) = [NaN]
  ∧ ¬ score_ok NaN.
Proof.
  split; [| split; [| split]]; [vm_compute; reflexivity.. |].
  intros (z & Hz & _). discriminate.
Qed.

(** X3: whatever the inputs, every matchScore of either ranking is NaN or an
    integer of [0, 100]. *)
Lemma score_range hav (e : Emergency) (rs : list Resource) (r : Resource)
    (es : list Emergency) (maxD : num) :
  Forall (λ m, rm_matchScore m = NaN ∨ score_ok (rm_matchScore m))
    (matchResourcesToEmergency hav e rs maxD)
  ∧ Forall (λ m, em_matchScore m = NaN ∨ score_ok (em_matchScore m))
      (matchEmergenciesToResource hav r es maxD).
Proof.
  split; apply Forall_forall; intros m Hm.
  - apply matchResourcesToEmergency_elem in Hm as (_ & _ & Hs).
    by eapply score_resource_score.
  - destruct (mock_pool r es) as [first|] eqn:Hmock.
    + unfold matchEmergenciesToResource in Hm. rewrite Hmock in Hm.
      apply list_elem_of_singleton in Hm as ->. right. by exists 80%Z.
    + apply matchEmergenciesToResource_elem in Hm as [_ Hs]; [| done].
      destruct (score_emergency_computed _ _ _ _ _ Hs) as (d & _ & _ & ->).
      apply emergencyScore_range.
Qed.

Lemma matchEmergenciesToResource_filter hav (r : Resource) (es : list Emergency)
    (maxD : num) (m : EmergencyMatch) :
  mock_pool r es = None →
  m ∈ matchEmergenciesToResource hav r es maxD →
  em_emergency m ∈ es
  ∧ e_type (em_emergency m) = r_type r
  ∧ e_status (em_emergency m) = "active"%string
  ∧ num_le (e_quantity (em_emergency m)) (r_quantity r) = true.
Proof.
  intros Hmock.
  destruct (matchEmergenciesToResource_unfold hav r es maxD Hmock)
    as [-> | (ms & HM & ->)].
  - by intros ?%elem_of_nil.
  - rewrite js_sort_perm. intros Hm.
    destruct (mapM_omap_elem _ _ _ _ HM Hm) as (e & He & Hs).
    apply list_elem_of_filter in He as [(Hty & Hact & Hq) He].
    by rewrite (score_emergency_emergency _ _ _ _ _ Hs).
Qed.

(** ** The quantity term at a zero denominator *)

(** C6, as stated, fails: 10 units offered against a need of 0 give the
    term 100, not 0, and the candidate scores 100. *)
Lemma zero_denominator_counterexample :
  quantityScore (Fin 10) (Fin 0) = Fin 100
  ∧ quantityScore (Fin 10) (Fin 0) ≠ Fin 0
  ∧ rm_matchScore <$> matchResourcesToEmergency equator_km (sample_emergency "e1" (Fin 0))
                        [sample_resource "r7" (Fin 10) 0] (Fin 50) = [Fin 100].
Proof. split; [| split]; [vm_compute; reflexivity | discriminate | vm_compute; reflexivity]. Qed.

(** C6, amended: a zero denominator raises no error, and the quantity term
    follows the sign of the quotient.  With the denominator [+0] it is 100 for
    a positive numerator and 0 for a negative one; with the denominator [-0]
    it is the other way round.  Whether a candidate makes the callback throw
    depends on the locations alone.  In the direction from a resource to
    emergencies the filter [emergency.quantity <= resource.quantity] keeps no
    emergency of positive quantity when the resource's quantity is a zero, so
    only the case of a negative numerator arises there. *)
Theorem zero_denominator_term hav (q : Q) (e : Emergency) (r : Resource)
    (es : list Emergency) (maxD : num) :
  (0 < q → quantityScore (Fin q) (Fin 0) = Fin 100 ∧ quantityScore (Fin q) NZero = Fin 0)
  ∧ (q < 0 → quantityScore (Fin q) (Fin 0) = Fin 0 ∧ quantityScore (Fin q) NZero = Fin 100)
  ∧ (is_Some (distance_between hav (e_location e) (r_location r)) →
     is_Some (score_resource hav e maxD r) ∧ is_Some (score_emergency hav r maxD e))
  ∧ (r_quantity r = Fin 0 ∨ r_quantity r = NZero → mock_pool r es = None →
     ∀ m q', m ∈ matchEmergenciesToResource hav r es maxD →
             e_quantity (em_emergency m) = Fin q' → q' <= 0).
Proof.
  split; [| split; [| split]].
  - intros Hq. unfold quantityScore, num_div. cbn [value negative].
    assert (H0 : Qeq_bool q 0 = false) by (by apply Qeq_bool_pos).
    assert (Hle : Qle_bool 0 q = true) by (by apply Qle_bool_pos).
    rewrite H0, Hle. split; reflexivity.
  - intros Hq. unfold quantityScore, num_div. cbn [value negative].
    assert (H0 : Qeq_bool q 0 = false).
    { destruct (Qeq_bool q 0) eqn:H; [| done]. bool_to_Q. lra. }
    assert (Hle : Qle_bool 0 q = false).
    { destruct (Qle_bool 0 q) eqn:H; [| done]. bool_to_Q. lra. }
    rewrite H0, Hle. split; reflexivity.
  - intros [d Hd]. unfold score_resource, score_emergency. rewrite Hd. simpl.
    repeat case_bool_decide; destruct (num_gt d maxD); eauto.
  - intros Hz Hmock m q' Hm Hq'.
    apply matchEmergenciesToResource_filter in Hm as (_ & _ & _ & Hle); [| done].
    rewrite Hq' in Hle. destruct Hz as [Hz | Hz]; rewrite Hz in Hle; simpl in Hle;
      by apply Qle_bool_iff in Hle.
Qed.

Lemma zero_denominator_term_witness :
  (quantityScore (Fin 10) (Fin 0) = Fin 100 ∧ quantityScore (Fin 10) NZero = Fin 0)
  ∧ (quantityScore (Fin (-3)) (Fin 0) = Fin 0 ∧ quantityScore (Fin (-3)) NZero = Fin 100)
  ∧ (is_Some (score_resource equator_km (sample_emergency "e1" (Fin 0)) (Fin 50)
                (sample_resource "r7" (Fin 10) 0))
     ∧ is_Some (score_emergency equator_km (sample_resource "r7" (Fin 10) 0) (Fin 50)
                  (sample_emergency "e1" (Fin 0))))
  ∧ (-3) <= 0.
Proof.
  destruct (zero_denominator_term equator_km 10 (sample_emergency "e1" (Fin 0))
              (sample_resource "r7" (Fin 10) 0) [] (Fin 50)) as (H1 & _ & H3 & _).
  destruct (zero_denominator_term equator_km (-3) (sample_emergency "e1" (Fin (-3)))
              (sample_resource "r7" (Fin 0) 0)
              [sample_emergency "e1" (Fin (-3)); sample_emergency "e2" (Fin 4)] (Fin 50))
    as (_ & H2 & _ & H4).
  split; [apply H1; reflexivity |].
  split; [apply H2; reflexivity |].
  split; [apply H3; vm_compute; eauto |].
  apply (H4 (or_introl eq_refl) eq_refl
           (mkEM (sample_emergency "e1" (Fin (-3))) (Fin 0) (Fin 70))).
  - vm_compute. left.
  - reflexivity.
Defined.

(** ** The distance: sign of the formula, and rounding *)

Lemma value_Fin (x : num) (q : Q) : x = Fin q → value x = Some q.
Proof. by intros ->. Qed.

(** Products and sums of finite numbers are finite, with the exact value. *)
Lemma num_mul_value (x y : num) (a b : Q) :
  value x = Some a → value y = Some b →
  ∃ c, value (num_mul x y) = Some c ∧ c == a * b.
Proof.
  intros Hx Hy. unfold num_mul. rewrite Hx, Hy.
  destruct x as [| | | |qx]; try discriminate;
    destruct y as [| | | |qy]; try discriminate.
  all: destruct (Qeq_bool (a * b) 0) eqn:H0; bool_to_Q;
    [exists 0; split; [by destruct (xorb _ _) | lra]
    | eexists; split; [reflexivity | apply Qred_correct]].
Qed.

Lemma num_add_Fin_value (a : Q) (y : num) (b : Q) :
  value y = Some b → ∃ c, num_add (Fin a) y = Fin c ∧ c == a + b.
Proof.
  destruct y as [| | | |qy]; try discriminate; intros [= <-]; simpl.
  - eexists. split; [reflexivity |]. rewrite Qred_correct. lra.
  - eexists. split; [reflexivity |]. apply Qred_correct.
Qed.

Lemma num_mul_square (s : Q) :
  ∃ c, num_mul (Fin s) (Fin s) = Fin c ∧ c == s * s.
Proof.
  unfold num_mul. cbn [value negative]. rewrite xorb_nilpotent. cbn [zero_of].
  destruct (Qeq_bool (s * s) 0) eqn:H0; bool_to_Q.
  - exists 0. split; [reflexivity | lra].
  - eexists. split; [reflexivity | apply Qred_correct].
Qed.

Lemma deg2rad_Fin (deg : Q) :
  ∃ t, deg2rad (Fin deg) = Fin t ∧ t == deg * (Math_PI / 180).
Proof.
  unfold deg2rad.
  destruct (num_div_pos Math_PI 180) as (k & -> & Hk); [reflexivity |].
  assert (Hpos : 0 < k) by (rewrite Hk; reflexivity).
  destruct (num_mul_nonneg_r deg k Hpos) as (t & -> & Ht).
  exists t. split; [done |]. by rewrite Ht, Hk.
Qed.

Lemma Math_sin_Fin (M : MathLib) (q : Q) : ∃ s, Math_sin M (Fin q) = Fin s.
Proof. unfold Math_sin. destruct (Qeq_bool q 0); by eexists. Qed.

Lemma Math_cos_Fin (M : MathLib) (q : Q) :
  ∃ c, Math_cos M (Fin q) = Fin c
       ∧ (c == 1 ∨ c == cos_approx M q).
Proof.
  unfold Math_cos. destruct (Qeq_bool q 0).
  - exists 1. split; [done | by left].
  - eexists. split; [reflexivity |]. right. apply Qred_correct.
Qed.

(** The sine of half an angle given in degrees by a difference. *)
Lemma half_angle_sin (M : MathLib) (x y : Q) :
  ∃ s, Math_sin M (num_div (deg2rad (num_sub (Fin y) (Fin x))) (Fin 2)) = Fin s.
Proof.
  destruct (num_sub_Fin y x) as (d & -> & _).
  destruct (deg2rad_Fin d) as (t & -> & _).
  destruct (num_div_pos t 2) as (h & -> & _); [reflexivity |].
  apply Math_sin_Fin.
Qed.

(** [a] is a finite number, the sum of a square and of the product of the
    two cosines with a square. *)
Lemma haversine_a_Fin (M : MathLib) (lat1 lon1 lat2 lon2 : Q) :
  ∃ a c1 c2 s t,
    haversine_a M lat1 lon1 lat2 lon2 = Fin a
    ∧ Math_cos M (deg2rad (Fin lat1)) = Fin c1
    ∧ Math_cos M (deg2rad (Fin lat2)) = Fin c2
    ∧ a == s * s + c1 * c2 * t * t.
Proof.
  unfold haversine_a.
  destruct (half_angle_sin M lat1 lat2) as (s & ->).
  destruct (half_angle_sin M lon1 lon2) as (t & ->).
  destruct (deg2rad_Fin lat1) as (x1 & -> & _).
  destruct (deg2rad_Fin lat2) as (x2 & -> & _).
  destruct (Math_cos_Fin M x1) as (c1 & -> & _).
  destruct (Math_cos_Fin M x2) as (c2 & -> & _).
  destruct (num_mul_square s) as (sq & -> & Hsq).
  destruct (num_mul_value (Fin c1) (Fin c2) c1 c2 eq_refl eq_refl) as (p & Hp & Hpv).
  destruct (num_mul_value _ (Fin t) p t Hp eq_refl) as (p1 & Hp1 & Hp1v).
  destruct (num_mul_value _ (Fin t) p1 t Hp1 eq_refl) as (p2 & Hp2 & Hp2v).
  destruct (num_add_Fin_value sq _ p2 Hp2) as (a & -> & Ha).
  exists a, c1, c2, s, t. repeat (split; [done |]).
  rewrite Ha, Hsq, Hp2v, Hp1v, Hpv. ring.
Qed.

Lemma Math_sqrt_Fin (M : MathLib) (q : Q) :
  (q < 0 ∧ Math_sqrt M (Fin q) = NaN)
  ∨ (0 <= q ∧ ∃ r, Math_sqrt M (Fin q) = Fin r ∧ 0 <= r).
Proof.
  unfold Math_sqrt. destruct (Qeq_bool q 0) eqn:H0; bool_to_Q.
  - right. split; [lra |]. exists 0. split; [done | lra].
  - destruct (Qle_bool 0 q) eqn:Hle; bool_to_Q.
    + right. split; [done |]. eexists. split; [reflexivity |].
      rewrite Qred_correct. apply Qabs_nonneg.
    + left. by split.
Qed.

Lemma Math_atan2_nonneg (M : MathLib) (y x : Q) :
  0 <= y → ∃ r, Math_atan2 M (Fin y) (Fin x) = Fin r ∧ 0 <= r.
Proof.
  intros Hy. unfold Math_atan2. cbn [negative]. rewrite (Qle_bool_nonneg y Hy).
  cbn [negb]. eexists. split; [reflexivity |].
  rewrite Qred_correct. apply Qabs_nonneg.
Qed.

Lemma Math_atan2_NaN_r (M : MathLib) (y : num) : Math_atan2 M y NaN = NaN.
Proof. by destruct y. Qed.

(** The full-precision distance is NaN when [a] lies outside [[0, 1]], where
    one of the two square roots is NaN, and a non-negative number otherwise. *)
Lemma haversine_km_sign (M : MathLib) (lat1 lon1 lat2 lon2 a : Q) :
  haversine_a M lat1 lon1 lat2 lon2 = Fin a →
  (a < 0 ∨ 1 < a → haversine_km M lat1 lon1 lat2 lon2 = NaN)
  ∧ (0 <= a <= 1 → ∃ q, haversine_km M lat1 lon1 lat2 lon2 = Fin q ∧ 0 <= q).
Proof.
  intros Ha. unfold haversine_km. rewrite Ha.
  destruct (num_sub_Fin 1 a) as (b & -> & Hb).
  destruct (Math_sqrt_Fin M a) as [[Ha0 ->] | [Ha0 (r1 & -> & Hr1)]].
  { split; [done | lra]. }
  destruct (Math_sqrt_Fin M b) as [[Hb0 ->] | [Hb0 (r2 & -> & Hr2)]].
  { split; [| lra]. intros _. by rewrite Math_atan2_NaN_r. }
  split; [lra |]. intros _.
  destruct (Math_atan2_nonneg M r1 r2 Hr1) as (m & -> & Hm).
  destruct (num_mul_pos_l 2 m) as (c & -> & Hc); [reflexivity |].
  destruct (num_mul_pos_l 6371 c) as (d & -> & Hd); [reflexivity |].
  exists d. split; [done |]. rewrite Hd, Hc. lra.
Qed.

(** With a library whose cosine is not negative between -90 and 90 degrees,
    [a] is not negative at valid latitudes. *)
Lemma haversine_a_nonneg (M : MathLib) (lat1 lon1 lat2 lon2 a : Q) :
  (∀ x, Qabs x <= 90 * (Math_PI / 180) → 0 <= cos_approx M x) →
  -90 <= lat1 <= 90 → -90 <= lat2 <= 90 →
  haversine_a M lat1 lon1 lat2 lon2 = Fin a → 0 <= a.
Proof.
  intros Hcos H1 H2 Ha.
  destruct (haversine_a_Fin M lat1 lon1 lat2 lon2) as (a' & c1 & c2 & s & t & Ha' & Hc1 & Hc2 & Hv).
  rewrite Ha in Ha'. injection Ha' as <-.
  assert (Hk : 0 < Math_PI / 180) by reflexivity.
  assert (Hc : ∀ lat c, -90 <= lat <= 90 → Math_cos M (deg2rad (Fin lat)) = Fin c → 0 <= c).
  { intros lat c Hlat. destruct (deg2rad_Fin lat) as (x & -> & Hx).
    destruct (Math_cos_Fin M x) as (c' & -> & Hc'). intros [= <-].
    destruct Hc' as [-> | ->]; [lra |]. apply Hcos. rewrite Hx.
    apply Qabs_case; intros _; nra. }
  pose proof (Hc _ _ H1 Hc1) as Hc1'. pose proof (Hc _ _ H2 Hc2) as Hc2'.
  rewrite Hv. assert (0 <= s * s) by nra. assert (0 <= t * t) by nra.
  assert (0 <= c1 * c2) by nra. nra.
Qed.

Lemma round2_nonneg_spec (q : Q) :
  0 <= q →
  ∃ z : Z, round2 q == z # 100 ∧ (0 ≤ z)%Z ∧ 0 <= round2 q
           ∧ Qabs (round2 q - q) <= 1 # 200.
Proof.
  intros Hq. unfold round2.
  apply Qle_bool_iff in Hq as Hb. rewrite Hb. clear Hb.
  set (z := Qfloor (q * 100 + (1 # 2))).
  assert (Hlo : inject_Z z <= q * 100 + (1 # 2)) by apply Qfloor_le.
  assert (Hhi : q * 100 + (1 # 2) < inject_Z z + 1).
  { pose proof (Qlt_floor (q * 100 + (1 # 2))) as H.
    rewrite inject_Z_plus in H. exact H. }
  assert (Hz : (0 ≤ z)%Z).
  { change 0%Z with (Qfloor (1 # 2)). apply Qfloor_resp_le. lra. }
  assert (Hdiv : z # 100 == inject_Z z / 100).
  { rewrite <- (Qmake_Qdiv z 100). reflexivity. }
  assert (Hw : inject_Z z / 100 * 100 == inject_Z z) by (field; lra).
  exists z. rewrite Qred_correct. split; [reflexivity |]. split; [done |].
  assert (H0 : 0 <= inject_Z z).
  { change 0 with (inject_Z 0). by rewrite <- Zle_Qle. }
  rewrite Hdiv. revert Hw. generalize (inject_Z z / 100). intros w Hw.
  split; [lra |].
  apply Qabs_case; intros _; lra.
Qed.

Lemma toFixed2_nonneg (q : Q) : 0 <= q → toFixed2 (Fin q) = Fin (round2 q).
Proof. intros Hq. unfold toFixed2. by rewrite (Qle_bool_nonneg q Hq). Qed.

Lemma calculateDistance_numbers hav (lat1 lon1 lat2 lon2 q : Q) :
  hav lat1 lon1 lat2 lon2 = Fin q → 0 <= q →
  calculateDistance hav (Num (Fin lat1)) (Num (Fin lon1))
    (Some (Fin lat2)) (Some (Fin lon2)) = Some (Fin (round2 q)).
Proof.
  intros Hq Hq0. unfold calculateDistance, haversine_d.
  cbn [to_number default from_option id value]. rewrite Hq. by rewrite toFixed2_nonneg.
Qed.

Lemma distance_between_finite hav (lat1 lon1 lat2 lon2 q : Q) :
  hav lat1 lon1 lat2 lon2 = Fin q → 0 <= q →
  distance_between hav (Some [Fin lon1; Fin lat1]) (Some [Fin lon2; Fin lat2])
  = Some (or_zero (Fin (round2 q))).
Proof.
  intros Hq Hq0. unfold distance_between. cbn [mbind option_bind].
  change ([Fin lon1; Fin lat1] !! 1%nat) with (Some (Fin lat1)).
  change ([Fin lon1; Fin lat1] !! 0%nat) with (Some (Fin lon1)).
  change ([Fin lon2; Fin lat2] !! 1%nat) with (Some (Fin lat2)).
  change ([Fin lon2; Fin lat2] !! 0%nat) with (Some (Fin lon2)).
  cbn [arg_of]. rewrite (calculateDistance_numbers hav _ _ _ _ _ Hq Hq0). done.
Qed.

Lemma distance_between_NaN hav (lat1 lon1 lat2 lon2 : Q) :
  hav lat1 lon1 lat2 lon2 = NaN →
  distance_between hav (Some [Fin lon1; Fin lat1]) (Some [Fin lon2; Fin lat2])
  = Some (Fin 0).
Proof.
  intros Hq. unfold distance_between. cbn [mbind option_bind].
  change ([Fin lon1; Fin lat1] !! 1%nat) with (Some (Fin lat1)).
  change ([Fin lon1; Fin lat1] !! 0%nat) with (Some (Fin lon1)).
  change ([Fin lon2; Fin lat2] !! 1%nat) with (Some (Fin lat2)).
  change ([Fin lon2; Fin lat2] !! 0%nat) with (Some (Fin lon2)).
  unfold calculateDistance, haversine_d. cbn [arg_of to_number default from_option id value].
  by rewrite Hq.
Qed.

Lemma cutoff_on_rounded (d maxD : Q) :
  num_gt (or_zero (Fin d)) (Fin maxD) = true ↔ maxD < d.
Proof.
  simpl. destruct (Qeq_bool d 0) eqn:H0; simpl.
  - apply Qeq_bool_iff in H0. rewrite negb_true_iff. split.
    + intros H%Qle_bool_false. lra.
    + intros H. destruct (Qle_bool 0 maxD) eqn:Hle; [| done].
      apply Qle_bool_iff in Hle. lra.
  - rewrite negb_true_iff. split.
    + by intros H%Qle_bool_false.
    + intros H. destruct (Qle_bool d maxD) eqn:Hle; [| done].
      apply Qle_bool_iff in Hle. lra.
Qed.

(** C9, as stated, fails: a resource whose full-precision distance is above
    50 km (about 50.004 km) is returned with the cutoff at 50 km, because
    [calculateDistance] hands back the distance already rounded to 50, and
    that is what the cutoff compares. *)
Lemma full_precision_counterexample :
  num_gt (equator_km 0 0 0 (4497 # 10000)) (Fin 50) = true
  ∧ calculateDistance equator_km (Num (Fin 0)) (Num (Fin 0))
      (Some (Fin 0)) (Some (Fin (4497 # 10000))) = Some (Fin 50)
  ∧ matchResourcesToEmergency equator_km (sample_emergency "e1" (Fin 10))
      [sample_resource "r7" (Fin 10) (4497 # 10000)] (Fin 50)
    = [mkRM (sample_resource "r7" (Fin 10) (4497 # 10000)) (Fin 50) (Fin 40)].
Proof. repeat split; vm_compute; reflexivity. Qed.

(** C9, amended.  For every pair of points with finite coordinates the
    haversine formula gives either NaN or a non-negative number [q]; it is NaN
    exactly when the intermediate [a] falls outside [[0, 1]], and with a
    cosine that is not negative between -90 and 90 degrees [a] is not below 0
    at valid latitudes.  [calculateDistance] returns [q] rounded to 2 decimal
    places, which is non-negative and within 0.005 of [q]; the rounded value
    is the only one that leaves the function, and the cutoff of both rankings
    compares it, not [q], with maxDistance.  Where the formula gives NaN the
    rankings take the distance to be 0. *)
Theorem calculateDistance_rounded (M : MathLib) (lat1 lon1 lat2 lon2 maxD : Q)
    (e : Emergency) (r : Resource) :
  e_location e = Some [Fin lon1; Fin lat1] →
  r_location r = Some [Fin lon2; Fin lat2] →
  r_id r ≠ Some "resource1"%string → r_id r ≠ Some "resource2"%string →
  let d := haversine_km M lat1 lon1 lat2 lon2 in
  let returned :=
    calculateDistance (haversine_km M) (Num (Fin lat1)) (Num (Fin lon1))
      (Some (Fin lat2)) (Some (Fin lon2)) in
  (d = NaN ∨ ∃ q, d = Fin q ∧ 0 <= q)
  ∧ (∃ a, haversine_a M lat1 lon1 lat2 lon2 = Fin a
          ∧ (d = NaN ↔ a < 0 ∨ 1 < a)
          ∧ ((∀ x, Qabs x <= 90 * (Math_PI / 180) → 0 <= cos_approx M x) →
             -90 <= lat1 <= 90 → -90 <= lat2 <= 90 → 0 <= a))
  ∧ (d = NaN →
     returned = Some NaN
     ∧ distance_between (haversine_km M) (e_location e) (r_location r) = Some (Fin 0))
  ∧ (∀ q, d = Fin q →
          returned = Some (Fin (round2 q))
          ∧ calculateDistance (haversine_km M) (Arr [Fin lat1; Fin lon1])
              (Arr [Fin lat2; Fin lon2]) None None = Some (Fin (round2 q))
          ∧ (∃ z : Z, round2 q == z # 100)
          ∧ 0 <= round2 q
          ∧ Qabs (round2 q - q) <= 1 # 200
          ∧ (score_resource (haversine_km M) e (Fin maxD) r = Some None ↔ maxD < round2 q)
          ∧ (score_emergency (haversine_km M) r (Fin maxD) e = Some None
             ↔ maxD < round2 q)).
Proof.
  intros He Hr H1 H2 d returned.
  destruct (haversine_a_Fin M lat1 lon1 lat2 lon2) as (a & _ & _ & _ & _ & Ha & _).
  destruct (haversine_km_sign M lat1 lon1 lat2 lon2 a Ha) as [Hnan Hnum].
  fold d in Hnan, Hnum.
  assert (Hsign : d = NaN ∨ ∃ q, d = Fin q ∧ 0 <= q).
  { destruct (Qlt_le_dec a 0) as [Hlt | Hge]; [left; apply Hnan; by left |].
    destruct (Qlt_le_dec 1 a) as [Hgt | Hle]; [left; apply Hnan; by right |].
    right. by apply Hnum. }
  split; [exact Hsign |]. split; [| split].
  - exists a. split; [done |]. split; [split |].
    + intros Hd. destruct (Qlt_le_dec a 0) as [Hlt | Hge]; [by left |].
      destruct (Qlt_le_dec 1 a) as [Hgt | Hle]; [by right |].
      destruct (Hnum (conj Hge Hle)) as (q & Hq & _). congruence.
    + exact Hnan.
    + intros Hcos Hlat1 Hlat2.
      exact (haversine_a_nonneg M lat1 lon1 lat2 lon2 a Hcos Hlat1 Hlat2 Ha).
  - intros Hd. split.
    + subst returned. unfold calculateDistance, haversine_d.
      cbn [to_number default from_option id value]. fold d. by rewrite Hd.
    + rewrite He, Hr. by apply distance_between_NaN.
  - intros q Hq.
    assert (Hq0 : 0 <= q).
    { destruct Hsign as [Hd | (q' & Hq' & H0)]; [congruence |].
      rewrite Hq in Hq'. by injection Hq' as <-. }
    destruct (round2_nonneg_spec q Hq0) as (z & Hz & _ & H0 & Habs).
    split. { by apply calculateDistance_numbers. }
    split. { unfold calculateDistance, haversine_d.
             cbn [lookup list_lookup to_number default from_option id value].
             fold d. rewrite Hq. by rewrite toFixed2_nonneg. }
    split. { by exists z. }
    split; [done |]. split; [done |].
    pose proof (distance_between_finite (haversine_km M) _ _ _ _ _ Hq Hq0) as Hd.
    pose proof (cutoff_on_rounded (round2 q) maxD) as Hcut.
    split.
    + unfold score_resource. rewrite !bool_decide_eq_false_2 by done.
      rewrite He, Hr, Hd. cbn [mbind option_bind].
      destruct (num_gt (or_zero (Fin (round2 q))) (Fin maxD)) eqn:Hgt.
      * split; [intros _; by apply Hcut | done].
      * split; [done |]. intros Hlt%Hcut. congruence.
    + unfold score_emergency. rewrite He, Hr, Hd. cbn [mbind option_bind].
      destruct (num_gt (or_zero (Fin (round2 q))) (Fin maxD)) eqn:Hgt.
      * split; [intros _; by apply Hcut | done].
      * split; [done |]. intros Hlt%Hcut. congruence.
Qed.

Lemma series_cos_nonneg (x : Q) :
  Qabs x <= 90 * (Math_PI / 180) → 0 <= cos_approx series x.
Proof.
  intros Hx. cbn [cos_approx series].
  assert (Hb : 90 * (Math_PI / 180) <= 158 # 100) by (vm_compute; discriminate).
  assert (Hx2 : x * x <= 5 # 2).
  { revert Hx. apply Qabs_case; intros Hs Hx.
    - assert (x <= 158 # 100) by lra. nra.
    - assert (- (158 # 100) <= x) by lra. nra. }
  assert (Hp2 : x ^ 2 == x * x) by (simpl; ring).
  assert (Hp4 : x ^ 4 == (x * x) * (x * x)) by (simpl; ring).
  rewrite Hp2, Hp4. set (y := x * x) in *.
  assert (Hy : 0 <= y) by (subst y; nra). clearbody y.
  assert (Hf : 1 - y / 2 + y * y / 24
               == ((5 # 2) - y) * ((19 # 2) - y) * (1 # 24) + (1 # 96)) by field.
  rewrite Hf. assert (0 <= ((5 # 2) - y) * ((19 # 2) - y)) by nra. lra.
Qed.


Lemma calculateDistance_rounded_witness :
  let e := sample_emergency "e1" (Fin 10) in
  let r := sample_resource "r7" (Fin 10) (9 # 100) in
  (∃ q, haversine_km series 0 0 0 (9 # 100) = Fin q ∧ 0 <= q)
  ∧ (∃ a, haversine_a series 0 0 0 (9 # 100) = Fin a ∧ 0 <= a)
  ∧ calculateDistance (haversine_km series) (Num (Fin 0)) (Num (Fin 0))
      (Some (Fin 0)) (Some (Fin (9 # 100))) = Some (Fin (1001 # 100))
  ∧ (score_resource (haversine_km series) e (Fin 50) r = Some None ↔ 50 < 1001 # 100).
Proof.
  intros e r.
  destruct (calculateDistance_rounded series 0 0 0 (9 # 100) 50 e r)
    as (Hsign & (a & Ha & _ & Hvalid) & _ & Hround);
    [reflexivity | reflexivity | discriminate | discriminate |].
  destruct Hsign as [Hnan | (q & Hq & Hq0)].
  { vm_compute in Hnan. discriminate Hnan. }
  destruct (Hround q Hq) as (Hret & _ & _ & _ & _ & Hcut & _).
  assert (Hr : round2 q = 1001 # 100).
  { vm_compute in Hq. injection Hq as <-. vm_compute. reflexivity. }
  rewrite Hr in Hret, Hcut.
  split; [exists q; split; [exact Hq | exact Hq0] |].
  split; [| split; [exact Hret | exact Hcut]].
  exists a. split; [exact Ha |].
  apply Hvalid; [apply series_cos_nonneg | split; vm_compute; discriminate..].
Defined.

(** ** Reading and updating a list of match references *)

Lemma find_ref_cons (id : string) (m : MatchRef) (l : list MatchRef) :
  find_ref id (m :: l) = if decide (is_ref_of id m) then Some m else find_ref id l.
Proof.
  unfold find_ref. simpl.
  destruct (decide (is_ref_of id m)); simpl; [done |].
  by destruct (list_find _ l) as [[i x]|].
Qed.

Lemma update_ref_cons (id : string) (f : MatchRef → MatchRef) (m : MatchRef)
    (l : list MatchRef) :
  update_ref id f (m :: l)
  = if decide (is_ref_of id m) then f m :: l else m :: update_ref id f l.
Proof.
  unfold update_ref. simpl.
  destruct (decide (is_ref_of id m)); simpl; [done |].
  by destruct (list_find _ l) as [[i x]|].
Qed.

Lemma find_ref_Some (id : string) (l : list MatchRef) (m : MatchRef) :
  find_ref id l = Some m → m ∈ l ∧ counterpart m = Some id.
Proof.
  induction l as [|x l IH]; [done |].
  rewrite find_ref_cons. case_decide.
  - intros [= <-]. split; [left | done].
  - intros [Hm Hc]%IH. split; [by right | done].
Qed.

Lemma find_ref_update_eq (id : string) (s : MatchStatus) (l : list MatchRef)
    (m : MatchRef) :
  find_ref id l = Some m →
  find_ref id (update_ref id (set_status s) l) = Some (set_status s m).
Proof.
  induction l as [|x l IH]; [done |].
  rewrite find_ref_cons, update_ref_cons. case_decide.
  - intros [= <-]. rewrite find_ref_cons. by rewrite decide_True.
  - intros Hm. rewrite find_ref_cons. rewrite decide_False by done. by apply IH.
Qed.

Lemma find_ref_update_ne (id id' : string) (s : MatchStatus) (l : list MatchRef) :
  id ≠ id' → find_ref id' (update_ref id (set_status s) l) = find_ref id' l.
Proof.
  intros Hne. induction l as [|x l IH]; [done |].
  rewrite update_ref_cons. case_decide as Hx.
  - rewrite !find_ref_cons.
    rewrite !decide_False; [done | unfold is_ref_of in *; simpl; congruence..].
  - rewrite !find_ref_cons. by rewrite IH.
Qed.

Lemma update_ref_elem (id : string) (s : MatchStatus) (l : list MatchRef)
    (m : MatchRef) :
  m ∈ update_ref id (set_status s) l → m ∈ l ∨ status m = s.
Proof.
  induction l as [|x l IH]; [by left |].
  rewrite update_ref_cons. case_decide.
  - intros [->|Hm]%elem_of_cons; [by right | left; by right].
  - intros [->|Hm]%elem_of_cons; [left; left |].
    destruct (IH Hm) as [?|?]; [left; by right | by right].
Qed.

Lemma find_ref_snoc (id : string) (l : list MatchRef) (m : MatchRef) :
  find_ref id (l ++ [m])
  = match find_ref id l with
    | Some x => Some x
    | None => if decide (is_ref_of id m) then Some m else None
    end.
Proof.
  induction l as [|x l IH]; cbn [app].
  - by rewrite find_ref_cons.
  - rewrite !find_ref_cons. by destruct (decide (is_ref_of id x)).
Qed.

(** ** The copies of a pair under the writes of the handlers *)

Lemma emergency_copy_save_emergency (st : Store) (id : string) (e : Emergency)
    (eid rid : string) :
  emergency_copy (save_emergency st id e) eid rid
  = if decide (id = eid) then find_ref rid (e_matchedResources e)
    else emergency_copy st eid rid.
Proof.
  unfold emergency_copy, save_emergency. simpl. case_decide as Hid.
  - subst. by rewrite lookup_insert_eq.
  - by rewrite lookup_insert_ne.
Qed.

Lemma resource_copy_save_resource (st : Store) (id : string) (r : Resource)
    (eid rid : string) :
  resource_copy (save_resource st id r) eid rid
  = if decide (id = rid) then find_ref eid (r_matchedEmergencies r)
    else resource_copy st eid rid.
Proof.
  unfold resource_copy, save_resource. simpl. case_decide as Hid.
  - subst. by rewrite lookup_insert_eq.
  - by rewrite lookup_insert_ne.
Qed.

Lemma resource_copy_save_emergency (st : Store) (id : string) (e : Emergency)
    (eid rid : string) :
  resource_copy (save_emergency st id e) eid rid = resource_copy st eid rid.
Proof. reflexivity. Qed.

Lemma emergency_copy_save_resource (st : Store) (id : string) (r : Resource)
    (eid rid : string) :
  emergency_copy (save_resource st id r) eid rid = emergency_copy st eid rid.
Proof. reflexivity. Qed.

Lemma emergency_copy_notify (st : Store) (n : Notification) (eid rid : string) :
  emergency_copy (notify st n) eid rid = emergency_copy st eid rid.
Proof. reflexivity. Qed.

Lemma resource_copy_notify (st : Store) (n : Notification) (eid rid : string) :
  resource_copy (notify st n) eid rid = resource_copy st eid rid.
Proof. reflexivity. Qed.

Lemma emergency_copy_lookup (st : Store) (eid rid : string) (e : Emergency) :
  emergencies st !! eid = Some e →
  emergency_copy st eid rid = find_ref rid (e_matchedResources e).
Proof. unfold emergency_copy. by intros ->. Qed.

Lemma resource_copy_lookup (st : Store) (eid rid : string) (r : Resource) :
  resources st !! rid = Some r →
  resource_copy st eid rid = find_ref eid (r_matchedEmergencies r).
Proof. unfold resource_copy. by intros ->. Qed.

(** ** The side invariants under the writes *)

Lemma well_keyed_save_emergency (st : Store) (id : string) (e : Emergency) :
  well_keyed st → e_id e = Some id → well_keyed (save_emergency st id e).
Proof.
  intros [HE HR] He. split; [| done].
  intros id' e'. unfold save_emergency. simpl.
  rewrite lookup_insert. case_decide; [naive_solver | apply HE].
Qed.

Lemma well_keyed_save_resource (st : Store) (id : string) (r : Resource) :
  well_keyed st → r_id r = Some id → well_keyed (save_resource st id r).
Proof.
  intros [HE HR] Hr. split; [done |].
  intros id' r'. unfold save_resource. simpl.
  rewrite lookup_insert. case_decide; [naive_solver | apply HR].
Qed.

(** ** Validation under the writes of the handlers *)

Lemma forallb_update_ref (id : string) (s : MatchStatus) (l : list MatchRef) :
  forallb (λ m, valid_matchScore (matchScore m)) (update_ref id (set_status s) l)
  = forallb (λ m, valid_matchScore (matchScore m)) l.
Proof.
  induction l as [|x l IH]; [done |].
  rewrite update_ref_cons. case_decide; simpl; [done |]. by rewrite IH.
Qed.

Lemma update_ref_alter (id : string) (f : MatchRef → MatchRef) (l : list MatchRef)
    (i : nat) (x : MatchRef) :
  list_find (is_ref_of id) l = Some (i, x) → alter f i l = update_ref id f l.
Proof. intros H. unfold update_ref. by rewrite H. Qed.

Lemma validate_emergency_update_ref (e : Emergency) (id : string) (s : MatchStatus) :
  validate_emergency
    (set_matchedResources e (update_ref id (set_status s) (e_matchedResources e)))
  = validate_emergency e.
Proof. unfold validate_emergency. simpl. by rewrite forallb_update_ref. Qed.


Lemma validate_emergency_assigned (e : Emergency) (a : option string) :
  validate_emergency (set_e_assignedTo e a) = validate_emergency e.
Proof. reflexivity. Qed.

Lemma validate_resource_assigned (r : Resource) (a : option string) :
  validate_resource (set_r_assignedTo r a) = validate_resource r.
Proof. reflexivity. Qed.

Lemma validate_emergency_score (e : Emergency) (id : string) (m : MatchRef) :
  validate_emergency e = true → find_ref id (e_matchedResources e) = Some m →
  valid_matchScore (matchScore m) = true.
Proof.
  unfold validate_emergency. intros [_ Hall]%andb_true_iff [Hin _]%find_ref_Some.
  rewrite forallb_forall in Hall. apply Hall. by apply list_elem_of_In.
Qed.

(** A resource that passes validation still passes it when it is reserved
    with one more accepted match of a valid score, and when it is delivered. *)
Lemma validate_resource_reserved (r : Resource) (new : MatchRef) :
  validate_resource r = true → valid_matchScore (matchScore new) = true →
  validate_resource
    (set_matchedEmergencies (set_r_status r "reserved") (r_matchedEmergencies r ++ [new]))
  = true.
Proof.
  unfold validate_resource. simpl. intros H Hnew.
  apply andb_true_iff in H as [H Hall]. apply andb_true_iff in H as [H _].
  rewrite H. simpl. rewrite forallb_app, Hall. simpl. by rewrite Hnew.
Qed.

Lemma validate_resource_delivered (r : Resource) (id : string) :
  validate_resource r = true →
  validate_resource
    (set_matchedEmergencies (set_r_status r "delivered")
       (update_ref id (set_status delivered) (r_matchedEmergencies r)))
  = true.
Proof.
  unfold validate_resource. simpl. intros H.
  apply andb_true_iff in H as [H Hall]. apply andb_true_iff in H as [H _].
  rewrite H. simpl. by rewrite forallb_update_ref.
Qed.

(** A resource without an address passes no validation, whatever a handler
    has changed in it: none of them writes the address. *)
Lemma no_address_invalid (r : Resource) :
  r_address r = None → validate_resource r = false.
Proof.
  intros H. unfold validate_resource. rewrite H. simpl. by rewrite andb_false_r.
Qed.

Lemma delivery_notification_invalid (user : string) (e r : option string) :
  validate_notification (mkNotification "resource_delivered" user e r) = false.
Proof. reflexivity. Qed.

Lemma acceptance_notification_valid (user : string) (e r : option string) :
  validate_notification (mkNotification "match_accepted" user e r) = true.
Proof. reflexivity. Qed.

Lemma assignment_notification_valid (user : string) (e r : option string) :
  validate_notification (mkNotification "assignment" user e r) = true.
Proof. reflexivity. Qed.

(** ** Sequences of requests *)

Lemma run_snoc hav (st : Store) (ops : list Op) (op : Op) :
  run hav st (ops ++ [op]) = (step hav (run hav st ops) op).1.
Proof. unfold run. by rewrite foldl_snoc. Qed.

Lemma sample_store_well_keyed : well_keyed sample_store.
Proof.
  unfold sample_store. split; simpl; intros id x [<- <-]%lookup_singleton_Some;
    reflexivity.
Qed.

Lemma matched_store_well_keyed (s : MatchStatus) (held : bool) :
  well_keyed (matched_store s held).
Proof.
  unfold matched_store. split; simpl; intros id x [<- <-]%lookup_singleton_Some;
    reflexivity.
Qed.

(** ** Deliver on a pending pair *)

(** C7: deliver on a pending pair fails and leaves the store as it was: the
    status of the resource, the needs of the emergency, both copies and the
    notifications.  The failure is the 404 response "not matched or accepted"
    (401 when the caller is not authorised), which is how the handler reports
    an invalid transition. *)
Theorem deliver_pending_fails (st : Store) (rid eid : string) (user : User) :
  pair_pending st eid rid →
  markResourceDelivered st rid eid user = (st, Error 404)
  ∨ markResourceDelivered st rid eid user = (st, Error 401).
Proof.
  intros (_ & _ & HR). unfold markResourceDelivered.
  destruct (resources st !! rid) as [r|] eqn:Hr; [| by left].
  destruct (not_authorized _ _ user); [by right |].
  destruct (find_ref eid (r_matchedEmergencies r)) as [m|] eqn:Hm; [| by left].
  rewrite (resource_copy_lookup _ _ _ _ Hr) in HR.
  rewrite (HR _ Hm). by left.
Qed.

Lemma deliver_pending_fails_witness :
  let st := matched_store pending false in
  markResourceDelivered st "r7" "e1" bob = (st, Error 404)
  ∨ markResourceDelivered st "r7" "e1" bob = (st, Error 401).
Proof.
  intros st. apply (deliver_pending_fails st "r7" "e1" bob).
  split; [| split].
  - left. vm_compute. eauto.
  - intros m. vm_compute. by intros [= <-].
  - intros m. vm_compute. discriminate.
Defined.

(** ** What the handlers leave alone *)

Lemma same_emergency_data_refl (e : Emergency) : same_emergency_data e e.
Proof. by repeat split. Qed.

Lemma same_resource_data_refl (r : Resource) : same_resource_data r r.
Proof. repeat split; by left. Qed.

Lemma same_emergency_data_trans (e1 e2 e3 : Emergency) :
  same_emergency_data e1 e2 → same_emergency_data e2 e3 → same_emergency_data e1 e3.
Proof. unfold same_emergency_data. intros H1 H2. destruct_and!. repeat split; congruence. Qed.

Lemma same_resource_data_trans (r1 r2 r3 : Resource) :
  same_resource_data r1 r2 → same_resource_data r2 r3 → same_resource_data r1 r3.
Proof.
  unfold same_resource_data. intros H1 H2. destruct_and!.
  repeat split; try congruence.
  repeat match goal with H : _ ∨ _ |- _ => destruct H end;
    (left; congruence) || (right; left; congruence) || (right; right; congruence).
Qed.

Lemma frame_refl (st : Store) : frame st st.
Proof.
  split; [done |]. split; [done |]. split; [| split; [| done]].
  - intros id e e' He He'. rewrite He in He'. injection He' as <-.
    apply same_emergency_data_refl.
  - intros id r r' Hr Hr'. rewrite Hr in Hr'. injection Hr' as <-.
    apply same_resource_data_refl.
Qed.

Lemma frame_trans (st1 st2 st3 : Store) : frame st1 st2 → frame st2 st3 → frame st1 st3.
Proof.
  intros (HdE & HdR & HE & HR & HN) (HdE' & HdR' & HE' & HR' & HN').
  split; [congruence |]. split; [congruence |]. split; [| split].
  - intros id e e3 He He3.
    assert (is_Some (emergencies st2 !! id)) as [e2 He2].
    { apply elem_of_dom. rewrite HdE. apply elem_of_dom. eauto. }
    eapply same_emergency_data_trans; eauto.
  - intros id r r3 Hr Hr3.
    assert (is_Some (resources st2 !! id)) as [r2 Hr2].
    { apply elem_of_dom. rewrite HdR. apply elem_of_dom. eauto. }
    eapply same_resource_data_trans; eauto.
  - by etrans.
Qed.

Lemma frame_save_emergency (st : Store) (id : string) (e e' : Emergency) :
  emergencies st !! id = Some e → same_emergency_data e e' →
  frame st (save_emergency st id e').
Proof.
  intros He Hsame. unfold frame, save_emergency. simpl.
  split; [by apply dom_insert_lookup_L |]. split; [done |]. split; [| split; [| done]].
  - intros id' x x' Hx. rewrite lookup_insert. case_decide as Hid.
    + subst id'. intros [= <-]. rewrite He in Hx. by injection Hx as <-.
    + intros Hx'. rewrite Hx in Hx'. injection Hx' as <-. apply same_emergency_data_refl.
  - intros id' r r' Hr Hr'. rewrite Hr in Hr'. injection Hr' as <-.
    apply same_resource_data_refl.
Qed.

Lemma frame_save_resource (st : Store) (id : string) (r r' : Resource) :
  resources st !! id = Some r → same_resource_data r r' →
  frame st (save_resource st id r').
Proof.
  intros Hr Hsame. unfold frame, save_resource. simpl.
  split; [done |]. split; [by apply dom_insert_lookup_L |]. split; [| split; [| done]].
  - intros id' e e' He He'. rewrite He in He'. injection He' as <-.
    apply same_emergency_data_refl.
  - intros id' x x' Hx. rewrite lookup_insert. case_decide as Hid.
    + subst id'. intros [= <-]. rewrite Hr in Hx. by injection Hx as <-.
    + intros Hx'. rewrite Hx in Hx'. injection Hx' as <-. apply same_resource_data_refl.
Qed.

Lemma frame_notify (st : Store) (n : Notification) : frame st (notify st n).
Proof.
  destruct (frame_refl st) as (H1 & H2 & H3 & H4 & _).
  split; [done |]. split; [done |]. split; [done |]. split; [done |].
  simpl. by apply prefix_app_r.
Qed.

Lemma matchResourcesForEmergency_frame hav (st : Store) (id : string) (user : User) :
  frame st (matchResourcesForEmergency hav st id user).1.
Proof.
  unfold matchResourcesForEmergency.
  destruct (emergencies st !! id) as [e|] eqn:He; [| apply frame_refl].
  destruct (not_authorized _ _ user); [apply frame_refl |].
  destruct (validate_emergency _); [| apply frame_refl].
  eapply frame_save_emergency; [done |]. by repeat split.
Qed.

Lemma matchEmergenciesForResource_frame hav (st : Store) (id : string) (user : User) :
  frame st (matchEmergenciesForResource hav st id user).1.
Proof.
  unfold matchEmergenciesForResource.
  destruct (resources st !! id) as [r|] eqn:Hr; [| apply frame_refl].
  destruct (not_authorized _ _ user); [apply frame_refl |].
  destruct (validate_resource _); [| apply frame_refl].
  eapply frame_save_resource; [done |]. repeat split; by left.
Qed.

Lemma updateMatchStatus_frame (st : Store) (eid rid action : string) (user : User) :
  frame st (updateMatchStatus st eid rid action user).1.
Proof.
  unfold updateMatchStatus.
  destruct (negb _); [apply frame_refl |].
  destruct (emergencies st !! eid) as [e|] eqn:He; [| apply frame_refl].
  destruct (not_authorized _ _ user); [apply frame_refl |].
  destruct (find_ref rid (e_matchedResources e)) as [m0|]; [| apply frame_refl].
  set (e' := set_matchedResources e _).
  destruct (negb (validate_emergency e')); [apply frame_refl |].
  assert (H1 : frame st (save_emergency st eid e')).
  { eapply frame_save_emergency; [done |]. by repeat split. }
  destruct (String.eqb action "accept"); [| done].
  destruct (resources (save_emergency st eid e') !! rid) as [r|] eqn:Hr; [| done].
  set (r' := set_matchedEmergencies _ _).
  destruct (negb (validate_resource r')); [done |].
  assert (H2 : frame st (save_resource (save_emergency st eid e') rid r')).
  { eapply frame_trans; [exact H1 |].
    eapply frame_save_resource; [done |]. repeat split. right. by left. }
  destruct (negb (validate_notification _)); [done |].
  cbn [fst]. eapply frame_trans; [exact H2 | apply frame_notify].
Qed.

Lemma markResourceDelivered_frame (st : Store) (rid eid : string) (user : User) :
  frame st (markResourceDelivered st rid eid user).1.
Proof.
  unfold markResourceDelivered.
  destruct (resources st !! rid) as [r|] eqn:Hr; [| apply frame_refl].
  destruct (not_authorized _ _ user); [apply frame_refl |].
  destruct (find_ref eid (r_matchedEmergencies r)) as [mR|]; [| apply frame_refl].
  destruct (negb (bool_decide _)); [apply frame_refl |].
  set (r' := set_matchedEmergencies _ _).
  destruct (negb (validate_resource r')); [apply frame_refl |].
  assert (H1 : frame st (save_resource st rid r')).
  { eapply frame_save_resource; [done |]. repeat split. right. by right. }
  destruct (emergencies (save_resource st rid r') !! eid) as [e|] eqn:He; [| done].
  set (e' := set_resourcesNeeded _ _).
  assert (H2 : frame st (save_emergency (save_resource st rid r') eid e')).
  { eapply frame_trans; [exact H1 |].
    eapply frame_save_emergency; [done |]. by repeat split. }
  destruct (find_ref rid (e_matchedResources e)).
  - destruct (validate_emergency e'); [| done].
    destruct (negb (validate_notification _)); [done |].
    cbn [fst]. eapply frame_trans; [exact H2 | apply frame_notify].
  - destruct (negb (validate_notification _)); [done |].
    cbn [fst]. eapply frame_trans; [exact H1 | apply frame_notify].
Qed.

Lemma step_frame hav (st : Store) (op : Op) : frame st (step hav st op).1.
Proof.
  destruct op.
  - apply matchResourcesForEmergency_frame.
  - apply matchEmergenciesForResource_frame.
  - apply updateMatchStatus_frame.
  - apply markResourceDelivered_frame.
Qed.

Lemma run_frame hav (st : Store) (ops : list Op) : frame st (run hav st ops).
Proof.
  induction ops as [|op ops IH] using rev_ind.
  - apply frame_refl.
  - rewrite run_snoc. eapply frame_trans; [exact IH | apply step_frame].
Qed.

Lemma run_well_keyed hav (st : Store) (ops : list Op) :
  well_keyed st → well_keyed (run hav st ops).
Proof.
  intros [HKE HKR]. destruct (run_frame hav st ops) as (HdE & HdR & HE & HR & _).
  split.
  - intros id e' He'.
    assert (is_Some (emergencies st !! id)) as [e He].
    { apply elem_of_dom. rewrite <- HdE. apply elem_of_dom. eauto. }
    destruct (HE _ _ _ He He') as (-> & _). by apply HKE.
  - intros id r' Hr'.
    assert (is_Some (resources st !! id)) as [r Hr].
    { apply elem_of_dom. rewrite <- HdR. apply elem_of_dom. eauto. }
    destruct (HR _ _ _ Hr Hr') as (-> & _). by apply HKR.
Qed.

(** X10: no sequence of requests to the four handlers creates or deletes a
    document, and none changes a document's id, type, quantity, location,
    owner or assignee, nor an emergency's status or urgency; a store whose
    documents are filed under their own ids stays so. *)
Theorem engine_keeps_documents hav (st : Store) (ops : list Op) :
  let st' := run hav st ops in
  dom (emergencies st') = dom (emergencies st)
  ∧ dom (resources st') = dom (resources st)
  ∧ (∀ id e', emergencies st' !! id = Some e' →
              ∃ e, emergencies st !! id = Some e ∧ same_emergency_data e e')
  ∧ (∀ id r', resources st' !! id = Some r' →
              ∃ r, resources st !! id = Some r
                   ∧ r_id r' = r_id r ∧ r_type r' = r_type r
                   ∧ r_quantity r' = r_quantity r ∧ r_location r' = r_location r
                   ∧ r_user r' = r_user r ∧ r_assignedTo r' = r_assignedTo r)
  ∧ (well_keyed st → well_keyed st').
Proof.
  intros st'. destruct (run_frame hav st ops) as (HdE & HdR & HE & HR & _).
  fold st' in HdE, HdR, HE, HR.
  assert (HE' : ∀ id e', emergencies st' !! id = Some e' →
                         ∃ e, emergencies st !! id = Some e ∧ same_emergency_data e e').
  { intros id e' He'.
    assert (is_Some (emergencies st !! id)) as [e He].
    { apply elem_of_dom. rewrite <- HdE. apply elem_of_dom. eauto. }
    exists e. split; [done |]. by eapply HE. }
  assert (HR' : ∀ id r', resources st' !! id = Some r' →
                         ∃ r, resources st !! id = Some r ∧ same_resource_data r r').
  { intros id r' Hr'.
    assert (is_Some (resources st !! id)) as [r Hr].
    { apply elem_of_dom. rewrite <- HdR. apply elem_of_dom. eauto. }
    exists r. split; [done |]. by eapply HR. }
  split; [done |]. split; [done |]. split; [done |]. split.
  - intros id r' Hr'. destruct (HR' _ _ Hr') as (r & Hr & Hs).
    exists r. unfold same_resource_data in Hs. destruct_and!. by repeat split.
  - intros [HKE HKR]. split.
    + intros id e' He'. destruct (HE' _ _ He') as (e & He & Hid & _).
      rewrite Hid. by apply HKE.
    + intros id r' Hr'. destruct (HR' _ _ Hr') as (r & Hr & Hid & _).
      rewrite Hid. by apply HKR.
Qed.

Lemma engine_keeps_documents_witness :
  well_keyed (run equator_km sample_store
                [RankResources "e1" alice; UpdateMatch "e1" "r7" "accept" alice;
                 Deliver "r7" "e1" bob]).
Proof.
  apply (engine_keeps_documents equator_km sample_store), sample_store_well_keyed.
Defined.

(** X11: a resource that is available after a sequence of requests was
    available before it: the handlers only ever change a resource's status
    to reserved (accept) or delivered (deliver), and nothing makes a resource
    available again. *)
Theorem resource_never_available_again hav (st : Store) (ops : list Op)
    (id : string) (r' : Resource) :
  resources (run hav st ops) !! id = Some r' →
  r_status r' = "available"%string →
  ∃ r, resources st !! id = Some r ∧ r_status r = "available"%string.
Proof.
  intros Hr' Hav. destruct (run_frame hav st ops) as (_ & HdR & _ & HR & _).
  assert (is_Some (resources st !! id)) as [r Hr].
  { apply elem_of_dom. rewrite <- HdR. apply elem_of_dom. eauto. }
  exists r. split; [done |].
  destruct (HR _ _ _ Hr Hr') as (_ & _ & _ & _ & _ & _ & Hst).
  rewrite Hav in Hst. by destruct Hst as [<- | [? | ?]].
Qed.

Lemma resource_never_available_again_witness :
  ∃ r, resources sample_store !! "r7"%string = Some r
       ∧ r_status r = "available"%string.
Proof.
  apply (resource_never_available_again equator_km sample_store
           [RankResources "e1" alice] "r7" (sample_resource "r7" (Fin 10) 0));
    reflexivity.
Defined.

(** X12: notifications are only ever appended: the notifications present
    before a sequence of requests are a prefix of those present after it. *)
Theorem notifications_append_only hav (st : Store) (ops : list Op) :
  notifications st `prefix_of` notifications (run hav st ops).
Proof. by destruct (run_frame hav st ops) as (_ & _ & _ & _ & HN). Qed.

(** ** Errors *)

Lemma not_authorized_stranger (owner : string) (assigned : option string) (user : User) :
  owner ≠ u_id user → assigned ≠ Some (u_id user) → u_role user ≠ "admin"%string →
  not_authorized owner assigned user = true.
Proof.
  intros Ho Ha Hr. unfold not_authorized.
  apply String.eqb_neq in Ho as ->. apply String.eqb_neq in Hr as ->. simpl.
  destruct assigned as [a|]; [| done].
  rewrite andb_true_r. apply negb_true_iff, String.eqb_neq. congruence.
Qed.

(** X13: a user who is neither the owner of the document, nor the volunteer
    assigned to it, nor an admin gets 401 from each of the four handlers, and
    the store is left as it was. *)
Theorem unauthorized_requests_rejected hav (st : Store) (id other : string)
    (user : User) :
  u_role user ≠ "admin"%string →
  (∀ e, emergencies st !! id = Some e →
        e_user e ≠ u_id user → e_assignedTo e ≠ Some (u_id user) →
        matchResourcesForEmergency hav st id user = (st, Error 401)
        ∧ updateMatchStatus st id other "accept" user = (st, Error 401)
        ∧ updateMatchStatus st id other "reject" user = (st, Error 401))
  ∧ (∀ r, resources st !! id = Some r →
          r_user r ≠ u_id user → r_assignedTo r ≠ Some (u_id user) →
          matchEmergenciesForResource hav st id user = (st, Error 401)
          ∧ markResourceDelivered st id other user = (st, Error 401)).
Proof.
  intros Hrole. split.
  - intros e He Ho Ha.
    pose proof (not_authorized_stranger _ _ _ Ho Ha Hrole) as Hna.
    unfold matchResourcesForEmergency, updateMatchStatus. simpl negb.
    by rewrite He, Hna.
  - intros r Hr Ho Ha.
    pose proof (not_authorized_stranger _ _ _ Ho Ha Hrole) as Hna.
    unfold matchEmergenciesForResource, markResourceDelivered.
    by rewrite Hr, Hna.
Qed.

Lemma unauthorized_requests_rejected_witness :
  (matchResourcesForEmergency equator_km sample_store "e1" bob = (sample_store, Error 401)
   ∧ updateMatchStatus sample_store "e1" "r7" "accept" bob = (sample_store, Error 401)
   ∧ updateMatchStatus sample_store "e1" "r7" "reject" bob = (sample_store, Error 401))
  ∧ (matchEmergenciesForResource equator_km sample_store "r7" alice
     = (sample_store, Error 401)
     ∧ markResourceDelivered sample_store "r7" "e1" alice = (sample_store, Error 401)).
Proof.
  split.
  - apply (unauthorized_requests_rejected equator_km sample_store "e1" "r7" bob)
      with (e := sample_emergency "e1" NaN); [discriminate | reflexivity | discriminate..].
  - apply (unauthorized_requests_rejected equator_km sample_store "r7" "e1" alice)
      with (r := sample_resource "r7" (Fin 10) 0); [discriminate | reflexivity | discriminate..].
Defined.

(** X14: a request that ends with an [ErrorResponse] (400, 401 or 404) has
    changed nothing: every one of them is raised before the first write. *)
Theorem client_errors_change_nothing hav (st st' : Store) (op : Op) (code : nat) :
  step hav st op = (st', Error code) → st' = st.
Proof.
  intros Hstep. destruct op as [id user | id user | eid rid action user | rid eid user];
    simpl in Hstep.
  - unfold matchResourcesForEmergency in Hstep.
    repeat case_match; by simplify_eq.
  - unfold matchEmergenciesForResource in Hstep.
    repeat case_match; by simplify_eq.
  - unfold updateMatchStatus in Hstep.
    repeat case_match; by simplify_eq.
  - unfold markResourceDelivered in Hstep.
    repeat case_match; by simplify_eq.
Qed.

Lemma client_errors_change_nothing_witness :
  (step equator_km sample_store (Deliver "r7" "e1" bob)).1 = sample_store.
Proof.
  apply (client_errors_change_nothing equator_km sample_store _
           (Deliver "r7" "e1" bob) 404).
  vm_compute. reflexivity.
Defined.

(** ** [updateMatchStatus] on a stored match *)

Lemma updateMatchStatus_reject (st : Store) (eid rid : string) (user : User)
    (e : Emergency) (m : MatchRef) :
  emergencies st !! eid = Some e →
  not_authorized (e_user e) (e_assignedTo e) user = false →
  find_ref rid (e_matchedResources e) = Some m →
  validate_emergency e = true →
  updateMatchStatus st eid rid "reject" user
  = (save_emergency st eid
       (set_matchedResources e
          (update_ref rid (set_status rejected) (e_matchedResources e))), Ok).
Proof.
  intros He Hauth Hm HvE. unfold updateMatchStatus.
  rewrite He, Hauth, Hm. cbn [String.eqb Ascii.eqb Bool.eqb orb negb].
  by rewrite validate_emergency_update_ref, HvE.
Qed.

Lemma updateMatchStatus_accept (st : Store) (eid rid : string) (user : User)
    (e : Emergency) (r : Resource) (m : MatchRef) :
  emergencies st !! eid = Some e →
  not_authorized (e_user e) (e_assignedTo e) user = false →
  find_ref rid (e_matchedResources e) = Some m →
  validate_emergency e = true →
  resources st !! rid = Some r →
  validate_resource r = true →
  updateMatchStatus st eid rid "accept" user
  = (notify
       (save_resource
          (save_emergency st eid
             (set_matchedResources e
                (update_ref rid (set_status accepted) (e_matchedResources e))))
          rid
          (set_matchedEmergencies (set_r_status r "reserved")
             (r_matchedEmergencies r ++ [mkRef (e_id e) accepted (matchScore m)])))
       (mkNotification "match_accepted" (r_user r) (e_id e) (r_id r)), Ok).
Proof.
  intros He Hauth Hm HvE Hr HvR. unfold updateMatchStatus. rewrite He, Hauth, Hm.
  cbn [String.eqb Ascii.eqb Bool.eqb orb negb].
  rewrite validate_emergency_update_ref, HvE. cbn [negb].
  cbn [save_emergency resources]. rewrite Hr.
  rewrite validate_resource_reserved;
    [| done | exact (validate_emergency_score e rid m HvE Hm)].
  reflexivity.
Qed.

(** An accept that finds the resource but cannot save it. *)
Lemma updateMatchStatus_accept_unsaved (st : Store) (eid rid : string) (user : User)
    (e : Emergency) (r : Resource) (m : MatchRef) :
  emergencies st !! eid = Some e →
  not_authorized (e_user e) (e_assignedTo e) user = false →
  find_ref rid (e_matchedResources e) = Some m →
  validate_emergency e = true →
  resources st !! rid = Some r →
  r_address r = None →
  updateMatchStatus st eid rid "accept" user
  = (save_emergency st eid
       (set_matchedResources e
          (update_ref rid (set_status accepted) (e_matchedResources e))),
     Throws ValidationError).
Proof.
  intros He Hauth Hm HvE Hr Ha. unfold updateMatchStatus. rewrite He, Hauth, Hm.
  cbn [String.eqb Ascii.eqb Bool.eqb orb negb].
  rewrite validate_emergency_update_ref, HvE. cbn [negb].
  cbn [save_emergency resources]. rewrite Hr.
  by rewrite no_address_invalid.
Qed.

(** C1: the two copies of a pair do not stay in agreement.  On a pair that
    the emergency holds and the resource does not yet, with documents that
    pass validation, an accept followed by a reject, both by an authorised
    user, both answer 200; after the accept the copies agree, and the reject
    then rewrites the emergency's copy only: the emergency says rejected, the
    resource says accepted and stays reserved. *)
Theorem reject_after_accept (st : Store) (eid rid : string) (user : User)
    (e : Emergency) (r : Resource) (m : MatchRef) :
  emergencies st !! eid = Some e → e_id e = Some eid →
  resources st !! rid = Some r →
  not_authorized (e_user e) (e_assignedTo e) user = false →
  validate_emergency e = true → validate_resource r = true →
  find_ref rid (e_matchedResources e) = Some m →
  find_ref eid (r_matchedEmergencies r) = None →
  let accepted_ := updateMatchStatus st eid rid "accept" user in
  let rejected_ := updateMatchStatus accepted_.1 eid rid "reject" user in
  accepted_.2 = Ok
  ∧ emergency_copy accepted_.1 eid rid = Some (set_status accepted m)
  ∧ resource_copy accepted_.1 eid rid = Some (mkRef (Some eid) accepted (matchScore m))
  ∧ rejected_.2 = Ok
  ∧ emergency_copy rejected_.1 eid rid = Some (set_status rejected m)
  ∧ resource_copy rejected_.1 eid rid = Some (mkRef (Some eid) accepted (matchScore m))
  ∧ (∃ r', resources rejected_.1 !! rid = Some r' ∧ r_status r' = "reserved"%string)
  ∧ ¬ copies_agree rejected_.1.
Proof.
  intros He Hid Hr Hauth HvE HvR Hm HmR accepted_ rejected_.
  subst rejected_ accepted_.
  rewrite (updateMatchStatus_accept st eid rid user e r m) by done.
  cbn [fst snd].
  set (e1 := set_matchedResources e _).
  set (r1 := set_matchedEmergencies _ _).
  set (n := mkNotification _ _ _ _).
  set (st1 := notify _ n).
  assert (He1 : emergencies st1 !! eid = Some e1) by apply lookup_insert_eq.
  assert (Hr1 : resources st1 !! rid = Some r1) by apply lookup_insert_eq.
  assert (Hm1 : find_ref rid (e_matchedResources e1) = Some (set_status accepted m)).
  { by apply find_ref_update_eq. }
  assert (HmR1 : find_ref eid (r_matchedEmergencies r1)
                 = Some (mkRef (Some eid) accepted (matchScore m))).
  { subst r1. cbn [r_matchedEmergencies set_matchedEmergencies].
    rewrite find_ref_snoc, HmR, Hid. by rewrite decide_True. }
  rewrite (updateMatchStatus_reject st1 eid rid user e1 (set_status accepted m));
    [| done | done | done | subst e1; by rewrite validate_emergency_update_ref].
  cbn [fst snd].
  set (e2 := set_matchedResources e1 _).
  set (st2 := save_emergency st1 eid e2).
  assert (Hm2 : emergency_copy st2 eid rid = Some (set_status rejected m)).
  { subst st2. rewrite emergency_copy_save_emergency, decide_True by done.
    subst e2. cbn [e_matchedResources set_matchedResources].
    by rewrite (find_ref_update_eq _ _ _ _ Hm1). }
  assert (HmR2 : resource_copy st2 eid rid
                 = Some (mkRef (Some eid) accepted (matchScore m))).
  { subst st2. rewrite resource_copy_save_emergency.
    by rewrite (resource_copy_lookup st1 eid rid r1). }
  split; [done |].
  split; [by rewrite (emergency_copy_lookup st1 eid rid e1) |].
  split; [by rewrite (resource_copy_lookup st1 eid rid r1) |].
  split; [done |]. split; [exact Hm2 |]. split; [exact HmR2 |].
  split; [by exists r1 |].
  intros Hagree. destruct (Hagree _ _ _ _ Hm2 HmR2) as [Hst _]. discriminate Hst.
Qed.

Lemma reject_after_accept_witness :
  let st := matched_store pending false in
  let accepted_ := updateMatchStatus st "e1" "r7" "accept" alice in
  let rejected_ := updateMatchStatus accepted_.1 "e1" "r7" "reject" alice in
  accepted_.2 = Ok
  ∧ emergency_copy accepted_.1 "e1" "r7"
    = Some (mkRef (Some "r7"%string) accepted (Fin 80))
  ∧ resource_copy accepted_.1 "e1" "r7"
    = Some (mkRef (Some "e1"%string) accepted (Fin 80))
  ∧ rejected_.2 = Ok
  ∧ emergency_copy rejected_.1 "e1" "r7"
    = Some (mkRef (Some "r7"%string) rejected (Fin 80))
  ∧ resource_copy rejected_.1 "e1" "r7"
    = Some (mkRef (Some "e1"%string) accepted (Fin 80))
  ∧ (∃ r', resources rejected_.1 !! "r7"%string = Some r'
           ∧ r_status r' = "reserved"%string)
  ∧ ¬ copies_agree rejected_.1.
Proof.
  apply (reject_after_accept (matched_store pending false) "e1" "r7" alice
           (set_matchedResources (sample_emergency "e1" NaN)
              [mkRef (Some "r7"%string) pending (Fin 80)])
           (sample_resource "r7" (Fin 10) 0)
           (mkRef (Some "r7"%string) pending (Fin 80))); reflexivity.
Defined.

(** C2: accept and reject do not look at the status the pair is in.  For a
    stored match in any status, with documents that pass validation, an
    accept by an authorised user answers 200, sets the emergency's copy to
    accepted and the resource to reserved, and appends one more copy to the
    resource; a reject answers 200 and sets the emergency's copy to rejected;
    and [updateResourceMatch] writes whatever status it is given.  In
    particular each of them succeeds on a pair that is already accepted,
    rejected or delivered. *)
Theorem accept_after_delivery (isValid : string → bool) (st : Store)
    (eid rid : string) (user : User) (e : Emergency) (r : Resource) (m : MatchRef) :
  emergencies st !! eid = Some e →
  resources st !! rid = Some r →
  not_authorized (e_user e) (e_assignedTo e) user = false →
  validate_emergency e = true → validate_resource r = true →
  find_ref rid (e_matchedResources e) = Some m →
  isValid eid = true →
  let accepted_ := updateMatchStatus st eid rid "accept" user in
  let rejected_ := updateMatchStatus st eid rid "reject" user in
  (accepted_.2 = Ok
   ∧ emergency_copy accepted_.1 eid rid = Some (set_status accepted m)
   ∧ resources accepted_.1 !! rid
     = Some (set_matchedEmergencies (set_r_status r "reserved")
               (r_matchedEmergencies r ++ [mkRef (e_id e) accepted (matchScore m)])))
  ∧ (rejected_.2 = Ok
     ∧ emergency_copy rejected_.1 eid rid = Some (set_status rejected m)
     ∧ resources rejected_.1 = resources st)
  ∧ ∀ s, let updated := updateResourceMatch isValid st eid rid s in
         updated.2 = Ok
         ∧ emergency_copy updated.1 eid rid = Some (set_status s m)
         ∧ resources updated.1 = resources st.
Proof.
  intros He Hr Hauth HvE HvR Hm Hvalid accepted_ rejected_.
  subst accepted_ rejected_.
  rewrite (updateMatchStatus_accept st eid rid user e r m) by done.
  rewrite (updateMatchStatus_reject st eid rid user e m) by done.
  cbn [fst snd]. split; [| split].
  - split; [done |]. split.
    + rewrite emergency_copy_notify, emergency_copy_save_resource,
        emergency_copy_save_emergency, decide_True by done.
      by apply find_ref_update_eq.
    + apply lookup_insert_eq.
  - split; [done |]. split; [| done].
    rewrite emergency_copy_save_emergency, decide_True by done.
    by apply find_ref_update_eq.
  - intros s. unfold updateResourceMatch, getById.
    rewrite Hvalid, He. cbn [negb].
    unfold find_ref in Hm.
    destruct (list_find (is_ref_of rid) (e_matchedResources e)) as [[i x]|] eqn:Hfind;
      [| discriminate Hm].
    simpl in Hm. injection Hm as ->.
    rewrite (update_ref_alter _ _ _ _ _ Hfind), validate_emergency_update_ref, HvE.
    cbn [fst snd]. split; [done |]. split; [| done].
    rewrite emergency_copy_save_emergency, decide_True by done.
    apply find_ref_update_eq. unfold find_ref. by rewrite Hfind.
Qed.

Lemma accept_after_delivery_witness :
  let st := matched_store delivered true in
  let accepted_ := updateMatchStatus st "e1" "r7" "accept" alice in
  let rejected_ := updateMatchStatus st "e1" "r7" "reject" alice in
  (accepted_.2 = Ok
   ∧ emergency_copy accepted_.1 "e1" "r7"
     = Some (mkRef (Some "r7"%string) accepted (Fin 80))
   ∧ resources accepted_.1 !! "r7"%string
     = Some (set_matchedEmergencies
               (set_r_status (sample_resource "r7" (Fin 10) 0) "reserved")
               [mkRef (Some "e1"%string) delivered (Fin 80);
                mkRef (Some "e1"%string) accepted (Fin 80)]))
  ∧ (rejected_.2 = Ok
     ∧ emergency_copy rejected_.1 "e1" "r7"
       = Some (mkRef (Some "r7"%string) rejected (Fin 80))
     ∧ resources rejected_.1 = resources st)
  ∧ ∀ s, let updated := updateResourceMatch (λ _, true) st "e1" "r7" s in
         updated.2 = Ok
         ∧ emergency_copy updated.1 "e1" "r7" = Some (mkRef (Some "r7"%string) s (Fin 80))
         ∧ resources updated.1 = resources st.
Proof.
  apply (accept_after_delivery (λ _, true) (matched_store delivered true) "e1" "r7" alice
           (set_matchedResources (sample_emergency "e1" NaN)
              [mkRef (Some "r7"%string) delivered (Fin 80)])
           (set_matchedEmergencies
              (set_r_status (sample_resource "r7" (Fin 10) 0) "delivered")
              [mkRef (Some "e1"%string) delivered (Fin 80)])
           (mkRef (Some "r7"%string) delivered (Fin 80))); reflexivity.
Defined.

(** C10: nothing makes accept exclusive or its writes one unit.  Two accepts
    of the same pair by an authorised user, one after the other, both answer
    200: the resource is reserved, holds two accepted copies of the pair and
    its owner is notified twice.  And the two writes of one accept are
    separate saves: when the resource cannot be saved (it has no address) the
    request ends in a validation error after the emergency's copy has been
    written as accepted, with the resource as it was. *)
Theorem accept_twice_both_succeed (st : Store) (eid rid : string) (user : User)
    (e : Emergency) (r : Resource) (m : MatchRef) :
  emergencies st !! eid = Some e →
  resources st !! rid = Some r →
  not_authorized (e_user e) (e_assignedTo e) user = false →
  validate_emergency e = true →
  find_ref rid (e_matchedResources e) = Some m →
  let first := updateMatchStatus st eid rid "accept" user in
  let second := updateMatchStatus first.1 eid rid "accept" user in
  let copy := mkRef (e_id e) accepted (matchScore m) in
  let notification := mkNotification "match_accepted" (r_user r) (e_id e) (r_id r) in
  (validate_resource r = true →
   first.2 = Ok ∧ second.2 = Ok
   ∧ resources second.1 !! rid
     = Some (set_matchedEmergencies (set_r_status r "reserved")
               (r_matchedEmergencies r ++ [copy; copy]))
   ∧ emergency_copy second.1 eid rid = Some (set_status accepted m)
   ∧ notifications second.1 = notifications st ++ [notification; notification])
  ∧ (r_address r = None →
     first.2 = Throws ValidationError
     ∧ emergency_copy first.1 eid rid = Some (set_status accepted m)
     ∧ resources first.1 = resources st
     ∧ notifications first.1 = notifications st).
Proof.
  intros He Hr Hauth HvE Hm first second copy notification. split.
  - intros HvR. subst second first.
    rewrite (updateMatchStatus_accept st eid rid user e r m) by done.
    cbn [fst snd].
    set (e1 := set_matchedResources e _).
    set (r1 := set_matchedEmergencies _ _).
    set (st1 := notify _ _).
    assert (He1 : emergencies st1 !! eid = Some e1) by apply lookup_insert_eq.
    assert (Hr1 : resources st1 !! rid = Some r1) by apply lookup_insert_eq.
    assert (Hm1 : find_ref rid (e_matchedResources e1) = Some (set_status accepted m)).
    { by apply find_ref_update_eq. }
    assert (HvE1 : validate_emergency e1 = true).
    { subst e1. by rewrite validate_emergency_update_ref. }
    assert (HvR1 : validate_resource r1 = true).
    { apply validate_resource_reserved; [done |].
      exact (validate_emergency_score e rid m HvE Hm). }
    rewrite (updateMatchStatus_accept st1 eid rid user e1 r1 (set_status accepted m))
      by done.
    cbn [fst snd]. split; [done |]. split; [done |]. split; [| split].
    + cbn [notify save_resource resources]. rewrite lookup_insert_eq. f_equal.
      subst r1. unfold set_matchedEmergencies, set_r_status. cbn. f_equal.
      by rewrite <- app_assoc.
    + rewrite emergency_copy_notify, emergency_copy_save_resource,
        emergency_copy_save_emergency, decide_True by done.
      cbn [e_matchedResources set_matchedResources].
      by rewrite (find_ref_update_eq _ _ _ _ Hm1).
    + cbn [notify save_resource save_emergency notifications]. subst st1.
      cbn [notify save_resource save_emergency notifications].
      by rewrite <- app_assoc.
  - intros Ha. subst first.
    rewrite (updateMatchStatus_accept_unsaved st eid rid user e r m) by done.
    cbn [fst snd]. split; [done |]. split; [| done].
    rewrite emergency_copy_save_emergency, decide_True by done.
    by apply find_ref_update_eq.
Qed.

Lemma accept_twice_both_succeed_witness :
  (let st := matched_store pending false in
   let first := updateMatchStatus st "e1" "r7" "accept" alice in
   let second := updateMatchStatus first.1 "e1" "r7" "accept" alice in
   let copy := mkRef (Some "e1"%string) accepted (Fin 80) in
   let notification :=
     mkNotification "match_accepted" "bob" (Some "e1"%string) (Some "r7"%string) in
   first.2 = Ok ∧ second.2 = Ok
   ∧ resources second.1 !! "r7"%string
     = Some (set_matchedEmergencies
               (set_r_status (sample_resource "r7" (Fin 10) 0) "reserved") [copy; copy])
   ∧ emergency_copy second.1 "e1" "r7" = Some (mkRef (Some "r7"%string) accepted (Fin 80))
   ∧ notifications second.1 = [notification; notification])
  ∧ (let first := updateMatchStatus created_store "e1" "r7" "accept" alice in
     first.2 = Throws ValidationError
     ∧ emergency_copy first.1 "e1" "r7"
       = Some (mkRef (Some "r7"%string) accepted (Fin 80))
     ∧ resources first.1 = resources created_store
     ∧ notifications first.1 = notifications created_store).
Proof.
  split.
  - refine (proj1 (accept_twice_both_succeed (matched_store pending false) "e1" "r7" alice
             (set_matchedResources (sample_emergency "e1" NaN)
                [mkRef (Some "r7"%string) pending (Fin 80)])
             (sample_resource "r7" (Fin 10) 0)
             (mkRef (Some "r7"%string) pending (Fin 80)) _ _ _ _ _) _); reflexivity.
  - refine (proj2 (accept_twice_both_succeed created_store "e1" "r7" alice
             (set_matchedResources (sample_emergency "e1" NaN)
                [mkRef (Some "r7"%string) pending (Fin 80)])
             (created (sample_resource "r7" (Fin 10) 0))
             (mkRef (Some "r7"%string) pending (Fin 80)) _ _ _ _ _) _); reflexivity.
Defined.

(** ** What the ranking handlers store *)




Lemma ranked_ref_available hav (st : Store) (e : Emergency) (maxD : num)
    (rid : string) (mE : MatchRef) :
  well_keyed st →
  find_ref rid
    (map (λ m, mkRef (r_id (rm_resource m)) pending (rm_matchScore m))
       (matchResourcesToEmergency hav e
          (filter (λ r, r_status r = "available"%string) (map_to_list (resources st)).*2)
          maxD)) = Some mE →
  ∃ r, resources st !! rid = Some r ∧ r_status r = "available"%string.
Proof.
  intros [_ HR] [Hin Hc]%find_ref_Some.
  apply list_elem_of_fmap in Hin as (m & -> & Hm). simpl in Hc.
  apply matchResourcesToEmergency_elem in Hm as (Hpool & Hav & _).
  apply list_elem_of_filter in Hpool as [_ Hpool].
  apply list_elem_of_fmap in Hpool as ([k r] & Hr & Hk). simpl in Hr. subst r.
  apply elem_of_map_to_list in Hk.
  exists (rm_resource m). split; [| done].
  pose proof (HR _ _ Hk) as Hid. rewrite Hc in Hid. by injection Hid as ->.
Qed.

(** The score of a stored emergency: it has no [quantity], the ratio is NaN
    and so is the score, for every candidate that is not a fixture. *)
Lemma quantityScore_NaN (have : num) : quantityScore have NaN = NaN.
Proof. unfold quantityScore. by rewrite num_div_NaN_r, num_mul_NaN_r. Qed.

Lemma resourceScore_NaN (d maxD have : num) : resourceScore d maxD have NaN = NaN.
Proof.
  unfold resourceScore. by rewrite quantityScore_NaN, num_mul_NaN_l, num_add_NaN_r.
Qed.

Lemma score_resource_document hav (e : Emergency) (maxD : num) (r : Resource)
    (m : ResourceMatch) :
  score_resource hav (document e) maxD r = Some (Some m) →
  fixture (r_id r) ∨ rm_matchScore m = NaN.
Proof.
  intros Hs.
  destruct (decide (r_id r = Some "resource1"%string)) as [H1|H1]; [by left; left |].
  destruct (decide (r_id r = Some "resource2"%string)) as [H2|H2]; [by left; right |].
  right. destruct (score_resource_computed _ _ _ _ _ H1 H2 Hs) as (d & _ & _ & ->).
  cbn [rm_matchScore document with_quantity e_quantity]. apply resourceScore_NaN.
Qed.

Lemma valid_matchScore_NaN : valid_matchScore NaN = false.
Proof. reflexivity. Qed.

Lemma validate_emergency_refs (e : Emergency) (refs : list MatchRef) (m : MatchRef) :
  validate_emergency (set_matchedResources e refs) = true → m ∈ refs →
  valid_matchScore (matchScore m) = true.
Proof.
  unfold validate_emergency. intros [_ Hall]%andb_true_iff Hm.
  cbn [e_matchedResources set_matchedResources] in Hall.
  rewrite forallb_forall in Hall. apply Hall. by apply list_elem_of_In.
Qed.

Lemma validate_emergency_set (e : Emergency) (refs : list MatchRef) :
  validate_emergency (set_matchedResources e refs)
  = e_restValid e && forallb (λ m, valid_matchScore (matchScore m)) refs.
Proof. reflexivity. Qed.

Lemma matchResourcesForEmergency_Ok hav (st st' : Store) (id : string) (user : User) :
  matchResourcesForEmergency hav st id user = (st', Ok) →
  ∃ e, emergencies st !! id = Some e
       ∧ not_authorized (e_user e) (e_assignedTo e) user = false
       ∧ let refs :=
           map (λ m, mkRef (r_id (rm_resource m)) pending (rm_matchScore m))
             (matchResourcesToEmergency hav (document e)
                (filter (λ r, r_status r = "available"%string)
                   (map_to_list (resources st)).*2) (Fin 50)) in
         validate_emergency (set_matchedResources e refs) = true
         ∧ st' = save_emergency st id (set_matchedResources e refs).
Proof.
  unfold matchResourcesForEmergency. intros H.
  destruct (emergencies st !! id) as [e|] eqn:He; [| done].
  destruct (not_authorized _ _ user) eqn:Hauth; [done |].
  destruct (validate_emergency _) eqn:Hv; [| done]. injection H as <-.
  exists e. by repeat split.
Qed.



(** X16: ranking again forgets what was decided.  After a successful
    [matchResourcesForEmergency] the emergency holds no match for any
    resource that is not available, so a match that had been accepted or
    delivered (its resource is then reserved or delivered) is gone from the
    emergency. *)
Theorem reranking_forgets_decided hav (st st' : Store) (id rid : string)
    (user : User) (r : Resource) :
  well_keyed st →
  matchResourcesForEmergency hav st id user = (st', Ok) →
  resources st !! rid = Some r → r_status r ≠ "available"%string →
  emergency_copy st' id rid = None.
Proof.
  intros HK (e & He & _ & _ & ->)%matchResourcesForEmergency_Ok Hr Hst.
  rewrite emergency_copy_save_emergency, decide_True by done. simpl.
  destruct (find_ref rid _) as [mE|] eqn:HmE; [| done]. exfalso.
  destruct (ranked_ref_available _ _ _ _ _ _ HK HmE) as (r' & Hr' & Hav).
  congruence.
Qed.

Lemma reranking_forgets_decided_witness :
  let st := matched_store accepted true in
  emergency_copy st "e1" "r7" = Some (mkRef (Some "r7"%string) accepted (Fin 80))
  ∧ emergency_copy (matchResourcesForEmergency equator_km st "e1" alice).1 "e1" "r7" = None.
Proof.
  intros st. split; [reflexivity |].
  apply (reranking_forgets_decided equator_km st _ "e1" "r7" alice
           (set_matchedEmergencies
              (set_r_status (sample_resource "r7" (Fin 10) 0) "reserved")
              [mkRef (Some "e1"%string) accepted (Fin 80)])).
  - apply matched_store_well_keyed.
  - reflexivity.
  - reflexivity.
  - discriminate.
Defined.



(** X28: what the ranking handlers can store.  The documents they rank are
    stored emergencies, which have no [quantity]: every computed score is NaN
    and the filter on quantities lets no emergency through.  So a
    [matchResourcesForEmergency] that finds a candidate other than the two
    fixtures ends in a validation error and leaves the store as it was, a
    successful one stores matches of the fixtures only, and a successful
    [matchEmergenciesForResource], in a store whose documents are filed under
    their own ids, stores the empty list. *)
Theorem rankings_of_stored_documents hav (st : Store) (id : string) (user : User) :
  (∀ e m, emergencies st !! id = Some e →
          not_authorized (e_user e) (e_assignedTo e) user = false →
          m ∈ matchResourcesToEmergency hav (document e)
                (filter (λ r, r_status r = "available"%string)
                   (map_to_list (resources st)).*2) (Fin 50) →
          ¬ fixture (r_id (rm_resource m)) →
          matchResourcesForEmergency hav st id user = (st, Throws ValidationError))
  ∧ (∀ st' e', matchResourcesForEmergency hav st id user = (st', Ok) →
               emergencies st' !! id = Some e' →
               Forall (λ m, fixture (counterpart m) ∧ status m = pending)
                 (e_matchedResources e'))
  ∧ (∀ st', well_keyed st →
            matchEmergenciesForResource hav st id user = (st', Ok) →
            ∃ r, resources st !! id = Some r
                 ∧ st' = save_resource st id (set_matchedEmergencies r [])).
Proof.
  split; [| split].
  - intros e m He Hauth Hm Hfix. unfold matchResourcesForEmergency.
    rewrite He, Hauth. cbv zeta.
    destruct (validate_emergency _) eqn:Hv; [| done]. exfalso.
    assert (Hs : valid_matchScore (rm_matchScore m) = true).
    { apply (validate_emergency_refs _ _
               (mkRef (r_id (rm_resource m)) pending (rm_matchScore m)) Hv).
      apply list_elem_of_fmap. by exists m. }
    apply matchResourcesToEmergency_elem in Hm as (_ & _ & Hsc).
    destruct (score_resource_document _ _ _ _ _ Hsc) as [? | Hnan]; [done |].
    rewrite Hnan in Hs. discriminate Hs.
  - intros st' e' (e & He & _ & Hv & ->)%matchResourcesForEmergency_Ok He'.
    cbn [save_emergency emergencies] in He'. rewrite lookup_insert_eq in He'.
    injection He' as <-. cbn [e_matchedResources set_matchedResources].
    apply Forall_forall. intros ref Href.
    pose proof (validate_emergency_refs _ _ _ Hv Href) as Hs.
    apply list_elem_of_fmap in Href as (m & -> & Hm). split; [| done].
    cbn [counterpart matchScore] in *.
    apply matchResourcesToEmergency_elem in Hm as (_ & _ & Hsc).
    destruct (score_resource_document _ _ _ _ _ Hsc) as [? | Hnan]; [done |].
    rewrite Hnan in Hs. discriminate Hs.
  - intros st' [_ HKR]. unfold matchEmergenciesForResource. intros H.
    destruct (resources st !! id) as [r|] eqn:Hr; [| done].
    destruct (not_authorized _ _ user); [done |].
    destruct (validate_resource _); [| done]. injection H as <-.
    exists r. split; [done |]. f_equal. f_equal.
    destruct (matchEmergenciesToResource hav r _ (Fin 50)) as [|x l] eqn:Hl; [done |].
    exfalso.
    assert (Hx : x ∈ matchEmergenciesToResource hav r
                       (document <$> filter (λ e, e_status e = "active"%string)
                                       (map_to_list (emergencies st)).*2) (Fin 50)).
    { rewrite Hl. left. }
    apply matchEmergenciesToResource_filter in Hx as (Hpool & _ & _ & Hq).
    + apply list_elem_of_fmap in Hpool as (e & He & _). rewrite He in Hq.
      discriminate Hq.
    + unfold mock_pool. by rewrite (HKR _ _ Hr).
Qed.

Lemma rankings_of_stored_documents_witness :
  matchResourcesForEmergency equator_km sample_store "e1" alice
  = (sample_store, Throws ValidationError).
Proof.
  refine (proj1 (rankings_of_stored_documents equator_km sample_store "e1" alice)
            (sample_emergency "e1" NaN)
            (mkRM (sample_resource "r7" (Fin 10) 0) (Fin 0) NaN) _ _ _ _).
  - reflexivity.
  - reflexivity.
  - vm_compute. left.
  - intros [H | H]; discriminate H.
Defined.

(** ** How rankings compose *)

Lemma matchResourcesForEmergency_lookup_ne hav (st : Store) (id id' : string)
    (user : User) :
  id ≠ id' →
  emergencies (matchResourcesForEmergency hav st id user).1 !! id'
  = emergencies st !! id'.
Proof.
  intros Hne. unfold matchResourcesForEmergency.
  destruct (emergencies st !! id) as [e|]; [| done].
  destruct (not_authorized _ _ user); [done |].
  destruct (validate_emergency _); [| done]. simpl. by rewrite lookup_insert_ne.
Qed.

Lemma matchResourcesForEmergency_resources hav (st : Store) (id : string) (user : User) :
  resources (matchResourcesForEmergency hav st id user).1 = resources st.
Proof.
  unfold matchResourcesForEmergency.
  destruct (emergencies st !! id) as [e|]; [| done].
  destruct (not_authorized _ _ user); [done |].
  by destruct (validate_emergency _).
Qed.

(** X26: ranking resources for an emergency twice in a row is the same as
    ranking once: the second request gives the same answer and leaves the
    store of the first. *)
Theorem ranking_twice_is_ranking_once hav (st : Store) (id : string) (user : User) :
  matchResourcesForEmergency hav (matchResourcesForEmergency hav st id user).1 id user
  = matchResourcesForEmergency hav st id user.
Proof.
  unfold matchResourcesForEmergency at 2 3.
  destruct (emergencies st !! id) as [e|] eqn:He.
  2: { cbn [fst]. unfold matchResourcesForEmergency. by rewrite He. }
  destruct (not_authorized _ _ user) eqn:Hauth.
  { cbn [fst]. unfold matchResourcesForEmergency. by rewrite He, Hauth. }
  cbv zeta. set (pool := filter _ _). set (refs := map _ _).
  destruct (validate_emergency (set_matchedResources e refs)) eqn:Hv.
  2: { cbn [fst]. unfold matchResourcesForEmergency. rewrite He, Hauth. cbv zeta.
       fold pool. fold refs. by rewrite Hv. }
  cbn [fst]. unfold matchResourcesForEmergency.
  change (emergencies (save_emergency st id ?x)) with (<[id := x]> (emergencies st)).
  change (resources (save_emergency st id ?x)) with (resources st).
  rewrite lookup_insert_eq.
  change (e_user (set_matchedResources e refs)) with (e_user e).
  change (e_assignedTo (set_matchedResources e refs)) with (e_assignedTo e).
  rewrite Hauth. cbv zeta. fold pool.
  change (matchResourcesToEmergency hav (document (set_matchedResources e refs)) pool
            (Fin 50))
    with (matchResourcesToEmergency hav (document e) pool (Fin 50)).
  fold refs.
  change (set_matchedResources (set_matchedResources e refs) refs)
    with (set_matchedResources e refs).
  rewrite Hv. f_equal. unfold save_emergency.
  cbn [emergencies resources notifications].
  by rewrite insert_insert_eq.
Qed.

(** X27: rankings for two different emergencies do not interfere: requested
    in either order they leave the same store, and each gets the answer it
    would get alone. *)
Theorem rankings_commute hav (st : Store) (id1 id2 : string) (user1 user2 : User) :
  id1 ≠ id2 →
  let first1 := matchResourcesForEmergency hav st id1 user1 in
  let first2 := matchResourcesForEmergency hav st id2 user2 in
  (matchResourcesForEmergency hav first1.1 id2 user2).1
  = (matchResourcesForEmergency hav first2.1 id1 user1).1
  ∧ (matchResourcesForEmergency hav first1.1 id2 user2).2 = first2.2
  ∧ (matchResourcesForEmergency hav first2.1 id1 user1).2 = first1.2.
Proof.
  intros Hne first1 first2.
  pose proof (matchResourcesForEmergency_lookup_ne hav st id1 id2 user1 Hne) as H12.
  pose proof (matchResourcesForEmergency_lookup_ne hav st id2 id1 user2
                (not_eq_sym Hne)) as H21.
  pose proof (matchResourcesForEmergency_resources hav st id1 user1) as HR1.
  pose proof (matchResourcesForEmergency_resources hav st id2 user2) as HR2.
  fold first1 in H12, HR1. fold first2 in H21, HR2.
  unfold matchResourcesForEmergency at 1 2 3 4. rewrite H12, H21, HR1, HR2.
  subst first1 first2. unfold matchResourcesForEmergency.
  destruct (emergencies st !! id1) as [e1|] eqn:He1;
    destruct (emergencies st !! id2) as [e2|] eqn:He2; try done.
  destruct (not_authorized _ _ user1); destruct (not_authorized _ _ user2); try done.
  cbv zeta.
  destruct (validate_emergency (set_matchedResources e1 _));
    destruct (validate_emergency (set_matchedResources e2 _)); try done.
  cbn [fst snd]. split; [| done]. unfold save_emergency.
  cbn [emergencies resources notifications]. f_equal.
  by apply insert_insert_ne.
Qed.

Lemma rankings_commute_witness :
  let st := mkStore {[ "e1"%string := sample_emergency "e1" NaN;
                       "e2"%string := sample_emergency "e2" NaN ]}
                    {[ "r7"%string := set_r_status (sample_resource "r7" (Fin 10) 0)
                                        "reserved" ]} [] in
  run equator_km st [RankResources "e1" alice; RankResources "e2" alice]
  = run equator_km st [RankResources "e2" alice; RankResources "e1" alice].
Proof.
  intros st.
  apply (rankings_commute equator_km st "e1" "e2" alice alice). discriminate.
Defined.

(** ** What accept and reject write *)

(** X18: a successful accept sets the emergency's copy of the pair to
    accepted whatever its status was, sets the resource to reserved, appends
    one accepted copy with the emergency's stored score to the resource's
    matches, and appends one ['match_accepted'] notification addressed to the
    owner of the resource. *)
Theorem accept_effect (st st' : Store) (eid rid : string) (user : User) :
  updateMatchStatus st eid rid "accept" user = (st', Ok) →
  ∃ e r m,
    emergencies st !! eid = Some e
    ∧ resources st !! rid = Some r
    ∧ emergency_copy st eid rid = Some m
    ∧ emergency_copy st' eid rid = Some (set_status accepted m)
    ∧ resources st' !! rid
      = Some (set_matchedEmergencies (set_r_status r "reserved")
                (r_matchedEmergencies r ++ [mkRef (e_id e) accepted (matchScore m)]))
    ∧ notifications st'
      = notifications st ++ [mkNotification "match_accepted" (r_user r) (e_id e) (r_id r)].
Proof.
  unfold updateMatchStatus. simpl negb. cbv iota. intros H.
  destruct (emergencies st !! eid) as [e|] eqn:He; [| done].
  destruct (not_authorized _ _ user); [done |].
  destruct (find_ref rid (e_matchedResources e)) as [m|] eqn:Hm; [| done].
  cbv zeta in H.
  destruct (negb (validate_emergency _)); [done |].
  simpl String.eqb in H. cbv iota in H.
  change (resources (save_emergency st eid ?x)) with (resources st) in H.
  destruct (resources st !! rid) as [r|] eqn:Hr; [| done].
  destruct (negb (validate_resource _)); [done |].
  injection H as <-.
  exists e, r, m. split; [done |]. split; [done |].
  split; [by rewrite (emergency_copy_lookup _ _ _ _ He) |].
  split; [| split; [| done]].
  - rewrite emergency_copy_notify, emergency_copy_save_resource.
    rewrite emergency_copy_save_emergency, decide_True by done. simpl.
    by apply find_ref_update_eq.
  - simpl. apply lookup_insert_eq.
Qed.

Lemma accept_effect_witness :
  let st := matched_store pending false in
  ∃ e r m,
    emergencies st !! "e1"%string = Some e
    ∧ resources st !! "r7"%string = Some r
    ∧ emergency_copy st "e1" "r7" = Some m
    ∧ emergency_copy (updateMatchStatus st "e1" "r7" "accept" alice).1 "e1" "r7"
      = Some (set_status accepted m)
    ∧ resources (updateMatchStatus st "e1" "r7" "accept" alice).1 !! "r7"%string
      = Some (set_matchedEmergencies (set_r_status r "reserved")
                (r_matchedEmergencies r ++ [mkRef (e_id e) accepted (matchScore m)]))
    ∧ notifications (updateMatchStatus st "e1" "r7" "accept" alice).1
      = notifications st ++ [mkNotification "match_accepted" (r_user r) (e_id e) (r_id r)].
Proof.
  intros st. apply (accept_effect st _ "e1" "r7" alice). vm_compute. reflexivity.
Defined.



(** ** The status setter of the service *)

(** X22: [updateResourceMatch] answers 400 and changes nothing when the id
    of the emergency is not a valid ObjectId, and 404 when the id is valid
    and the emergency does not exist or holds no copy of the pair.  Otherwise
    it ends in a validation error, with nothing changed, when the emergency
    does not pass validation, and else succeeds for any of the four statuses,
    whatever the current one, and writes the emergency's copy of that pair
    only: the copies of the emergency's other pairs, every resource (so the
    resource's copy of the pair too) and the notifications stay as they
    were. *)
Theorem updateResourceMatch_effect (isValid : string → bool) (st : Store)
    (eid rid : string) (s : MatchStatus) :
  (isValid eid = false → updateResourceMatch isValid st eid rid s = (st, Error 400))
  ∧ (isValid eid = true → emergency_copy st eid rid = None →
     updateResourceMatch isValid st eid rid s = (st, Error 404))
  ∧ (isValid eid = true →
     ∀ e m, emergencies st !! eid = Some e →
            find_ref rid (e_matchedResources e) = Some m →
            (validate_emergency e = false →
             updateResourceMatch isValid st eid rid s = (st, Throws ValidationError))
            ∧ (validate_emergency e = true →
               ∃ st', updateResourceMatch isValid st eid rid s = (st', Ok)
                      ∧ emergency_copy st' eid rid = Some (set_status s m)
                      ∧ (∀ rid', rid' ≠ rid →
                                 emergency_copy st' eid rid' = emergency_copy st eid rid')
                      ∧ resources st' = resources st
                      ∧ notifications st' = notifications st)).
Proof.
  unfold updateResourceMatch, getById. split; [| split].
  - by intros ->.
  - intros ->. cbn [negb]. unfold emergency_copy.
    destruct (emergencies st !! eid) as [e|] eqn:He; simpl; [| done].
    unfold find_ref.
    by destruct (list_find (is_ref_of rid) (e_matchedResources e)) as [[i x]|].
  - intros -> e m He Hm. cbn [negb]. rewrite He.
    pose proof Hm as Hm'. unfold find_ref in Hm'.
    destruct (list_find (is_ref_of rid) (e_matchedResources e)) as [[i x]|] eqn:Hfind;
      [| discriminate Hm'].
    simpl in Hm'. injection Hm' as ->.
    rewrite (update_ref_alter _ _ _ _ _ Hfind), validate_emergency_update_ref.
    split; [by intros -> |]. intros ->.
    eexists. split; [reflexivity |]. split; [| split; [| done]].
    + rewrite emergency_copy_save_emergency, decide_True by done. simpl.
      by apply find_ref_update_eq.
    + intros rid' Hne. rewrite emergency_copy_save_emergency, decide_True by done.
      simpl. rewrite find_ref_update_ne by done.
      by rewrite (emergency_copy_lookup _ _ _ _ He).
Qed.

Lemma updateResourceMatch_effect_witness :
  let id := "64b7f0c2a1d3e4f5a6b7c8d9"%string in
  let e := set_matchedResources (sample_emergency id NaN)
             [mkRef (Some "r7"%string) accepted (Fin 80)] in
  let st := mkStore {[ id := e ]} (resources (matched_store accepted true)) [] in
  updateResourceMatch hex24 (matched_store accepted true) "e1" "r7" delivered
  = (matched_store accepted true, Error 400)
  ∧ updateResourceMatch hex24 st id "r8" delivered = (st, Error 404)
  ∧ ∃ st', updateResourceMatch hex24 st id "r7" delivered = (st', Ok)
           ∧ emergency_copy st' id "r7" = Some (mkRef (Some "r7"%string) delivered (Fin 80))
           ∧ (∀ rid', rid' ≠ "r7"%string →
                      emergency_copy st' id rid' = emergency_copy st id rid')
           ∧ resources st' = resources st
           ∧ notifications st' = notifications st.
Proof.
  intros id e st. split; [| split].
  - apply (updateResourceMatch_effect hex24 (matched_store accepted true) "e1" "r7"
             delivered). reflexivity.
  - apply (updateResourceMatch_effect hex24 st id "r8" delivered); reflexivity.
  - refine (proj2 (proj2 (proj2 (updateResourceMatch_effect hex24 st id "r7" delivered))
                     _ e (mkRef (Some "r7"%string) accepted (Fin 80)) _ _) _);
      reflexivity.
Defined.

(** ** Writes that are not undone *)

(** X23: the two writes of a transition are not undone when the second one
    fails.  An accept for a pair whose resource document does not exist
    throws on [resource.status], yet the emergency's copy is left accepted; a
    deliver for a pair whose emergency document does not exist throws on
    [emergency.matchedResources], yet the resource and its copy are left
    delivered.  The documents written are taken to pass validation. *)
Theorem half_applied_writes (st : Store) (eid rid : string) (user : User) :
  (∀ e m, emergencies st !! eid = Some e →
          not_authorized (e_user e) (e_assignedTo e) user = false →
          validate_emergency e = true →
          emergency_copy st eid rid = Some m →
          resources st !! rid = None →
          ∃ st', updateMatchStatus st eid rid "accept" user = (st', Throws TypeError)
                 ∧ emergency_copy st' eid rid = Some (set_status accepted m))
  ∧ (∀ r m, resources st !! rid = Some r →
            not_authorized (r_user r) (r_assignedTo r) user = false →
            validate_resource r = true →
            resource_copy st eid rid = Some m → status m = accepted →
            emergencies st !! eid = None →
            ∃ st', markResourceDelivered st rid eid user = (st', Throws TypeError)
                   ∧ resource_copy st' eid rid = Some (set_status delivered m)
                   ∧ r_status <$> resources st' !! rid = Some "delivered"%string).
Proof.
  split.
  - intros e m He Hauth Hv Hm Hr. rewrite (emergency_copy_lookup _ _ _ _ He) in Hm.
    unfold updateMatchStatus. simpl negb. cbv iota. rewrite He, Hauth, Hm.
    cbv zeta. simpl String.eqb. cbv iota.
    rewrite validate_emergency_update_ref, Hv. cbn [negb].
    change (resources (save_emergency st eid ?x)) with (resources st). rewrite Hr.
    eexists. split; [reflexivity |].
    rewrite emergency_copy_save_emergency, decide_True by done. simpl.
    by apply find_ref_update_eq.
  - intros r m Hr Hauth Hv Hm Hst He. rewrite (resource_copy_lookup _ _ _ _ Hr) in Hm.
    unfold markResourceDelivered. rewrite Hr, Hauth, Hm, Hst. simpl negb. cbv iota.
    cbv zeta. rewrite validate_resource_delivered by done. cbn [negb].
    change (emergencies (save_resource st rid ?x)) with (emergencies st). rewrite He.
    eexists. split; [reflexivity |]. split.
    + rewrite resource_copy_save_resource, decide_True by done. simpl.
      by apply find_ref_update_eq.
    + simpl. by rewrite lookup_insert_eq.
Qed.

Lemma half_applied_writes_witness :
  let st := mkStore {[ "e1"%string :=
                         set_matchedResources (sample_emergency "e1" NaN)
                           [mkRef (Some "gone"%string) pending (Fin 70)] ]} ∅ [] in
  ∃ st', updateMatchStatus st "e1" "gone" "accept" alice = (st', Throws TypeError)
         ∧ emergency_copy st' "e1" "gone"
           = Some (set_status accepted (mkRef (Some "gone"%string) pending (Fin 70))).
Proof.
  intros st.
  apply (proj1 (half_applied_writes st "e1" "gone" alice)
           (set_matchedResources (sample_emergency "e1" NaN)
              [mkRef (Some "gone"%string) pending (Fin 70)])); reflexivity.
Defined.

(** ** What deliver writes *)




Lemma markResourceDelivered_resource (st : Store) (rid eid : string) (user : User)
    (r : Resource) (mR : MatchRef) :
  resources st !! rid = Some r →
  not_authorized (r_user r) (r_assignedTo r) user = false →
  find_ref eid (r_matchedEmergencies r) = Some mR → status mR = accepted →
  validate_resource r = true →
  resources (markResourceDelivered st rid eid user).1 !! rid
  = Some (set_matchedEmergencies (set_r_status r "delivered")
            (update_ref eid (set_status delivered) (r_matchedEmergencies r))).
Proof.
  intros Hr Hauth HmR Hst HvR.
  unfold markResourceDelivered. rewrite Hr, Hauth, HmR, Hst. simpl negb. cbv iota.
  cbv zeta. rewrite validate_resource_delivered by done. cbn [negb].
  change (emergencies (save_resource st rid ?x)) with (emergencies st).
  destruct (emergencies st !! eid) as [e|]; [| apply lookup_insert_eq].
  destruct (find_ref rid (e_matchedResources e)).
  - destruct (validate_emergency _); apply lookup_insert_eq.
  - apply lookup_insert_eq.
Qed.



(** X21: deliver cannot be repeated: once a deliver has written the resource
    (an authorised user, an accepted copy on the resource, a resource that
    passes validation), a further deliver of the same pair by any user fails
    with 404, or 401 for a user who is not authorised, and changes nothing. *)
Theorem deliver_twice_fails (st : Store) (rid eid : string) (user again : User)
    (r : Resource) (mR : MatchRef) :
  resources st !! rid = Some r →
  not_authorized (r_user r) (r_assignedTo r) user = false →
  resource_copy st eid rid = Some mR → status mR = accepted →
  validate_resource r = true →
  let st' := (markResourceDelivered st rid eid user).1 in
  r_status <$> resources st' !! rid = Some "delivered"%string
  ∧ (markResourceDelivered st' rid eid again = (st', Error 404)
     ∨ markResourceDelivered st' rid eid again = (st', Error 401)).
Proof.
  intros Hr Hauth HmR Hst HvR st'.
  rewrite (resource_copy_lookup _ _ _ _ Hr) in HmR.
  pose proof (markResourceDelivered_resource st rid eid user r mR Hr Hauth HmR Hst HvR)
    as Hr'.
  fold st' in Hr'. set (r' := set_matchedEmergencies _ _) in Hr'.
  split; [by rewrite Hr' |].
  unfold markResourceDelivered. rewrite Hr'.
  destruct (not_authorized _ _ again); [by right |].
  assert (Hm : find_ref eid (r_matchedEmergencies r') = Some (set_status delivered mR))
    by (simpl; by apply find_ref_update_eq).
  rewrite Hm. by left.
Qed.

Lemma deliver_twice_fails_witness :
  let st := matched_store accepted true in
  let st' := (markResourceDelivered st "r7" "e1" bob).1 in
  r_status <$> resources st' !! "r7"%string = Some "delivered"%string
  ∧ (markResourceDelivered st' "r7" "e1" bob = (st', Error 404)
     ∨ markResourceDelivered st' "r7" "e1" bob = (st', Error 401)).
Proof.
  intros st st'.
  apply (deliver_twice_fails st "r7" "e1" bob bob
           (set_matchedEmergencies
              (set_r_status (sample_resource "r7" (Fin 10) 0) "reserved")
              [mkRef (Some "e1"%string) accepted (Fin 80)])
           (mkRef (Some "e1"%string) accepted (Fin 80))); reflexivity.
Defined.

(** X29: [markResourceDelivered] never answers 200.  Its last step before
    the answer creates a notification of type ['resource_delivered'], which
    the schema of notifications does not list, so every request that gets
    that far ends in a validation error. *)
Theorem deliver_never_succeeds (st : Store) (rid eid : string) (user : User) :
  (markResourceDelivered st rid eid user).2 ≠ Ok.
Proof.
  unfold markResourceDelivered.
  destruct (resources st !! rid) as [r|]; [| done].
  destruct (not_authorized _ _ user); [done |].
  destruct (find_ref eid (r_matchedEmergencies r)) as [mR|]; [| done].
  destruct (negb (bool_decide _)); [done |]. cbv zeta.
  destruct (negb (validate_resource _)); [done |].
  change (emergencies (save_resource st rid ?x)) with (emergencies st).
  destruct (emergencies st !! eid) as [e|]; [| done].
  destruct (find_ref rid (e_matchedResources e)); [| done].
  by destruct (validate_emergency _).
Qed.

(** ** Propose, accept, deliver *)



(** ** Assigning a volunteer *)

Lemma not_authorized_assignee (owner : string) (v : User) :
  not_authorized owner (Some (u_id v)) v = false.
Proof.
  unfold not_authorized. rewrite String.eqb_refl. simpl.
  by rewrite andb_false_r.
Qed.

(** The matches [matchEmergenciesForResource] builds from stored emergencies:
    those of the mock branch, if any. *)
Lemma matchEmergenciesToResource_document hav (r : Resource) (es : list Emergency)
    (maxD : num) (m : EmergencyMatch) :
  m ∈ matchEmergenciesToResource hav r (document <$> es) maxD →
  em_matchScore m = Fin 80.
Proof.
  destruct (mock_pool r (document <$> es)) as [first|] eqn:Hmock.
  - unfold matchEmergenciesToResource. rewrite Hmock.
    by intros ->%list_elem_of_singleton.
  - intros Hm. exfalso.
    apply matchEmergenciesToResource_filter in Hm as (Hpool & _ & _ & Hq); [| done].
    apply list_elem_of_fmap in Hpool as (e & He & _). rewrite He in Hq.
    discriminate Hq.
Qed.

Lemma matchEmergenciesForResource_valid hav (st : Store) (id : string) (user : User)
    (r : Resource) :
  resources st !! id = Some r →
  not_authorized (r_user r) (r_assignedTo r) user = false →
  validate_resource r = true →
  (matchEmergenciesForResource hav st id user).2 = Ok.
Proof.
  intros Hr Hauth Hv. unfold matchEmergenciesForResource. rewrite Hr, Hauth. cbv zeta.
  set (ms := matchEmergenciesToResource hav r _ (Fin 50)).
  assert (Hms : ∀ m, m ∈ ms → em_matchScore m = Fin 80).
  { intros m. apply matchEmergenciesToResource_document. }
  assert (Hvalid : validate_resource
                     (set_matchedEmergencies r
                        (map (λ m, mkRef (e_id (em_emergency m)) pending (em_matchScore m))
                           ms)) = true).
  { unfold validate_resource in *.
    cbn [r_restValid r_address r_status r_matchedEmergencies set_matchedEmergencies].
    apply andb_true_iff in Hv as [Hv _]. rewrite Hv. cbn [andb].
    apply forallb_forall. intros ref Href. apply list_elem_of_In in Href.
    apply list_elem_of_fmap in Href as (m & -> & Hm). cbn [matchScore].
    by rewrite (Hms _ Hm). }
  by rewrite Hvalid.
Qed.

(** X24: [assignVolunteer] on an emergency assigns only users whose role is
    ['volunteer'] (any other role is answered with 400 and changes nothing).
    For a volunteer it ends in a validation error, with nothing changed, when
    the emergency does not pass validation.  Otherwise it succeeds: the
    emergency's assignee is that user and nothing else of the emergency or of
    any resource changes, one ['assignment'] notification for the volunteer is
    appended, and from then on the volunteer's request to rank resources for
    that emergency passes the authorisation check: it is answered with 200 or
    ends in a validation error (the scores of stored emergencies being NaN),
    never with 401 or 404. *)
Theorem emergency_volunteer_assignment hav (users : gmap string User) (st : Store)
    (id userId : string) (e : Emergency) (v : User) :
  (∀ k u, users !! k = Some u → u_id u = k) →
  emergencies st !! id = Some e → users !! userId = Some v →
  (u_role v ≠ "volunteer"%string →
   assignVolunteerToEmergency users st id userId = (st, Error 400))
  ∧ (u_role v = "volunteer"%string → validate_emergency e = false →
     assignVolunteerToEmergency users st id userId = (st, Throws ValidationError))
  ∧ (u_role v = "volunteer"%string → validate_emergency e = true →
     ∃ st', assignVolunteerToEmergency users st id userId = (st', Ok)
            ∧ emergencies st' !! id = Some (set_e_assignedTo e (Some userId))
            ∧ resources st' = resources st
            ∧ notifications st'
              = notifications st ++ [mkNotification "assignment" userId (e_id e) None]
            ∧ ((matchResourcesForEmergency hav st' id v).2 = Ok
               ∨ (matchResourcesForEmergency hav st' id v).2 = Throws ValidationError)).
Proof.
  intros HU He Hv. pose proof (HU _ _ Hv) as Hid.
  unfold assignVolunteerToEmergency. rewrite He, Hv. split; [| split].
  - intros Hrole. apply String.eqb_neq in Hrole. by rewrite Hrole.
  - intros Hrole Hval. rewrite Hrole. cbn [String.eqb Ascii.eqb Bool.eqb negb].
    cbv zeta. by rewrite validate_emergency_assigned, Hval.
  - intros Hrole Hval. rewrite Hrole. cbn [String.eqb Ascii.eqb Bool.eqb negb].
    cbv zeta. rewrite validate_emergency_assigned, Hval. cbn [negb].
    rewrite assignment_notification_valid. cbn [negb]. rewrite Hid.
    eexists. split; [reflexivity |]. split; [simpl; apply lookup_insert_eq |].
    split; [done |]. split; [done |].
    unfold matchResourcesForEmergency.
    change (emergencies (notify (save_emergency st id ?x) ?n))
      with (<[id := x]> (emergencies st)).
    rewrite lookup_insert_eq.
    change (e_user (set_e_assignedTo e (Some userId))) with (e_user e).
    change (e_assignedTo (set_e_assignedTo e (Some userId))) with (Some userId).
    assert (Hauth : not_authorized (e_user e) (Some userId) v = false).
    { rewrite <- Hid. apply not_authorized_assignee. }
    rewrite Hauth. cbv zeta.
    match goal with
    | |- context [validate_emergency ?x] => destruct (validate_emergency x)
    end; [by left | by right].
Qed.

Lemma emergency_volunteer_assignment_witness :
  let vera := mkUser "vera" "volunteer" in
  let users : gmap string User := {[ "vera"%string := vera; "bob"%string := bob ]} in
  assignVolunteerToEmergency users sample_store "e1" "bob" = (sample_store, Error 400)
  ∧ ∃ st', assignVolunteerToEmergency users sample_store "e1" "vera" = (st', Ok)
           ∧ emergencies st' !! "e1"%string
             = Some (set_e_assignedTo (sample_emergency "e1" NaN) (Some "vera"%string))
           ∧ resources st' = resources sample_store
           ∧ notifications st'
             = notifications sample_store
               ++ [mkNotification "assignment" "vera"
                     (e_id (sample_emergency "e1" NaN)) None]
           ∧ ((matchResourcesForEmergency equator_km st' "e1" vera).2 = Ok
              ∨ (matchResourcesForEmergency equator_km st' "e1" vera).2
                = Throws ValidationError).
Proof.
  intros vera users.
  assert (HU : ∀ k u, users !! k = Some u → u_id u = k).
  { intros k u. subst users. rewrite lookup_insert. case_decide as Hk.
    - by intros [= <-].
    - rewrite lookup_singleton. case_decide; [by intros [= <-] | done]. }
  split.
  - apply (emergency_volunteer_assignment equator_km users sample_store "e1" "bob"
             (sample_emergency "e1" NaN) bob HU); [reflexivity.. | discriminate].
  - apply (emergency_volunteer_assignment equator_km users sample_store "e1" "vera"
             (sample_emergency "e1" NaN) vera HU); reflexivity.
Defined.

(** X25: [assignVolunteer] on a resource assigns only users whose role is
    ['volunteer'] (any other role is answered with 400 and changes nothing).
    For a volunteer it ends in a validation error, with nothing changed, when
    the resource does not pass validation, which is the case of every
    resource without an address.  Otherwise it succeeds: the resource's
    assignee is that user and nothing else of the resource or of any emergency
    changes, one ['assignment'] notification for the volunteer is appended,
    and from then on the volunteer's request to rank emergencies for that
    resource passes the authorisation check and succeeds. *)
Theorem resource_volunteer_assignment hav (users : gmap string User) (st : Store)
    (id userId : string) (r : Resource) (v : User) :
  (∀ k u, users !! k = Some u → u_id u = k) →
  resources st !! id = Some r → users !! userId = Some v →
  (u_role v ≠ "volunteer"%string →
   assignVolunteerToResource users st id userId = (st, Error 400))
  ∧ (u_role v = "volunteer"%string →
     validate_resource r = false ∨ r_address r = None →
     assignVolunteerToResource users st id userId = (st, Throws ValidationError))
  ∧ (u_role v = "volunteer"%string → validate_resource r = true →
     ∃ st', assignVolunteerToResource users st id userId = (st', Ok)
            ∧ resources st' !! id = Some (set_r_assignedTo r (Some userId))
            ∧ emergencies st' = emergencies st
            ∧ notifications st'
              = notifications st ++ [mkNotification "assignment" userId None (r_id r)]
            ∧ (matchEmergenciesForResource hav st' id v).2 = Ok).
Proof.
  intros HU Hr Hv. pose proof (HU _ _ Hv) as Hid.
  unfold assignVolunteerToResource. rewrite Hr, Hv. split; [| split].
  - intros Hrole. apply String.eqb_neq in Hrole. by rewrite Hrole.
  - intros Hrole Hval. rewrite Hrole. cbn [String.eqb Ascii.eqb Bool.eqb negb].
    cbv zeta. rewrite validate_resource_assigned.
    destruct Hval as [-> | Ha]; [done |]. by rewrite no_address_invalid.
  - intros Hrole Hval. rewrite Hrole. cbn [String.eqb Ascii.eqb Bool.eqb negb].
    cbv zeta. rewrite validate_resource_assigned, Hval. cbn [negb].
    rewrite assignment_notification_valid. cbn [negb]. rewrite Hid.
    eexists. split; [reflexivity |]. split; [simpl; apply lookup_insert_eq |].
    split; [done |]. split; [done |].
    apply (matchEmergenciesForResource_valid hav _ id v
             (set_r_assignedTo r (Some userId))).
    + simpl. apply lookup_insert_eq.
    + cbn [r_user r_assignedTo set_r_assignedTo]. rewrite <- Hid.
      apply not_authorized_assignee.
    + by rewrite validate_resource_assigned.
Qed.

Lemma resource_volunteer_assignment_witness :
  let vera := mkUser "vera" "volunteer" in
  let users : gmap string User := {[ "vera"%string := vera; "alice"%string := alice ]} in
  assignVolunteerToResource users sample_store "r7" "alice" = (sample_store, Error 400)
  ∧ assignVolunteerToResource users created_store "r7" "vera"
    = (created_store, Throws ValidationError)
  ∧ ∃ st', assignVolunteerToResource users sample_store "r7" "vera" = (st', Ok)
           ∧ resources st' !! "r7"%string
             = Some (set_r_assignedTo (sample_resource "r7" (Fin 10) 0) (Some "vera"%string))
           ∧ emergencies st' = emergencies sample_store
           ∧ notifications st'
             = notifications sample_store
               ++ [mkNotification "assignment" "vera" None
                     (r_id (sample_resource "r7" (Fin 10) 0))]
           ∧ (matchEmergenciesForResource equator_km st' "r7" vera).2 = Ok.
Proof.
  intros vera users.
  assert (HU : ∀ k u, users !! k = Some u → u_id u = k).
  { intros k u. subst users. rewrite lookup_insert. case_decide as Hk.
    - by intros [= <-].
    - rewrite lookup_singleton. case_decide; [by intros [= <-] | done]. }
  split; [| split].
  - apply (resource_volunteer_assignment equator_km users sample_store "r7" "alice"
             (sample_resource "r7" (Fin 10) 0) alice HU); [reflexivity.. | discriminate].
  - apply (resource_volunteer_assignment equator_km users created_store "r7" "vera"
             (created (sample_resource "r7" (Fin 10) 0)) vera HU);
      [reflexivity.. | by right].
  - apply (resource_volunteer_assignment equator_km users sample_store "r7" "vera"
             (sample_resource "r7" (Fin 10) 0) vera HU); reflexivity.
Defined.

(** ** A resource without an address *)

Lemma unaddressed_step hav (st : Store) (op : Op) (id : string) (r : Resource) :
  resources st !! id = Some r → r_address r = None →
  resources (step hav st op).1 !! id = Some r.
Proof.
  intros Hr Ha.
  destruct op as [eid user | rid user | eid rid action user | rid eid user]; simpl.
  - by rewrite matchResourcesForEmergency_resources.
  - unfold matchEmergenciesForResource.
    destruct (resources st !! rid) as [r'|] eqn:Hr'; [| done].
    destruct (not_authorized _ _ user); [done |]. cbv zeta.
    destruct (validate_resource _) eqn:Hv; [| done]. simpl.
    destruct (decide (rid = id)) as [-> | Hne]; [| by rewrite lookup_insert_ne].
    rewrite Hr in Hr'. injection Hr' as <-.
    rewrite no_address_invalid in Hv; done.
  - unfold updateMatchStatus.
    destruct (negb _); [done |].
    destruct (emergencies st !! eid) as [e|]; [| done].
    destruct (not_authorized _ _ user); [done |].
    destruct (find_ref rid (e_matchedResources e)) as [m|]; [| done]. cbv zeta.
    destruct (negb (validate_emergency _)); [done |].
    destruct (String.eqb action "accept"); [| done].
    change (resources (save_emergency st eid ?x)) with (resources st).
    destruct (resources st !! rid) as [r'|] eqn:Hr'; [| done].
    destruct (negb (validate_resource _)) eqn:Hv; [done |].
    destruct (decide (rid = id)) as [-> | Hne].
    + rewrite Hr in Hr'. injection Hr' as <-.
      rewrite no_address_invalid in Hv; done.
    + destruct (negb (validate_notification _)); simpl; by rewrite lookup_insert_ne.
  - unfold markResourceDelivered.
    destruct (resources st !! rid) as [r'|] eqn:Hr'; [| done].
    destruct (not_authorized _ _ user); [done |].
    destruct (find_ref eid (r_matchedEmergencies r')) as [mR|]; [| done].
    destruct (negb (bool_decide _)); [done |]. cbv zeta.
    destruct (negb (validate_resource _)) eqn:Hv; [done |].
    destruct (decide (rid = id)) as [-> | Hne].
    + rewrite Hr in Hr'. injection Hr' as <-.
      rewrite no_address_invalid in Hv; done.
    + change (emergencies (save_resource st rid ?x)) with (emergencies st).
      destruct (emergencies st !! eid) as [e|]; [| by simpl; rewrite lookup_insert_ne].
      destruct (find_ref rid (e_matchedResources e)).
      * destruct (validate_emergency _); simpl; by rewrite lookup_insert_ne.
      * simpl. by rewrite lookup_insert_ne.
Qed.

(** X30: a resource without an address cannot be written.  [address] is a
    required path that the [pre('save')] hook of the model unsets, so every
    [save] of such a resource is refused: no sequence of requests to the four
    handlers changes the resource, and ranking emergencies for it, accepting a
    match with it and assigning a volunteer to it never answer 200. *)
Theorem unaddressed_resource_frozen hav (users : gmap string User) (st : Store)
    (id : string) (r : Resource) :
  resources st !! id = Some r → r_address r = None →
  (∀ ops, resources (run hav st ops) !! id = Some r)
  ∧ (∀ user, (matchEmergenciesForResource hav st id user).2 ≠ Ok)
  ∧ (∀ eid user, (updateMatchStatus st eid id "accept" user).2 ≠ Ok)
  ∧ (∀ userId, (assignVolunteerToResource users st id userId).2 ≠ Ok
               ∧ (assignVolunteerToResource users st id userId).1 = st).
Proof.
  intros Hr Ha. split; [| split; [| split]].
  - intros ops. induction ops as [|op ops IH] using rev_ind; [done |].
    rewrite run_snoc. by apply unaddressed_step.
  - intros user. unfold matchEmergenciesForResource. rewrite Hr.
    destruct (not_authorized _ _ user); [done |]. cbv zeta.
    by rewrite no_address_invalid.
  - intros eid user. unfold updateMatchStatus. simpl negb. cbv iota.
    destruct (emergencies st !! eid) as [e|]; [| done].
    destruct (not_authorized _ _ user); [done |].
    destruct (find_ref id (e_matchedResources e)) as [m|]; [| done]. cbv zeta.
    destruct (negb (validate_emergency _)); [done |].
    simpl String.eqb. cbv iota.
    change (resources (save_emergency st eid ?x)) with (resources st). rewrite Hr.
    by rewrite no_address_invalid.
  - intros userId. unfold assignVolunteerToResource. rewrite Hr.
    destruct (users !! userId) as [v|]; [| done].
    destruct (negb (String.eqb _ _)); [done |]. cbv zeta.
    by rewrite no_address_invalid.
Qed.

Lemma unaddressed_resource_frozen_witness :
  resources (run equator_km created_store
               [RankEmergencies "r7" bob; UpdateMatch "e1" "r7" "accept" alice;
                Deliver "r7" "e1" bob]) !! "r7"%string
  = Some (created (sample_resource "r7" (Fin 10) 0)).
Proof.
  refine (proj1 (unaddressed_resource_frozen equator_km ∅ created_store "r7"
                   (created (sample_resource "r7" (Fin 10) 0)) _ _) _); reflexivity.
Defined.

(** * Further properties of the matcher *)

(** ** What a ranking returns *)

(** X1: every entry returned by [matchResourcesToEmergency] carries a
    resource of the pool that is available and of the emergency's type; the
    returned resources are a sub-multiset of the pool, so no candidate is
    returned twice as often as it is offered and the list is no longer than
    the pool. *)
Theorem ranked_resources_from_pool hav (e : Emergency) (rs : list Resource)
    (maxD : num) :
  let ranked := matchResourcesToEmergency hav e rs maxD in
  Forall (λ m, rm_resource m ∈ rs
               ∧ r_type (rm_resource m) = e_type e
               ∧ r_status (rm_resource m) = "available"%string) ranked
  ∧ rm_resource <$> ranked ⊆+ rs
  ∧ length ranked ≤ length rs.
Proof.
  intros ranked. subst ranked.
  destruct (matchResourcesToEmergency_unfold hav e rs maxD) as [-> | (ms & HM & ->)].
  { split; [constructor | split; [apply submseteq_nil_l | simpl; lia]]. }
  assert (Hsub : rm_resource <$> js_sort (by_key_desc rm_matchScore) (omap id ms) ⊆+ rs).
  { rewrite js_sort_perm. apply sublist_submseteq.
    pose proof (mapM_omap_sublist _ rm_resource _ _
                  (score_resource_resource hav e maxD) HM) as Hsub.
    etrans; [exact Hsub | apply sublist_filter]. }
  split; [| split; [done |]].
  - apply Forall_forall. intros m Hm. rewrite js_sort_perm in Hm.
    destruct (mapM_omap_elem _ _ _ _ HM Hm) as (r & Hr & Hs).
    apply list_elem_of_filter in Hr as [[Hty Hav] Hr].
    by rewrite (score_resource_resource _ _ _ _ _ Hs).
  - apply submseteq_length in Hsub. by rewrite length_fmap in Hsub.
Qed.

(** X2: outside the branch for mock objects, every entry returned by
    [matchEmergenciesToResource] carries an emergency of the pool that is
    active, of the resource's type, and asks for no more than the resource
    holds; the returned emergencies are a sub-multiset of the pool. *)
Theorem ranked_emergencies_from_pool hav (r : Resource) (es : list Emergency)
    (maxD : num) :
  mock_pool r es = None →
  let ranked := matchEmergenciesToResource hav r es maxD in
  Forall (λ m, em_emergency m ∈ es
               ∧ e_type (em_emergency m) = r_type r
               ∧ e_status (em_emergency m) = "active"%string
               ∧ num_le (e_quantity (em_emergency m)) (r_quantity r) = true) ranked
  ∧ em_emergency <$> ranked ⊆+ es
  ∧ length ranked ≤ length es.
Proof.
  intros Hmock ranked. subst ranked.
  destruct (matchEmergenciesToResource_unfold hav r es maxD Hmock)
    as [-> | (ms & HM & ->)].
  { split; [constructor | split; [apply submseteq_nil_l | simpl; lia]]. }
  assert (Hsub : em_emergency <$> js_sort (by_key_desc em_matchScore) (omap id ms) ⊆+ es).
  { rewrite js_sort_perm. apply sublist_submseteq.
    pose proof (mapM_omap_sublist _ em_emergency _ _
                  (score_emergency_emergency hav r maxD) HM) as Hsub.
    etrans; [exact Hsub | apply sublist_filter]. }
  split; [| split; [done |]].
  - apply Forall_forall. intros m Hm. rewrite js_sort_perm in Hm.
    destruct (mapM_omap_elem _ _ _ _ HM Hm) as (e & He & Hs).
    apply list_elem_of_filter in He as [(Hty & Hact & Hq) He].
    by rewrite (score_emergency_emergency _ _ _ _ _ Hs).
  - apply submseteq_length in Hsub. by rewrite length_fmap in Hsub.
Qed.

Lemma ranked_emergencies_from_pool_witness :
  let r := sample_resource "r7" (Fin 10) 0 in
  let es := [sample_emergency "e1" (Fin 10); sample_emergency "e2" (Fin 50)] in
  let ranked := matchEmergenciesToResource equator_km r es (Fin 50) in
  Forall (λ m, em_emergency m ∈ es
               ∧ e_type (em_emergency m) = r_type r
               ∧ e_status (em_emergency m) = "active"%string
               ∧ num_le (e_quantity (em_emergency m)) (r_quantity r) = true) ranked
  ∧ em_emergency <$> ranked ⊆+ es
  ∧ length ranked ≤ length es.
Proof.
  intros r es.
  apply (ranked_emergencies_from_pool equator_km r es (Fin 50)). reflexivity.
Defined.

(** ** When the score is a number *)

Lemma zero_of_defined (sign : bool) : zero_of sign ≠ NaN.
Proof. by destruct sign. Qed.

Lemma inf_of_defined (sign : bool) : inf_of sign ≠ NaN.
Proof. by destruct sign. Qed.

Lemma num_div_defined (x : num) (m : Q) : 0 < m → x ≠ NaN → num_div x (Fin m) ≠ NaN.
Proof.
  intros Hm Hx. unfold num_div.
  destruct x as [| | | |a]; [done | | | |]; cbn [value]; rewrite ?(Qeq_bool_pos m Hm).
  - apply inf_of_defined.
  - apply inf_of_defined.
  - destruct (Qeq_bool 0 0); [apply zero_of_defined | done].
  - destruct (Qeq_bool a 0); [apply zero_of_defined | done].
Qed.

Lemma num_sub_defined (a : Q) (y : num) : y ≠ NaN → num_sub (Fin a) y ≠ NaN.
Proof.
  intros Hy. unfold num_sub, num_neg.
  destruct y as [| | | |b]; [done | done | done | done |].
  by destruct (Qeq_bool b 0).
Qed.

Lemma num_mul_defined (a : Q) (y : num) : 0 < a → y ≠ NaN → num_mul (Fin a) y ≠ NaN.
Proof.
  intros Ha Hy. unfold num_mul.
  destruct y as [| | | |b]; [done | | | |]; cbn [value]; rewrite ?(Qeq_bool_pos a Ha).
  - apply inf_of_defined.
  - apply inf_of_defined.
  - destruct (Qeq_bool (a * 0) 0); [apply zero_of_defined | done].
  - destruct (Qeq_bool (a * b) 0); [apply zero_of_defined | done].
Qed.

Lemma distanceScore_defined (d : num) (m : Q) :
  0 < m → d ≠ NaN → d ≠ PInf → distanceScore d (Fin m) ≠ NaN.
Proof.
  intros Hm Hn Hp Hc. apply clamp_NaN_inv in Hc. revert Hc.
  apply num_mul_defined; [lra |]. apply num_sub_defined. by apply num_div_defined.
Qed.

Lemma quantityScore_defined (have : num) (q : Q) :
  0 < q → have ≠ NaN → quantityScore have (Fin q) ≠ NaN.
Proof.
  intros Hq Hn Hc. apply clamp_NaN_inv in Hc. revert Hc.
  apply num_mul_defined; [lra |]. by apply num_div_defined.
Qed.

Lemma distance_between_not_NaN hav (a b : option (list num)) (d : num) :
  distance_between hav a b = Some d → d ≠ NaN.
Proof.
  unfold distance_between. destruct a as [ca|]; [| done]. destruct b as [cb|]; [| done].
  simpl. destruct (calculateDistance _ _ _ _ _) as [x|]; [| done]. simpl.
  intros [= <-]. destruct x as [| | | |q]; simpl; try done. by destruct (Qeq_bool q 0).
Qed.

Lemma within_cutoff_not_PInf (d : num) (m : Q) : num_gt d (Fin m) = false → d ≠ PInf.
Proof. by intros H ->. Qed.

Lemma resourceScore_defined (d have : num) (m q : Q) :
  0 < m → 0 < q → d ≠ NaN → d ≠ PInf → have ≠ NaN →
  score_ok (resourceScore d (Fin m) have (Fin q)).
Proof.
  intros Hm Hq Hd Hp Hh.
  destruct (resourceScore_range d (Fin m) have (Fin q)) as [Hnan | Hok]; [| done].
  exfalso. unfold resourceScore in Hnan.
  destruct (clamp_defined _ (distanceScore_defined d m Hm Hd Hp)) as (a & Ha & Hra).
  destruct (clamp_defined _ (quantityScore_defined have q Hq Hh)) as (b & Hb & Hrb).
  unfold distanceScore, quantityScore in Hnan. rewrite Ha, Hb in Hnan.
  destruct (weighted2_round a b (6 # 10) (4 # 10)) as (z & Hz & _);
    [done | done | lra | lra | lra |].
  rewrite Hz in Hnan. discriminate Hnan.
Qed.

Lemma emergencyScore_defined (d have : num) (urgency : string) (m q : Q) :
  0 < m → 0 < q → d ≠ NaN → d ≠ PInf → have ≠ NaN →
  urgency ∉ Object_prototype →
  score_ok (emergencyScore d (Fin m) urgency have (Fin q)).
Proof.
  intros Hm Hq Hd Hp Hh Hown.
  destruct (emergencyScore_range d (Fin m) urgency have (Fin q)) as [Hnan | Hok]; [| done].
  exfalso. unfold emergencyScore in Hnan.
  destruct (clamp_defined _ (distanceScore_defined d m Hm Hd Hp)) as (a & Ha & Hra).
  destruct (clamp_defined _ (quantityScore_defined have q Hq Hh)) as (b & Hb & Hrb).
  destruct (getUrgencyScore_own urgency Hown) as (u & Hu & Hru).
  unfold distanceScore, quantityScore in Hnan. rewrite Ha, Hb, Hu in Hnan.
  destruct (weighted3_round a u b (4 # 10) (4 # 10) (2 # 10)) as (z & Hz & _);
    [done | done | done | lra | lra | lra | lra |].
  rewrite Hz in Hnan. discriminate Hnan.
Qed.

(** X4: with a positive maxDistance, an emergency of positive quantity and
    candidates whose quantity is a number, every matchScore returned by
    [matchResourcesToEmergency] is an integer of [0, 100] (never NaN); so is
    every matchScore returned by [matchEmergenciesToResource] for a resource
    of positive quantity and emergencies whose urgency is not the name of a
    property that objects inherit (['constructor'], ['toString'], ...), for
    which the urgency term is NaN. *)
Theorem scores_are_numbers hav (e : Emergency) (rs : list Resource) (r : Resource)
    (es : list Emergency) (m qe qr : Q) :
  0 < m →
  (e_quantity e = Fin qe → 0 < qe → Forall (λ c, r_quantity c ≠ NaN) rs →
   Forall (λ x, score_ok (rm_matchScore x)) (matchResourcesToEmergency hav e rs (Fin m)))
  ∧ (r_quantity r = Fin qr → 0 < qr →
     Forall (λ c, e_urgency c ∉ Object_prototype) es →
     Forall (λ x, score_ok (em_matchScore x)) (matchEmergenciesToResource hav r es (Fin m))).
Proof.
  intros Hm. split.
  - intros He Hqe Hrs. apply Forall_forall. intros x Hx.
    apply matchResourcesToEmergency_elem in Hx as (Hin & _ & Hs).
    rewrite Forall_forall in Hrs. pose proof (Hrs _ Hin) as Hq.
    destruct (decide (r_id (rm_resource x) = Some "resource1"%string)) as [H1|H1].
    { unfold score_resource in Hs. rewrite bool_decide_eq_true_2 in Hs by done.
      injection Hs as <-. by exists 80%Z. }
    destruct (decide (r_id (rm_resource x) = Some "resource2"%string)) as [H2|H2].
    { unfold score_resource in Hs. rewrite bool_decide_eq_false_2 in Hs by done.
      rewrite bool_decide_eq_true_2 in Hs by done. injection Hs as <-. by exists 60%Z. }
    destruct (score_resource_computed _ _ _ _ _ H1 H2 Hs) as (d & Hd & Hgt & ->).
    simpl. rewrite He. apply resourceScore_defined; try done.
    + by eapply distance_between_not_NaN.
    + by eapply within_cutoff_not_PInf.
  - intros Hr Hqr Hes. apply Forall_forall. intros x Hx.
    destruct (mock_pool r es) as [first|] eqn:Hmock.
    { unfold matchEmergenciesToResource in Hx. rewrite Hmock in Hx.
      apply list_elem_of_singleton in Hx as ->. by exists 80%Z. }
    destruct (matchEmergenciesToResource_unfold hav r es (Fin m) Hmock)
      as [Hnil | (ms & HM & Hout)]; rewrite ?Hnil, ?Hout in Hx.
    { by apply elem_of_nil in Hx. }
    rewrite js_sort_perm in Hx.
    destruct (mapM_omap_elem _ _ _ _ HM Hx) as (e' & He' & Hs).
    apply list_elem_of_filter in He' as [(_ & _ & Hle) He'].
    rewrite Forall_forall in Hes. pose proof (Hes _ He') as Hown.
    destruct (score_emergency_computed _ _ _ _ _ Hs) as (d & Hd & Hgt & ->).
    simpl. rewrite Hr. apply emergencyScore_defined; try done.
    + by eapply distance_between_not_NaN.
    + by eapply within_cutoff_not_PInf.
    + intros Hn. by rewrite Hn in Hle.
Qed.

Lemma scores_are_numbers_witness :
  Forall (λ x, score_ok (rm_matchScore x))
    (matchResourcesToEmergency equator_km (sample_emergency "e1" (Fin 10))
       [sample_resource "r7" (Fin 10) (9 # 100); sample_resource "r8" (Fin 3) 0] (Fin 50))
  ∧ Forall (λ x, score_ok (em_matchScore x))
      (matchEmergenciesToResource equator_km (sample_resource "r7" (Fin 10) 0)
         [sample_emergency "e1" (Fin 10)] (Fin 50)).
Proof.
  destruct (scores_are_numbers equator_km (sample_emergency "e1" (Fin 10))
              [sample_resource "r7" (Fin 10) (9 # 100); sample_resource "r8" (Fin 3) 0]
              (sample_resource "r7" (Fin 10) 0) [sample_emergency "e1" (Fin 10)]
              50 10 10) as [H1 H2]; [reflexivity |].
  split.
  - apply H1; [reflexivity | reflexivity |].
    repeat (constructor; [discriminate |]). constructor.
  - apply H2; [reflexivity | reflexivity |].
    constructor; [| constructor]. vm_compute. intros H.
    repeat (apply elem_of_cons in H as [H | H]; [discriminate H |]).
    by apply elem_of_nil in H.
Defined.

(** ** Distance against score *)

Lemma distance_term_fin (d m : Q) :
  0 < m →
  ∃ t, num_mul (Fin 100) (num_sub (Fin 1) (num_div (Fin d) (Fin m))) = Fin t
       ∧ t == 100 * (1 - d / m).
Proof.
  intros Hm.
  destruct (num_div_pos d m Hm) as (c & -> & Hc).
  destruct (num_sub_Fin 1 c) as (s & -> & Hs).
  destruct (num_mul_pos_l 100 s) as (t & -> & Ht); [lra |].
  exists t. split; [done |]. by rewrite Ht, Hs, Hc.
Qed.

Lemma clamp_mono (t1 t2 : Q) :
  t2 <= t1 →
  ∃ c1 c2, Math_max (Fin 0) (Math_min (Fin 100) (Fin t1)) = Fin c1
           ∧ Math_max (Fin 0) (Math_min (Fin 100) (Fin t2)) = Fin c2
           ∧ c2 <= c1 ∧ 0 <= c2 ∧ c1 <= 100.
Proof.
  intros Ht. rewrite !Math_min_fin, !Math_max_fin.
  do 2 eexists. split; [reflexivity |]. split; [reflexivity |].
  destruct (Qle_bool 100 t1) eqn:H1; destruct (Qle_bool 100 t2) eqn:H2;
    repeat match goal with
           | |- context [Qle_bool ?a ?b] => destruct (Qle_bool a b) eqn:?
           end; bool_to_Q; lra.
Qed.

Lemma distanceScore_mono (d1 d2 m : Q) :
  0 < m → d1 <= d2 →
  ∃ x1 x2, distanceScore (Fin d1) (Fin m) = Fin x1
           ∧ distanceScore (Fin d2) (Fin m) = Fin x2
           ∧ x2 <= x1 ∧ 0 <= x2 ∧ x1 <= 100.
Proof.
  intros Hm Hd. unfold distanceScore.
  destruct (distance_term_fin d1 m Hm) as (t1 & -> & Ht1).
  destruct (distance_term_fin d2 m Hm) as (t2 & -> & Ht2).
  apply clamp_mono. rewrite Ht1, Ht2.
  assert (d1 / m <= d2 / m).
  { unfold Qdiv. apply Qmult_le_compat_r; [done |].
    apply Qlt_le_weak, Qinv_lt_0_compat, Hm. }
  lra.
Qed.

(** X5: with the quantities (and the urgency) fixed, a candidate that is
    nearer never scores lower, in either direction: from distance [d1] to a
    larger distance [d2] the score does not increase.  In the direction of
    [matchEmergenciesToResource] this is for an urgency that is not the name
    of a property that objects inherit, for which the score is NaN at every
    distance. *)
Theorem nearer_scores_no_lower (d1 d2 m : Q) (have need : num) (urgency : string) :
  0 < m → d1 <= d2 → quantityScore have need ≠ NaN →
  (∃ s1 s2 : Z,
      resourceScore (Fin d1) (Fin m) have need = Fin (inject_Z s1)
      ∧ resourceScore (Fin d2) (Fin m) have need = Fin (inject_Z s2)
      ∧ (s2 ≤ s1)%Z)
  ∧ (urgency ∉ Object_prototype →
     ∃ s1 s2 : Z,
       emergencyScore (Fin d1) (Fin m) urgency have need = Fin (inject_Z s1)
       ∧ emergencyScore (Fin d2) (Fin m) urgency have need = Fin (inject_Z s2)
       ∧ (s2 ≤ s1)%Z).
Proof.
  intros Hm Hd Hq.
  destruct (distanceScore_mono d1 d2 m Hm Hd) as (x1 & x2 & H1 & H2 & Hx & Hx2 & Hx1).
  destruct (clamp_defined _ Hq) as (b & Hb & Hrb). fold (quantityScore have need) in Hb.
  split.
  - unfold resourceScore. rewrite H1, H2, Hb.
    destruct (weighted2_round x1 b (6 # 10) (4 # 10)) as (z1 & -> & Hz1 & _);
      [lra | done | lra | lra | lra |].
    destruct (weighted2_round x2 b (6 # 10) (4 # 10)) as (z2 & -> & Hz2 & _);
      [lra | done | lra | lra | lra |].
    exists z1, z2. split; [done |]. split; [done |]. subst z1 z2.
    apply Qfloor_resp_le. lra.
  - intros Hown. destruct (getUrgencyScore_own urgency Hown) as (u & Hu & Hru).
    unfold emergencyScore. rewrite H1, H2, Hb, Hu.
    destruct (weighted3_round x1 u b (4 # 10) (4 # 10) (2 # 10)) as (z1 & -> & Hz1 & _);
      [lra | done | done | lra | lra | lra | lra |].
    destruct (weighted3_round x2 u b (4 # 10) (4 # 10) (2 # 10)) as (z2 & -> & Hz2 & _);
      [lra | done | done | lra | lra | lra | lra |].
    exists z1, z2. split; [done |]. split; [done |]. subst z1 z2.
    apply Qfloor_resp_le. lra.
Qed.

Lemma nearer_scores_no_lower_witness :
  (∃ s1 s2 : Z,
      resourceScore (Fin 10) (Fin 50) (Fin 10) (Fin 10) = Fin (inject_Z s1)
      ∧ resourceScore (Fin 20) (Fin 50) (Fin 10) (Fin 10) = Fin (inject_Z s2)
      ∧ (s2 ≤ s1)%Z)
  ∧ (∃ s1 s2 : Z,
        emergencyScore (Fin 10) (Fin 50) "high" (Fin 10) (Fin 10) = Fin (inject_Z s1)
        ∧ emergencyScore (Fin 20) (Fin 50) "high" (Fin 10) (Fin 10) = Fin (inject_Z s2)
        ∧ (s2 ≤ s1)%Z).
Proof.
  destruct (nearer_scores_no_lower 10 20 50 (Fin 10) (Fin 10) "high") as [H1 H2].
  - reflexivity.
  - vm_compute. discriminate.
  - vm_compute. discriminate.
  - split; [exact H1 |]. apply H2. vm_compute. intros H.
    repeat (apply elem_of_cons in H as [H | H]; [discriminate H |]).
    by apply elem_of_nil in H.
Defined.

(** ** Missing coordinates *)

(** X6: one candidate without a location empties the whole ranking.  If a
    resource of the pool passes the filter, is not one of the two hard-coded
    test resources, and has no location, the exception it raises is caught
    around the whole computation and [matchResourcesToEmergency] returns the
    empty list, whatever the other candidates are. *)
Theorem missing_location_empties_ranking hav (e : Emergency) (rs : list Resource)
    (maxD : num) (r : Resource) :
  r ∈ rs →
  r_type r = e_type e → r_status r = "available"%string →
  r_id r ≠ Some "resource1"%string → r_id r ≠ Some "resource2"%string →
  r_location r = None →
  matchResourcesToEmergency hav e rs maxD = [].
Proof.
  intros Hin Hty Hav H1 H2 Hloc. unfold matchResourcesToEmergency.
  destruct (special_location e); [done |].
  destruct (mapM _ _) as [ms|] eqn:HM; [| done]. exfalso.
  apply mapM_Some_1 in HM.
  assert (Hf : r ∈ filter (λ r, r_type r = e_type e ∧ r_status r = "available"%string) rs)
    by (by apply list_elem_of_filter).
  apply list_elem_of_lookup in Hf as [i Hi].
  destruct (Forall2_lookup_l _ _ _ _ _ HM Hi) as (o & _ & Ho).
  unfold score_resource in Ho. rewrite !bool_decide_eq_false_2 in Ho by done.
  rewrite Hloc in Ho. unfold distance_between in Ho.
  by destruct (e_location e).
Qed.


Lemma missing_location_empties_ranking_witness :
  matchResourcesToEmergency equator_km (sample_emergency "e1" (Fin 10))
    [sample_resource "r7" (Fin 10) 0;
     mkResource (Some "r8"%string) "medical" (Fin 5) "available" None [] "bob" None
       None true]
    (Fin 50) = [].
Proof.
  apply (missing_location_empties_ranking equator_km _ _ _
           (mkResource (Some "r8"%string) "medical" (Fin 5) "available" None [] "bob" None
              None true)).
  - right. left.
  - reflexivity.
  - reflexivity.
  - discriminate.
  - discriminate.
  - reflexivity.
Defined.

(** X7: in the distance the rankings compute between an emergency (first
    point) and a resource (second point), a resource whose [coordinates] array
    has fewer than two entries is treated as lying at distance 0 (the NaN
    distance is replaced by 0), while an emergency with such an array makes
    the computation throw. *)
Theorem short_coordinates hav (a b : num) (cs : list num) (other : option (list num)) :
  (length cs < 2)%nat →
  distance_between hav (Some [a; b]) (Some cs) = Some (Fin 0)
  ∧ distance_between hav (Some cs) other = None.
Proof.
  intros Hlen. unfold distance_between. simpl.
  assert (Hcs : cs !! 1%nat = None) by (apply lookup_ge_None; lia).
  rewrite Hcs. split.
  - simpl. unfold haversine_d. cbn [to_number default from_option id value].
    by destruct (value b), (value a).
  - destruct other; simpl; [| done]. by destruct (cs !! 0%nat).
Qed.

Lemma short_coordinates_witness :
  distance_between equator_km (Some [Fin 0; Fin 0]) (Some [Fin 3]) = Some (Fin 0)
  ∧ distance_between equator_km (Some [Fin 3]) (Some [Fin 0; Fin 0]) = None.
Proof.
  apply (short_coordinates equator_km (Fin 0) (Fin 0) [Fin 3] (Some [Fin 0; Fin 0])).
  simpl. lia.
Defined.

(** ** The score of a single pair *)

Lemma pair_score_arith (dist qr qn u : Q) :
  0 <= dist → 0 <= qr → 0 < qn → 25 <= u <= 100 →
  ∃ z : Z,
    Math_round
      (num_add
         (num_add
            (num_add (num_add (Fin 0) (num_mul (Fin 100) (Fin (4 # 10))))
               (num_mul
                  (Math_max (Fin 0)
                     (num_mul (num_div (num_sub (Fin 100) (Fin dist)) (Fin 100)) (Fin 100)))
                  (Fin (3 # 10))))
            (num_mul (num_mul (Math_min (num_div (Fin qr) (Fin qn)) (Fin 1)) (Fin 100))
               (Fin (2 # 10))))
         (num_mul (Fin u) (Fin (1 # 10))))
    = Fin (inject_Z z) ∧ (43 ≤ z ≤ 100)%Z.
Proof.
  intros Hd Hqr Hqn Hu.
  assert (Hratio : 0 <= qr / qn) by (apply Qle_shift_div_l; lra).
  destruct (num_mul_pos_l 100 (4 # 10)) as (c1 & -> & Hc1); [lra |].
  destruct (num_add_Fin 0 c1) as (c2 & -> & Hc2).
  destruct (num_sub_Fin 100 dist) as (c3 & -> & Hc3).
  destruct (num_div_pos c3 100) as (c4 & -> & Hc4); [lra |].
  destruct (num_mul_nonneg_r c4 100) as (c5 & -> & Hc5); [lra |].
  rewrite Math_max_fin. set (ds := if Qle_bool 0 c5 then c5 else 0).
  assert (Hds : 0 <= ds <= 100).
  { assert (Hc5' : c5 == 100 - dist) by (rewrite Hc5, Hc4, Hc3; field).
    subst ds. destruct (Qle_bool 0 c5) eqn:H0; bool_to_Q; lra. }
  clearbody ds.
  destruct (num_mul_nonneg_r ds (3 # 10)) as (c6 & -> & Hc6); [lra |].
  destruct (num_add_Fin c2 c6) as (c7 & -> & Hc7).
  destruct (num_div_pos qr qn Hqn) as (c8 & -> & Hc8).
  rewrite Math_min_fin. set (ratio := if Qle_bool c8 1 then c8 else 1).
  assert (Hr : 0 <= ratio <= 1).
  { subst ratio. destruct (Qle_bool c8 1) eqn:H1; bool_to_Q; lra. }
  clearbody ratio.
  destruct (num_mul_nonneg_r ratio 100) as (c9 & -> & Hc9); [lra |].
  destruct (num_mul_nonneg_r c9 (2 # 10)) as (c10 & -> & Hc10); [lra |].
  destruct (num_add_Fin c7 c10) as (c11 & -> & Hc11).
  destruct (num_mul_nonneg_r u (1 # 10)) as (c12 & -> & Hc12); [lra |].
  destruct (num_add_Fin c11 c12) as (c13 & -> & Hc13).
  assert (Hsum : c13 == 40 + ds * (3 # 10) + ratio * 100 * (2 # 10) + u * (1 # 10)).
  { rewrite Hc13, Hc12, Hc11, Hc10, Hc9, Hc7, Hc6, Hc2, Hc1. field. }
  rewrite Math_round_nonneg by lra.
  eexists. split; [reflexivity |].
  split; [apply (Qfloor_resp_le 43) | apply (Qfloor_resp_le _ (201 # 2))]; lra.
Qed.

Lemma open_needs_find (ty : string) (needs : list Need) :
  open_needs ty needs = []
  ↔ list_find (λ need, n_type need = ty ∧ n_fulfilled need = false) needs = None.
Proof.
  unfold open_needs. rewrite list_find_None. induction needs as [|n l IH]; simpl.
  - split; [constructor | done].
  - rewrite filter_cons. case_decide as Hn.
    + split; [done |]. intros [Hc _]%Forall_cons. done.
    + rewrite IH. split; [by constructor |]. by intros [_ ?]%Forall_cons.
Qed.

Lemma urgencyScores_known (urgency : string) :
  urgency ∈ ["critical"; "high"; "medium"; "low"]%string →
  ∃ u, urgencyScores urgency = Fin u ∧ 25 <= u <= 100.
Proof.
  intros H. repeat (apply elem_of_cons in H as [-> | H]);
    [| | | | by apply elem_of_nil in H];
    eexists; (split; [reflexivity | lra]).
Qed.

(** X8: for a pair with an open need of the resource's type, both locations
    given, a non-negative haversine distance, a non-negative resource
    quantity, a positive needed quantity and one of the four urgency levels,
    [calculateMatchScore] returns an integer between 43 and 100. *)
Theorem calculateMatchScore_range hav (e : Emergency) (r : Resource)
    (lat1 lon1 lat2 lon2 d qr qn : Q) (i : nat) (need : Need) :
  list_find (λ need, n_type need = r_type r ∧ n_fulfilled need = false)
    (e_resourcesNeeded e) = Some (i, need) →
  e_location e = Some [Fin lon1; Fin lat1] →
  r_location r = Some [Fin lon2; Fin lat2] →
  hav lat1 lon1 lat2 lon2 = Fin d → 0 <= d →
  r_quantity r = Fin qr → 0 <= qr →
  n_quantity need = Fin qn → 0 < qn →
  e_urgency e ∈ ["critical"; "high"; "medium"; "low"]%string →
  ∃ z : Z, calculateMatchScore hav e r = Some (Fin (inject_Z z)) ∧ (43 ≤ z ≤ 100)%Z.
Proof.
  intros Hfind He Hr Hd Hd0 Hqr Hqr0 Hqn Hqn0 Hu.
  destruct (urgencyScores_known _ Hu) as (u & Hus & Hu').
  destruct (round2_nonneg_spec d Hd0) as (_ & _ & _ & Hdist & _).
  unfold calculateMatchScore. rewrite Hfind, He, Hr. cbn [mbind option_bind].
  change ([Fin lon1; Fin lat1] !! 1%nat) with (Some (Fin lat1)).
  change ([Fin lon1; Fin lat1] !! 0%nat) with (Some (Fin lon1)).
  change ([Fin lon2; Fin lat2] !! 1%nat) with (Some (Fin lat2)).
  change ([Fin lon2; Fin lat2] !! 0%nat) with (Some (Fin lon2)).
  cbn [arg_of]. rewrite (calculateDistance_numbers hav _ _ _ _ _ Hd Hd0).
  cbn [mbind option_bind]. rewrite Hqr, Hqn, Hus.
  destruct (pair_score_arith (round2 d) qr qn u Hdist Hqr0 Hqn0 Hu') as (z & Hz & Hrange).
  exists z. split; [| done]. f_equal. exact Hz.
Qed.

Lemma calculateMatchScore_range_witness :
  ∃ z : Z,
    calculateMatchScore equator_km (sample_emergency "e1" (Fin 10))
      (sample_resource "r7" (Fin 10) (9 # 100)) = Some (Fin (inject_Z z))
    ∧ (43 ≤ z ≤ 100)%Z.
Proof.
  apply (calculateMatchScore_range equator_km (sample_emergency "e1" (Fin 10))
           (sample_resource "r7" (Fin 10) (9 # 100)) 0 0 0 (9 # 100)
           (Qred (6371 * ((9 # 100) * (3141592653589793 # 1000000000000000) / 180)))
           10 10 0 (mkNeed "medical" (Fin 10) false)).
  - reflexivity.
  - reflexivity.
  - reflexivity.
  - vm_compute. reflexivity.
  - vm_compute. discriminate.
  - reflexivity.
  - vm_compute. discriminate.
  - reflexivity.
  - reflexivity.
  - right. left.
Defined.

(** X9: [calculateMatchScore] returns 0 when the emergency has no open need
    of the resource's type, whatever the locations; with such a need it throws
    when either location is missing, and for an urgency outside the table the
    score is NaN. *)
Theorem calculateMatchScore_edges hav (e : Emergency) (r : Resource) :
  (open_needs (r_type r) (e_resourcesNeeded e) = [] →
   calculateMatchScore hav e r = Some (Fin 0))
  ∧ (open_needs (r_type r) (e_resourcesNeeded e) ≠ [] →
     e_location e = None ∨ r_location r = None →
     calculateMatchScore hav e r = None)
  ∧ (open_needs (r_type r) (e_resourcesNeeded e) ≠ [] →
     urgencyScores (e_urgency e) = NaN →
     calculateMatchScore hav e r = None ∨ calculateMatchScore hav e r = Some NaN).
Proof.
  unfold calculateMatchScore. rewrite open_needs_find.
  destruct (list_find _ (e_resourcesNeeded e)) as [[i need]|].
  - split; [done |]. split.
    + intros _ [-> | ->]; [done |]. by destruct (e_location e).
    + intros _ ->. destruct (e_location e) as [ce|]; [| by left].
      destruct (r_location r) as [cr|]; [| by left]. cbn [mbind option_bind].
      destruct (calculateDistance _ _ _ _ _) as [dist|]; [| by left].
      right. cbn [mbind option_bind]. cbn [num_mul]. by rewrite num_add_NaN_r.
  - split; [done |]. split; intros Hc; by destruct Hc.
Qed.


Lemma calculateMatchScore_edges_witness :
  calculateMatchScore equator_km (sample_emergency "e1" (Fin 10))
    (mkResource (Some "w1"%string) "water" (Fin 10) "available" None [] "bob" None
       None true)
  = Some (Fin 0)
  ∧ calculateMatchScore equator_km (sample_emergency "e1" (Fin 10))
      (mkResource (Some "r8"%string) "medical" (Fin 10) "available" None [] "bob" None
         None true)
    = None
  ∧ (let e := mkEmergency (Some "e3"%string) "medical" "active" "severe" (Fin 10)
                (on_equator 0) [mkNeed "medical" (Fin 10) false] [] "alice" None true in
     calculateMatchScore equator_km e (sample_resource "r7" (Fin 10) 0) = None
     ∨ calculateMatchScore equator_km e (sample_resource "r7" (Fin 10) 0) = Some NaN).
Proof.
  split; [| split].
  - apply (calculateMatchScore_edges equator_km). reflexivity.
  - apply (calculateMatchScore_edges equator_km); [discriminate | by right].
  - apply (calculateMatchScore_edges equator_km); [discriminate | reflexivity].
Defined.
